(** * Emergency routing core (emergencias-gye, [src/core.py])

    A shallow embedding of the graph builder ([DescargadorRed.procesar_red_osm]),
    the point snapper ([_nearest_edge_projection],
    [_split_edge_and_connect_point]), the network integrator
    ([_integrar_servicios_en_red]), the all-pairs engine
    ([preparar_floyd_warshall], [obtener_ruta]), the nearest-node query
    ([_encontrar_nodo_mas_cercano]), the location search ([buscar_ubicacion])
    and the nearest-services query ([encontrar_servicios_cercanos]), with the
    coordinate swap of the map view ([src/streamlit_app.py]).

    Modelling conventions.
    - Python floats are modelled by exact rationals [Q]; the single infinite
      value [float('inf')] the code uses as a sentinel is the constructor [Inf]
      of [ext].  Rounding and NaN are outside this model: it carries the
      properties that do not depend on how a sum is rounded (comparisons,
      minima and maxima, which edges exist, which entries are finite).
    - Where the value of a sum matters, the engine is embedded a second time
      on IEEE 754 binary64 ([PrimFloat]), in the module [Doble]: there
      [dik + row_k[j]] rounds as it does in Python.  The stride of the
      builder, [ceil(total_points * 1.1 / objetivo)], is computed on doubles
      as well.
    - The transcendental functions of [math] and the [:.6f] formatter are the
      fields of the class [Libm]; the code is embedded on top of them.
    - A Python [str] is the [string] of the bytes of its UTF-8 encoding;
      equality, [startswith], [replace] of one ASCII character and [in] on
      texts agree with the same operations on the encodings.  The methods
      [str.strip] and [str.lower] that the location search applies to the
      text it is given follow the Unicode tables; they are the fields of the
      class [Unicode].  The builder lower-cases a tag only to compare it with
      ASCII words without the letter k, which the lower-casing of the ASCII
      letters decides.
    - A Python [dict] whose iteration order the code observes (the node table)
      is an insertion-ordered association list ([dict]); dictionaries that are
      only looked up are [gmap]s, and the set of directed pairs is a [gset].
    - Exceptions are the [Raise] results of the [res] monad; the one unbounded
      loop (the successor walk of [obtener_ruta]) runs on fuel and reports
      [Fuel] when it is exhausted.
    - The download ([descargar_red_vial]) is outside the model: the builder
      is embedded on the list of elements it receives, each point of a
      geometry carrying its two coordinates.
    - [list.sort] is modelled by what it guarantees, a stable arrangement in
      ascending order of the key. *)

From Stdlib Require Import Ascii QArith Qminmax Qround Lqa Sorted.
From Stdlib Require Import PrimFloat SpecFloat FloatOps.
From stdpp Require Import base list strings gmap pretty.

(** A decimal literal of a double denotes the nearest double, as in Python. *)
#[local] Set Warnings "-inexact-float".

(** ** Results of fallible code *)

Inductive exn := KeyError | IndexError | AttributeError.

Inductive res (A : Type) : Type :=
  | Ok (a : A)
  | Raise (e : exn)
  | Fuel.
Arguments Ok {A} a.
Arguments Raise {A} e.
Arguments Fuel {A}.

#[global] Instance res_ret : MRet res := @Ok.
#[global] Instance res_bind : MBind res := λ A B f m,
  match m with
  | Ok a => f a
  | Raise e => Raise e
  | Fuel => Fuel
  end.

Fixpoint foldM {A B : Type} (f : B → A → res B) (l : list A) (b : B) : res B :=
  match l with
  | [] => Ok b
  | x :: l' => b' ← f b x; foldM f l' b'
  end.

(** ** Floats: rationals extended with the sentinel [float('inf')] *)

Inductive ext := Fin (q : Q) | Inf.

Definition Qltb (a b : Q) : bool :=
  match (a ?= b)%Q with Lt => true | _ => false end.

(** [a + b] on floats where at most the value [inf] is not finite. *)
Definition dplus (a b : ext) : ext :=
  match a, b with
  | Fin x, Fin y => Fin (x + y)
  | _, _ => Inf
  end.

(** [a < b]: [inf < inf] is false, every finite value is below [inf]. *)
Definition dltb (a b : ext) : bool :=
  match a, b with
  | Fin x, Fin y => Qltb x y
  | Fin _, Inf => true
  | Inf, _ => false
  end.

(** [a == INF] *)
Definition is_inf (a : ext) : bool :=
  match a with Inf => true | Fin _ => false end.

Definition dle (a b : ext) : Prop :=
  match a, b with
  | Fin x, Fin y => (x <= y)%Q
  | _, Inf => True
  | Inf, Fin _ => False
  end.

Definition deq (a b : ext) : Prop :=
  match a, b with
  | Fin x, Fin y => (x == y)%Q
  | Inf, Inf => True
  | _, _ => False
  end.

(** ** Doubles

    The two conversions between Python's integers and its floats that the
    builder uses when it computes the stride. *)

(** [float(n)]: the double nearest to the integer [n], ties to even.  Beyond
    the range of doubles, where Python raises [OverflowError], the result is
    the infinity. *)
Definition float_of_int (n : Z) : float :=
  SF2Prim (binary_normalize prec emax n 0 false).

(** [math.ceil(x)] of a finite double, which is the integer [m * 2 ^ e] or an
    integer quotient rounded up.  For an infinity and for NaN, where
    [math.ceil] raises, the result is 0. *)
Definition ceil (x : float) : Z :=
  match Prim2SF x with
  | S754_finite s m e =>
      let v := if s then Z.neg m else Z.pos m in
      if (0 <=? e)%Z then (v * 2 ^ e)%Z else (- ((- v) / 2 ^ (- e)))%Z
  | _ => 0%Z
  end.

(** ** The [math] functions and the float formatter the code calls *)

Class Libm := {
  m_radians : Q → Q;
  m_degrees : Q → Q;
  m_sin : Q → Q;
  m_cos : Q → Q;
  m_sqrt : Q → Q;
  m_atan2 : Q → Q → Q;
  fmt6 : Q → string   (* f"{x:.6f}" *)
}.

(** ** Insertion-ordered dictionaries with string keys *)

Definition dict (V : Type) : Type := list (string * V).

Fixpoint dict_get {V} (k : string) (d : dict V) : option V :=
  match d with
  | [] => None
  | (k', v) :: d' => if decide (k = k') then Some v else dict_get k d'
  end.

(** [d[k] = v]: an existing key keeps its position, a new key goes last. *)
Fixpoint dict_set {V} (k : string) (v : V) (d : dict V) : dict V :=
  match d with
  | [] => [(k, v)]
  | (k', v') :: d' =>
      if decide (k = k') then (k', v) :: d' else (k', v') :: dict_set k v d'
  end.

Definition dict_keys {V} (d : dict V) : list string := d.*1.

(** [d[k]] raising [KeyError] *)
Definition dict_item {V} (k : string) (d : dict V) : res V :=
  match dict_get k d with
  | Some v => Ok v
  | None => Raise KeyError
  end.

Definition enumerate {A} (l : list A) : list (nat * A) :=
  zip (seq 0 (length l)) l.

(** ** Data model *)

Definition Coord : Type := Q * Q.          (* (lat, lon) *)
Definition Arista : Type := string * string * Q.

Record Grafo := {
  nodos : dict Coord;
  aristas : list Arista
}.

Record ServicioEmergencia := {
  nombre : string;
  tipo : string;
  coordenadas : Coord;
  telefono : string;
  especialidad : string;
  zona : string
}.

(** One element of the Overpass answer: [type], the optional [geometry] and
    the two tags the builder reads. *)
Record Elemento := {
  el_type : option string;
  el_geometry : option (list Coord);
  el_oneway : option string;
  el_junction : option string
}.

Inductive DirMode := Both | Forward | Backward.

(** ** String helpers *)

Definition lower_ascii (c : Ascii.ascii) : Ascii.ascii :=
  let n := Ascii.nat_of_ascii c in
  if (65 <=? n)%nat && (n <=? 90)%nat then Ascii.ascii_of_nat (n + 32) else c.

Fixpoint lower (s : string) : string :=
  match s with
  | EmptyString => EmptyString
  | String c s' => String (lower_ascii c) (lower s')
  end.

(** [s.replace(' ', '_')] *)
Fixpoint replace_space (s : string) : string :=
  match s with
  | EmptyString => EmptyString
  | String c s' =>
      String (if decide (c = " "%char) then "_"%char else c) (replace_space s')
  end.

(** * DescargadorRed *)

Section Descargador.
Context `{Libm}.
Local Open Scope Q_scope.

Definition _haversine_km (coord1 coord2 : Coord) : Q :=
  let '(lat1, lon1) := coord1 in
  let '(lat2, lon2) := coord2 in
  let R := 6371 in
  let dlat := m_radians (lat2 - lat1) in
  let dlon := m_radians (lon2 - lon1) in
  let a := m_sin (dlat / 2) ^ 2 +
           m_cos (m_radians lat1) * m_cos (m_radians lat2) *
           m_sin (dlon / 2) ^ 2 in
  let c := 2 * m_atan2 (m_sqrt a) (m_sqrt (1 - a)) in
  R * c.

Definition MAX_NODOS : Z := 5000.
Definition objetivo : Z := Z.max 500 (MAX_NODOS - 150).

Definition es_way (el : Elemento) : bool :=
  bool_decide (el_type el = Some "way"%string) &&
  bool_decide (is_Some (el_geometry el)).

Definition total_points (elements : list Elemento) : Z :=
  fold_left (λ acc el,
    if es_way el then (acc + Z.of_nat (length (default [] (el_geometry el))))%Z
    else acc) elements 0%Z.

Definition downsample_step (elements : list Elemento) : nat :=
  let total := total_points elements in
  if (objetivo <? total)%Z
  then Z.to_nat (Z.max 1 (ceil (float_of_int total * 1.1
                                 / float_of_int objetivo)%float))
  else 1%nat.

Definition dir_mode (el : Elemento) : DirMode :=
  let oneway := lower (default "no"%string (el_oneway el)) in
  let junction := lower (default ""%string (el_junction el)) in
  if bool_decide (oneway ∈ ["yes"; "true"; "1"]%string) then Forward
  else if bool_decide (oneway = "-1"%string) then Backward
  else if bool_decide (junction = "roundabout"%string) then Forward
  else Both.

(** The test of the node loop: a point is skipped when the stride is above 1,
    its index is not a multiple of the stride and it is not the last one. *)
Definition saltar (step len idx : nat) : bool :=
  (1 <? step)%nat && negb (idx mod step =? 0)%nat && negb (idx =? len - 1)%nat.

Record Tablas := {
  t_nodos : dict Coord;
  t_coord_to_id : gmap string string;
  t_counter : nat
}.

Definition coord_key (p : Coord) : string :=
  fmt6 p.1 +:+ "," +:+ fmt6 p.2.

(** Body of [for idx, punto in enumerate(geometry)]; the state carries the
    tables and [way_nodes]. *)
Definition visitar_punto (step len : nat) (st : Tablas * list string)
    (ip : nat * Coord) : Tablas * list string :=
  let '(t, way_nodes) := st in
  let '(idx, punto) := ip in
  if saltar step len idx then st
  else
    let key := coord_key punto in
    match t_coord_to_id t !! key with
    | Some node_id => (t, way_nodes ++ [node_id])
    | None =>
        let node_id := "node_" +:+ pretty (t_counter t) in
        ({| t_nodos := dict_set node_id punto (t_nodos t);
            t_coord_to_id := <[key := node_id]> (t_coord_to_id t);
            t_counter := S (t_counter t) |},
         way_nodes ++ [node_id])
    end.

Definition crear_nodos (step : nat) (geometry : list Coord) (t : Tablas)
    : Tablas * list string :=
  fold_left (visitar_punto step (length geometry)) (enumerate geometry) (t, []).

(** Body of [for i in range(len(way_nodes) - 1)] on the pair
    [(way_nodes[i], way_nodes[i + 1])]. *)
Definition emitir_arista (mode : DirMode) (nds : dict Coord)
    (ars : list Arista) (p : string * string) : res (list Arista) :=
  let '(n1, n2) := p in
  if decide (n1 = n2) then Ok ars
  else
    coord1 ← dict_item n1 nds;
    coord2 ← dict_item n2 nds;
    let distancia := Qmax (_haversine_km coord1 coord2) 0.01 in
    let ars1 :=
      match mode with
      | Both | Forward => ars ++ [(n1, n2, distancia)]
      | Backward => ars
      end in
    let ars2 :=
      match mode with
      | Both | Backward => ars1 ++ [(n2, n1, distancia)]
      | Forward => ars1
      end in
    Ok ars2.

Definition consecutivos {A} (l : list A) : list (A * A) := zip l (tail l).

Definition procesar_elemento (step : nat) (st : Tablas * list Arista)
    (el : Elemento) : res (Tablas * list Arista) :=
  let '(t, ars) := st in
  if negb (es_way el) then Ok st
  else
    let geometry := default [] (el_geometry el) in
    let '(t', way_nodes) := crear_nodos step geometry t in
    ars' ← foldM (emitir_arista (dir_mode el) (t_nodos t')) (consecutivos way_nodes) ars;
    Ok (t', ars').

Definition procesar_red_osm (elements : list Elemento) : res Grafo :=
  let step := downsample_step elements in
  '(t, ars) ← foldM (procesar_elemento step) elements
                 ({| t_nodos := []; t_coord_to_id := ∅; t_counter := 0 |}, []);
  Ok {| nodos := t_nodos t; aristas := ars |}.

(** [_red_fallback] *)
Definition _red_fallback : list Elemento :=
  [ {| el_type := Some "way"%string;
       el_geometry := Some [(-2.1448, -79.9663); (-2.1672, -79.9378)];
       el_oneway := None; el_junction := None |} ].

End Descargador.

(** * SistemaRutasEmergenciaGuayaquil: snapping and integration *)

(** (u, v, t, q_lat, q_lon, d) *)
Definition Proyeccion : Type := string * string * Q * Q * Q * Q.

Section Integracion.
Context `{Libm}.
Local Open Scope Q_scope.

Definition _latlon_to_xy (lat lon lat0 : Q) : Q * Q :=
  let R := 6371 in
  let x := m_radians lon * R * m_cos (m_radians lat0) in
  let y := m_radians lat * R in
  (x, y).

(** The divisor [R * cos(radians(lat0))] is never the float zero; division is
    the total division of [Q]. *)
Definition _xy_to_latlon (x y lat0 : Q) : Coord :=
  let R := 6371 in
  let lat := m_degrees (y / R) in
  let lon := m_degrees (x / (R * m_cos (m_radians lat0))) in
  (lat, lon).

(** [best[5]]: the distance of the best projection so far; [None] is the
    initial tuple [(None, None, None, None, None, inf)].  A distance is below
    [inf], so the first edge replaces the initial tuple and the loop never
    returns it ([nearest_edge_projection_Some]); the model's [None] result is
    the [return None] of the guard. *)
Definition best_dist (best : option Proyeccion) : ext :=
  match best with
  | None => Inf
  | Some (_, _, _, _, _, d) => Fin d
  end.

(** Body of [for (u, v, _w) in self.red_vial["aristas"]]. *)
Definition proyectar_arista (point_latlon : Coord) (nds : dict Coord)
    (px py : Q) (best : option Proyeccion) (e : Arista)
    : res (option Proyeccion) :=
  let '(u, v, _w) := e in
  '(a_lat, a_lon) ← dict_item u nds;
  '(b_lat, b_lon) ← dict_item v nds;
  let '(a_x, a_y) := _latlon_to_xy a_lat a_lon point_latlon.1 in
  let '(b_x, b_y) := _latlon_to_xy b_lat b_lon point_latlon.1 in
  let '(vx, vy) := (b_x - a_x, b_y - a_y) in
  let '(wx, wy) := (px - a_x, py - a_y) in
  let denom := vx * vx + vy * vy in
  let '(t, qx, qy) :=
    if Qle_bool denom 1e-12 then (0, a_x, a_y)
    else
      let t := (wx * vx + wy * vy) / denom in
      let t := if Qltb t 0 then 0 else (if Qltb 1 t then 1 else t) in
      (t, a_x + t * vx, a_y + t * vy) in
  let '(dx, dy) := (px - qx, py - qy) in
  let d := m_sqrt (dx * dx + dy * dy) in
  if dltb (Fin d) (best_dist best) then
    let '(q_lat, q_lon) := _xy_to_latlon qx qy point_latlon.1 in
    Ok (Some (u, v, t, q_lat, q_lon, d))
  else Ok best.

Definition _nearest_edge_projection (red_vial : option Grafo)
    (point_latlon : Coord) : res (option Proyeccion) :=
  match red_vial with
  | None => Ok None
  | Some g =>
      match aristas g with
      | [] => Ok None
      | _ =>
          let '(px, py) :=
            _latlon_to_xy point_latlon.1 point_latlon.2 point_latlon.1 in
          foldM (proyectar_arista point_latlon (nodos g) px py) (aristas g) None
      end
  end.

(** [{(a, b) for (a, b, _w) in aristas}] *)
Definition dir_set (ars : list Arista) : gset (string * string) :=
  list_to_set ((λ e : Arista, (e.1.1, e.1.2)) <$> ars).

(** [_split_edge_and_connect_point] on a loaded graph [g = self.red_vial];
    the result is the graph after the call and the returned pair, [None]
    standing for [(None, None)]. *)
Definition _split_edge_and_connect_point (g : Grafo) (point_latlon : Coord)
    (node_id_prefix : string) : res (Grafo * option (string * Q)) :=
  r ← _nearest_edge_projection (Some g) point_latlon;
  match r with
  | None => Ok (g, None)
  | Some (u, v, t, q_lat, q_lon, _) =>
      let new_id := node_id_prefix +:+ "_" +:+ pretty (length (nodos g)) in
      let nds := dict_set new_id (q_lat, q_lon) (nodos g) in
      let ds := dir_set (aristas g) in
      cu ← dict_item u nds;
      let d_uq := _haversine_km cu (q_lat, q_lon) in
      cv ← dict_item v nds;
      let d_qv := _haversine_km (q_lat, q_lon) cv in
      let ars1 :=
        if bool_decide ((u, v) ∈ ds)
        then aristas g ++ [(u, new_id, Qmax d_uq 0.01); (new_id, v, Qmax d_qv 0.01)]
        else aristas g in
      let ars2 :=
        if bool_decide ((v, u) ∈ ds)
        then ars1 ++ [(v, new_id, Qmax d_qv 0.01); (new_id, u, Qmax d_uq 0.01)]
        else ars1 in
      let d_conn := Qmax (_haversine_km point_latlon (q_lat, q_lon)) 0.01 in
      Ok ({| nodos := nds; aristas := ars2 |}, Some (new_id, d_conn))
  end.

(** [_inicializar_servicios] *)
Definition _inicializar_servicios : list (string * list ServicioEmergencia) :=
  [ ("Hospital",
     [ {| nombre := "Hospital del IESS Los Ceibos"; tipo := "Hospital";
          coordenadas := (-2.175396, -79.941602); telefono := "(04) 380-5130";
          especialidad := "Público"; zona := "" |};
       {| nombre := "InterHospital"; tipo := "Hospital";
          coordenadas := (-2.180693, -79.945202); telefono := "(04) 375-0000";
          especialidad := "Privado"; zona := "" |} ]);
    ("Bomberos",
     [ {| nombre := "Cuartel Bomberos #5"; tipo := "Bomberos";
          coordenadas := (-2.16239, -79.92644); telefono := "(04) 371-4840";
          especialidad := ""; zona := "Ceibos" |} ]);
    ("Policía",
     [ {| nombre := "UPC Los Ceibos"; tipo := "Policía";
          coordenadas := (-2.16567, -79.93697); telefono := "911";
          especialidad := ""; zona := "Los Ceibos" |};
       {| nombre := "UPC Los Ceibos 2"; tipo := "Policía";
          coordenadas := (-2.151886, -79.952468); telefono := "911";
          especialidad := ""; zona := "Los Ceibos" |} ]) ]%string.

(** [_inicializar_ubicaciones] *)
Definition _inicializar_ubicaciones : list (string * Coord) :=
  [ ("ESPOL"%string, (-2.1448, -79.9663));
    ("FADCOM ESPOL"%string, (-2.144132, -79.962161));
    ("FIEC ESPOL"%string, (-2.144503, -79.968048));
    ("FCNM ESPOL"%string, (-2.147740, -79.967923));
    ("FCSH ESPOL"%string, (-2.147568, -79.968294));
    ("FCV ESPOL"%string, (-2.152106, -79.957153));
    ("FICT ESPOL"%string, (-2.145025, -79.964813));
    ("FIMCP ESPOL"%string, (-2.144065, -79.965581));
    ("Los Ceibos"%string, (-2.1672, -79.9378));
    ("Riocentro Ceibos"%string, (-2.177456, -79.943431));
    ("Las Cumbres"%string, (-2.157333, -79.946304));
    ("Colinas de los Ceibos"%string, (-2.163287, -79.945786)) ].

Definition con_nodo (node_id : string) (c : Coord) (g : Grafo) : Grafo :=
  {| nodos := dict_set node_id c (nodos g); aristas := aristas g |}.

Definition con_aristas (nuevas : list Arista) (g : Grafo) : Grafo :=
  {| nodos := nodos g; aristas := aristas g ++ nuevas |}.

(** Body of the service loop of [_integrar_servicios_en_red]. *)
Definition integrar_servicio (g : Grafo) (servicio : ServicioEmergencia)
    : res Grafo :=
  let node_id := "servicio_" +:+ replace_space (nombre servicio) in
  let g1 := con_nodo node_id (coordenadas servicio) g in
  '(g2, r) ← _split_edge_and_connect_point g1 (coordenadas servicio) "snap";
  match r with
  | Some (new_node, d_conn) =>
      if bool_decide (new_node ≠ ""%string)
      then Ok (con_aristas [(node_id, new_node, d_conn);
                            (new_node, node_id, d_conn)] g2)
      else Ok g2
  | None => Ok g2
  end.

(** Body of the reference loop of [_integrar_servicios_en_red]. *)
Definition integrar_referencia (g : Grafo) (ref : string * Coord) : res Grafo :=
  let '(nombre, coords) := ref in
  let node_id := "ref_" +:+ replace_space nombre in
  let g1 := con_nodo node_id coords g in
  '(g2, r) ← _split_edge_and_connect_point g1 coords "snap";
  match r with
  | Some (new_node, d_conn) =>
      if bool_decide (new_node ≠ ""%string) && bool_decide (new_node ≠ node_id)
      then
        let d := Qmin d_conn 0.5 in
        Ok (con_aristas [(node_id, new_node, d); (new_node, node_id, d)] g2)
      else Ok g2
  | None => Ok g2
  end.

Definition _integrar_servicios_en_red
    (servicios_emergencia : list (string * list ServicioEmergencia))
    (ubicaciones_referencia : list (string * Coord))
    (red_vial : option Grafo) : res (option Grafo) :=
  match red_vial with
  | None => Ok None
  | Some g =>
      g1 ← foldM (λ g ks, foldM integrar_servicio ks.2 g) servicios_emergencia g;
      g2 ← foldM integrar_referencia ubicaciones_referencia g1;
      Ok (Some g2)
  end.

(** [cargar_red_vial] after the download: build, then integrate. *)
Definition cargar_red_vial
    (servicios_emergencia : list (string * list ServicioEmergencia))
    (ubicaciones_referencia : list (string * Coord))
    (elements : list Elemento) : res (option Grafo) :=
  g ← procesar_red_osm elements;
  _integrar_servicios_en_red servicios_emergencia ubicaciones_referencia (Some g).

End Integracion.

(** * SistemaRutasEmergenciaGuayaquil: all-pairs preparation and queries *)

(** ** Dense matrices: lists of rows, read and written in place

    Inside [preparar_floyd_warshall] every index is taken from [range(n)] or
    from the index dictionary of the same [n] nodes, so the reads below never
    leave the matrix; [mget] carries a default only to be total.  The query
    [obtener_ruta] uses the checked [mitem]. *)

Definition mget {A} (d : A) (M : list (list A)) (i j : nat) : A :=
  default d (M !! i ≫= (.!! j)).

(** [M[i][j] = v] *)
Definition mset {A} (M : list (list A)) (i j : nat) (v : A) : list (list A) :=
  alter (<[j := v]>) i M.

(** [M[i][j]] raising [IndexError] *)
Definition mitem {A} (M : list (list A)) (i j : nat) : res A :=
  match M !! i ≫= (.!! j) with
  | Some v => Ok v
  | None => Raise IndexError
  end.

(** The pair [(matriz_distancias, matriz_sucesores)]. *)
Definition FW : Type := list (list ext) * list (list (option nat)).

Record Matrices := {
  nodo_a_indice : gmap string nat;
  indice_a_nodo : gmap nat string;
  matriz_distancias : list (list ext);
  matriz_sucesores : list (list (option nat))
}.

Record Sistema := {
  servicios_emergencia : list (string * list ServicioEmergencia);
  ubicaciones_referencia : list (string * Coord);
  red_vial : option Grafo;
  fw_preparado : bool;
  fw : option Matrices     (* the attributes [preparar_floyd_warshall] creates *)
}.

Record Ruta := {
  ruta_nodos : list string;
  ruta_coordenadas : list (Q * Q);     (* [lon, lat] *)
  distancia_km : ext;
  tiempo_min : ext
}.

(** [{nodo: i for i, nodo in enumerate(nodos)}] *)
Definition mk_nodo_a_indice (nodos : list string) : gmap string nat :=
  fold_left (λ m (p : nat * string), <[p.2 := p.1]> m) (enumerate nodos) ∅.

(** [{i: nodo for nodo, i in nodo_a_indice.items()}] *)
Definition mk_indice_a_nodo (m : gmap string nat) : gmap nat string :=
  map_fold (λ nodo i acc, <[i := nodo]> acc) ∅ m.

(** [matriz[i][i] = 0.0; sucesores[i][i] = i] *)
Definition init_diag (st : FW) (i : nat) : FW :=
  (mset st.1 i i (Fin 0), mset st.2 i i (Some i)).

(** Body of [for u, v, peso in self.red_vial['aristas']]. *)
Definition init_arista (idx : gmap string nat) (st : FW) (e : Arista) : FW :=
  let '(u, v, peso) := e in
  match idx !! u, idx !! v with
  | Some i, Some j =>
      if dltb (Fin peso) (mget Inf st.1 i j)
      then (mset st.1 i j (Fin peso), mset st.2 i j (Some j))
      else st
  | _, _ => st
  end.

(** Body of [for j in range(n)]; [dik] was read before the loop, [row_k[j]],
    [row_i[j]] and [sucesores[i][k]] are read from the current matrices. *)
Definition relajar_j (k i : nat) (dik : ext) (st : FW) (j : nat) : FW :=
  let alt := dplus dik (mget Inf st.1 k j) in
  if dltb alt (mget Inf st.1 i j)
  then (mset st.1 i j alt, mset st.2 i j (mget None st.2 i k))
  else st.

(** Body of [for i in range(n)]. *)
Definition relajar_i (n k : nat) (st : FW) (i : nat) : FW :=
  let dik := mget Inf st.1 i k in
  if is_inf dik then st
  else fold_left (relajar_j k i dik) (seq 0 n) st.

(** Body of [for k in range(n)]. *)
Definition relajar_k (n : nat) (st : FW) (k : nat) : FW :=
  fold_left (relajar_i n k) (seq 0 n) st.

(** The matrices after the diagonal and the edge loops. *)
Definition matrices_iniciales (n : nat) (idx : gmap string nat)
    (ars : list Arista) : FW :=
  let st0 : FW := (replicate n (replicate n Inf), replicate n (replicate n None)) in
  let st1 := fold_left init_diag (seq 0 n) st0 in
  fold_left (init_arista idx) ars st1.

Definition floyd_warshall (n : nat) (st : FW) : FW :=
  fold_left (relajar_k n) (seq 0 n) st.

Definition preparar_grafo (g : Grafo) : Matrices :=
  let nodos := dict_keys (nodos g) in
  let idx := mk_nodo_a_indice nodos in
  let n := length nodos in
  let st := floyd_warshall n (matrices_iniciales n idx (aristas g)) in
  {| nodo_a_indice := idx;
     indice_a_nodo := mk_indice_a_nodo idx;
     matriz_distancias := st.1;
     matriz_sucesores := st.2 |}.

(** [preparar_floyd_warshall]: the system after the call and the returned
    flag. *)
Definition preparar_floyd_warshall (s : Sistema) : Sistema * bool :=
  match red_vial s with
  | None => (s, false)
  | Some g =>
      ({| servicios_emergencia := servicios_emergencia s;
          ubicaciones_referencia := ubicaciones_referencia s;
          red_vial := red_vial s;
          fw_preparado := true;
          fw := Some (preparar_grafo g) |}, true)
  end.

(** [SistemaRutasEmergenciaGuayaquil.__init__] *)
Definition sistema_inicial : Sistema :=
  {| servicios_emergencia := _inicializar_servicios;
     ubicaciones_referencia := _inicializar_ubicaciones;
     red_vial := None;
     fw_preparado := false;
     fw := None |}.

(** The loop [while actual != j] of [obtener_ruta]; one unit of fuel per
    iteration.  [Ok None] is the [return None] inside the loop. *)
Fixpoint caminar (fuel : nat) (suc : list (list (option nat))) (j actual : nat)
    (ruta : list nat) : res (option (list nat)) :=
  if decide (actual = j) then Ok (Some ruta)
  else
    match fuel with
    | O => Fuel
    | S fuel' =>
        nxt ← mitem suc actual j;
        match nxt with
        | None => Ok None
        | Some a => caminar fuel' suc j a (ruta ++ [a])
        end
    end.

Fixpoint mapM {A B : Type} (f : A → res B) (l : list A) : res (list B) :=
  match l with
  | [] => Ok []
  | x :: l' => y ← f x; ys ← mapM f l'; Ok (y :: ys)
  end.

Definition gmap_item `{Countable K} {V} (k : K) (m : gmap K V) : res V :=
  match m !! k with
  | Some v => Ok v
  | None => Raise KeyError
  end.

Definition tiempo (distancia_km : ext) : ext :=
  match distancia_km with
  | Fin d => Fin ((d / 25) * 60)
  | Inf => Inf
  end.

Definition obtener_ruta (fuel : nat) (s : Sistema) (origen destino : string)
    : res (option Ruta) :=
  if negb (fw_preparado s) then Ok None
  else
    match fw s with
    | None => Raise AttributeError
    | Some m =>
        match nodo_a_indice m !! origen, nodo_a_indice m !! destino with
        | Some i, Some j =>
            sij ← mitem (matriz_sucesores m) i j;
            match sij with
            | None => Ok None
            | Some _ =>
                r ← caminar fuel (matriz_sucesores m) j i [i];
                match r with
                | None => Ok None
                | Some ruta =>
                    ruta_nodos ← mapM (λ idx, gmap_item idx (indice_a_nodo m)) ruta;
                    coordenadas ← mapM (λ nodo,
                        match red_vial s with
                        | None => Raise AttributeError
                        | Some g => c ← dict_item nodo (nodos g); Ok (c.2, c.1)
                        end) ruta_nodos;
                    distancia_km ← mitem (matriz_distancias m) i j;
                    Ok (Some {| ruta_nodos := ruta_nodos;
                                ruta_coordenadas := coordenadas;
                                distancia_km := distancia_km;
                                tiempo_min := tiempo distancia_km |})
                end
            end
        | _, _ => Ok None
        end
    end.

Section Consultas.
Context `{Libm}.

(** Body of the scan of [_encontrar_nodo_mas_cercano]; the state is
    [(mejor_distancia, mejor_nodo)]. *)
Definition examinar_nodo (coordenadas : Coord) (st : ext * option string)
    (item : string * Coord) : ext * option string :=
  let '(node_id, node_coords) := item in
  if String.prefix "servicio_" node_id || String.prefix "ref_" node_id then st
  else
    let distancia := _haversine_km coordenadas node_coords in
    if dltb (Fin distancia) st.1 then (Fin distancia, Some node_id) else st.

Definition _encontrar_nodo_mas_cercano (red_vial : option Grafo)
    (coordenadas : Coord) : option string :=
  match red_vial with
  | None => None
  | Some g =>
      match nodos g with
      | [] => None
      | _ => (fold_left (examinar_nodo coordenadas) (nodos g) (Inf, None)).2
      end
  end.

End Consultas.

(** * SistemaRutasEmergenciaGuayaquil: location search and nearest services *)

(** The two methods of [str] the search applies to its text.  What they
    remove and what they change is fixed by the Unicode tables of the
    interpreter (the white space of [strip], the case mapping of [lower],
    which can change the length of a text); the search is embedded on top of
    them. *)
Class Unicode := {
  str_strip : string → string;    (* s.strip() *)
  str_lower : string → string     (* s.lower() *)
}.

(** [sub in s] on strings *)
Fixpoint contiene (sub s : string) : bool :=
  String.prefix sub s ||
  match s with
  | EmptyString => false
  | String _ s' => contiene sub s'
  end.

Section Busqueda.
Context `{Unicode}.

(** First loop of [buscar_ubicacion]: the lowered name is the text. *)
Fixpoint buscar_exacta (texto : string) (ubicaciones : list (string * Coord))
    : option Coord :=
  match ubicaciones with
  | [] => None
  | (nombre, coords) :: l =>
      if decide (texto = str_lower nombre) then Some coords
      else buscar_exacta texto l
  end.

(** Second loop of [buscar_ubicacion]: one of the text and the lowered name
    occurs in the other. *)
Fixpoint buscar_parcial (texto : string) (ubicaciones : list (string * Coord))
    : option Coord :=
  match ubicaciones with
  | [] => None
  | (nombre, coords) :: l =>
      if contiene texto (str_lower nombre) || contiene (str_lower nombre) texto
      then Some coords
      else buscar_parcial texto l
  end.

Definition buscar_ubicacion (s : Sistema) (texto : string) : option Coord :=
  let texto := str_lower (str_strip texto) in
  match buscar_exacta texto (ubicaciones_referencia s) with
  | Some coords => Some coords
  | None => buscar_parcial texto (ubicaciones_referencia s)
  end.

End Busqueda.

(** One entry of the list [encontrar_servicios_cercanos] returns. *)
Record Resultado := {
  r_servicio : ServicioEmergencia;
  r_distancia_km : ext;
  r_tiempo_min : ext;
  r_ruta_coordenadas : list (Q * Q);
  r_ruta_nodos : list string
}.

(** [l.sort(key=key)]: the sort is stable and compares keys with [<], so an
    element ends behind the elements before it that it is not smaller than.
    The arrangement is computed by insertion. *)
Fixpoint insertar {A} (key : A → ext) (x : A) (l : list A) : list A :=
  match l with
  | [] => [x]
  | y :: l' => if dltb (key x) (key y) then x :: l else y :: insertar key x l'
  end.

Definition ordenar {A} (key : A → ext) (l : list A) : list A :=
  fold_left (λ acc x, insertar key x acc) l [].

(** [l[:n]]: a negative [n] counts from the end. *)
Definition hasta {A} (n : Z) (l : list A) : list A :=
  if (0 <=? n)%Z then take (Z.to_nat n) l
  else take (Z.to_nat (Z.of_nat (length l) + n)) l.

Section Servicios.
Context `{Libm}.

(** Body of [for servicio in self.servicios_emergencia[tipo_servicio]]. *)
Definition examinar_servicio (fuel : nat) (s : Sistema) (nodo_origen : string)
    (resultados : list Resultado) (servicio : ServicioEmergencia)
    : res (list Resultado) :=
  let nodo_servicio := "servicio_" +:+ replace_space (nombre servicio) in
  match fw s with
  | None => Raise AttributeError
  | Some m =>
      match nodo_a_indice m !! nodo_servicio with
      | None => Ok resultados
      | Some _ =>
          ruta_info ← obtener_ruta fuel s nodo_origen nodo_servicio;
          match ruta_info with
          | None => Ok resultados
          | Some r =>
              Ok (resultados ++
                  [ {| r_servicio := servicio;
                       r_distancia_km := distancia_km r;
                       r_tiempo_min := tiempo_min r;
                       r_ruta_coordenadas := ruta_coordenadas r;
                       r_ruta_nodos := ruta_nodos r |} ])
          end
      end
  end.

Definition encontrar_servicios_cercanos (fuel : nat) (s : Sistema)
    (coordenadas_origen : Coord) (tipo_servicio : string) (max_resultados : Z)
    : res (list Resultado) :=
  if negb (fw_preparado s) then Ok []
  else
    match dict_get tipo_servicio (servicios_emergencia s) with
    | None => Ok []
    | Some servicios =>
        match _encontrar_nodo_mas_cercano (red_vial s) coordenadas_origen with
        | None => Ok []
        | Some nodo_origen =>
            if decide (nodo_origen = ""%string) then Ok []
            else
              resultados ← foldM (examinar_servicio fuel s nodo_origen) servicios [];
              Ok (hasta max_resultados (ordenar r_distancia_km resultados))
        end
    end.

End Servicios.

(** * The map view ([src/streamlit_app.py]) *)

(** [[[lat, lon] for lon, lat in r["ruta_coordenadas"]]] *)
Definition coords_line (ruta_coordenadas : list (Q * Q)) : list Coord :=
  (λ c : Q * Q, (c.2, c.1)) <$> ruta_coordenadas.

(** * The all-pairs engine on binary64

    [preparar_floyd_warshall] and [obtener_ruta] once more, with the weights,
    the coordinates and the distance matrix holding doubles: [+], [<], [==],
    [/] and [*] are the operations of IEEE 754 binary64, and [INF] is its
    infinity. *)

Module Doble.

Definition Coord : Type := float * float.          (* (lat, lon) *)
Definition Arista : Type := string * string * float.

Record Grafo := {
  nodos : dict Coord;
  aristas : list Arista
}.

(** The pair [(matriz_distancias, matriz_sucesores)]. *)
Definition FW : Type := list (list float) * list (list (option nat)).

Record Matrices := {
  nodo_a_indice : gmap string nat;
  indice_a_nodo : gmap nat string;
  matriz_distancias : list (list float);
  matriz_sucesores : list (list (option nat))
}.

(** The attributes the two methods read and write. *)
Record Sistema := {
  red_vial : option Grafo;
  fw_preparado : bool;
  fw : option Matrices
}.

Record Ruta := {
  ruta_nodos : list string;
  ruta_coordenadas : list (float * float);     (* [lon, lat] *)
  distancia_km : float;
  tiempo_min : float
}.

Definition INF : float := infinity.

(** [matriz[i][i] = 0.0; sucesores[i][i] = i] *)
Definition init_diag (st : FW) (i : nat) : FW :=
  (mset st.1 i i 0%float, mset st.2 i i (Some i)).

(** Body of [for u, v, peso in self.red_vial['aristas']]. *)
Definition init_arista (idx : gmap string nat) (st : FW) (e : Arista) : FW :=
  let '(u, v, peso) := e in
  match idx !! u, idx !! v with
  | Some i, Some j =>
      if (peso <? mget INF st.1 i j)%float
      then (mset st.1 i j peso, mset st.2 i j (Some j))
      else st
  | _, _ => st
  end.

(** Body of [for j in range(n)]. *)
Definition relajar_j (k i : nat) (dik : float) (st : FW) (j : nat) : FW :=
  let alt := (dik + mget INF st.1 k j)%float in
  if (alt <? mget INF st.1 i j)%float
  then (mset st.1 i j alt, mset st.2 i j (mget None st.2 i k))
  else st.

(** Body of [for i in range(n)]. *)
Definition relajar_i (n k : nat) (st : FW) (i : nat) : FW :=
  let dik := mget INF st.1 i k in
  if (dik =? INF)%float then st
  else fold_left (relajar_j k i dik) (seq 0 n) st.

(** Body of [for k in range(n)]. *)
Definition relajar_k (n : nat) (st : FW) (k : nat) : FW :=
  fold_left (relajar_i n k) (seq 0 n) st.

(** The matrices after the diagonal and the edge loops. *)
Definition matrices_iniciales (n : nat) (idx : gmap string nat)
    (ars : list Arista) : FW :=
  let st0 : FW := (replicate n (replicate n INF), replicate n (replicate n None)) in
  let st1 := fold_left init_diag (seq 0 n) st0 in
  fold_left (init_arista idx) ars st1.

Definition floyd_warshall (n : nat) (st : FW) : FW :=
  fold_left (relajar_k n) (seq 0 n) st.

Definition preparar_grafo (g : Grafo) : Matrices :=
  let nodos := dict_keys (nodos g) in
  let idx := mk_nodo_a_indice nodos in
  let n := length nodos in
  let st := floyd_warshall n (matrices_iniciales n idx (aristas g)) in
  {| nodo_a_indice := idx;
     indice_a_nodo := mk_indice_a_nodo idx;
     matriz_distancias := st.1;
     matriz_sucesores := st.2 |}.

(** [preparar_floyd_warshall]: the system after the call and the returned
    flag. *)
Definition preparar_floyd_warshall (s : Sistema) : Sistema * bool :=
  match red_vial s with
  | None => (s, false)
  | Some g =>
      ({| red_vial := red_vial s;
          fw_preparado := true;
          fw := Some (preparar_grafo g) |}, true)
  end.

Definition obtener_ruta (fuel : nat) (s : Sistema) (origen destino : string)
    : res (option Ruta) :=
  if negb (fw_preparado s) then Ok None
  else
    match fw s with
    | None => Raise AttributeError
    | Some m =>
        match nodo_a_indice m !! origen, nodo_a_indice m !! destino with
        | Some i, Some j =>
            sij ← mitem (matriz_sucesores m) i j;
            match sij with
            | None => Ok None
            | Some _ =>
                r ← caminar fuel (matriz_sucesores m) j i [i];
                match r with
                | None => Ok None
                | Some ruta =>
                    ruta_nodos ← mapM (λ idx, gmap_item idx (indice_a_nodo m)) ruta;
                    coordenadas ← mapM (λ nodo,
                        match red_vial s with
                        | None => Raise AttributeError
                        | Some g => c ← dict_item nodo (nodos g); Ok (c.2, c.1)
                        end) ruta_nodos;
                    distancia_km ← mitem (matriz_distancias m) i j;
                    Ok (Some {| ruta_nodos := ruta_nodos;
                                ruta_coordenadas := coordenadas;
                                distancia_km := distancia_km;
                                tiempo_min := (distancia_km / 25 * 60)%float |})
                end
            end
        | _, _ => Ok None
        end
    end.

End Doble.

(** * Vocabulary of the claims *)

(** ** Graph builder and integrator *)

(** The points of a way the node loop does not skip, with their indices. *)
Definition puntos_conservados (step : nat) (geometry : list Coord)
    : list (nat * Coord) :=
  filter (λ ip : nat * Coord, saltar step (length geometry) ip.1 = false)
         (enumerate geometry).

(** An edge weighs at least 0.01 km. *)
Definition piso (e : Arista) : Prop := (0.01 <= e.2)%Q.

Section GrafosDelPrograma.
Context `{Libm}.

(** The states of [self.red_vial]: the output of the builder, and what the
    integrator makes of it step by step (a catalog node assigned, an edge
    split with the prefix the integrator passes, a catalog entry connected). *)
Inductive alcanzable : Grafo → Prop :=
  | alc_procesar elements g :
      procesar_red_osm elements = Ok g → alcanzable g
  | alc_nodo_servicio g s :
      alcanzable g →
      alcanzable (con_nodo ("servicio_" +:+ replace_space (nombre s)) (coordenadas s) g)
  | alc_nodo_referencia g nom c :
      alcanzable g →
      alcanzable (con_nodo ("ref_" +:+ replace_space nom) c g)
  | alc_split g p g' r :
      alcanzable g →
      _split_edge_and_connect_point g p "snap" = Ok (g', r) → alcanzable g'
  | alc_servicio g s g' :
      alcanzable g → integrar_servicio g s = Ok g' → alcanzable g'
  | alc_referencia g ref g' :
      alcanzable g → integrar_referencia g ref = Ok g' → alcanzable g'.

End GrafosDelPrograma.

(** ** Queries *)

(** The ids the scan skips: catalog nodes, [servicio_*] and [ref_*]. *)
Definition es_catalogo (k : string) : bool :=
  String.prefix "servicio_" k || String.prefix "ref_" k.

(** ** Matrices *)

Definition mdim {A} (n : nat) (M : list (list A)) : Prop :=
  length M = n ∧ Forall (λ r, length r = n) M.

(** Reading the pair of matrices. *)
Definition dv (st : FW) (i j : nat) : ext := mget Inf st.1 i j.
Definition sv (st : FW) (i j : nat) : option nat := mget None st.2 i j.
Definition fw_dim (n : nat) (st : FW) : Prop := mdim n st.1 ∧ mdim n st.2.

Definition pesos_no_negativos (g : Grafo) : Prop :=
  Forall (λ e : Arista, (0 <= e.2)%Q) (aristas g).

Definition pesos_positivos (g : Grafo) : Prop :=
  Forall (λ e : Arista, (0 < e.2)%Q) (aristas g).

(** [x] is the least weight among the edges from [u] to [v]. *)
Definition peso_minimo_de (ars : list Arista) (u v : string) (x : Q) : Prop :=
  (u, v, x) ∈ ars ∧ ∀ x', (u, v, x') ∈ ars → (x <= x')%Q.

(** The states in which the route query runs: before any preparation, or
    with the matrices prepared from a graph with positive weights. *)
Definition estado_valido (s : Sistema) : Prop :=
  fw_preparado s = false ∨
  (fw_preparado s = true ∧
   ∃ g, pesos_positivos g ∧ fw s = Some (preparar_grafo g)).

(** The four cases in which the route query answers none. *)
Definition sin_ruta (s : Sistema) (origen destino : string) : Prop :=
  fw_preparado s = false ∨
  ∃ m, fw s = Some m ∧
    (nodo_a_indice m !! origen = None ∨
     nodo_a_indice m !! destino = None ∨
     ∃ i j, nodo_a_indice m !! origen = Some i ∧
            nodo_a_indice m !! destino = Some j ∧
            mitem (matriz_sucesores m) i j = Ok None).

(** ** A small network to run the model on *)

(** A rational stand-in for [math] on which the model computes: angles are
    not converted, [sin] and [sqrt] are the identity, [cos] is 1, and a
    coordinate is printed as its integer number of millionths. *)
Definition libm_ejemplo : Libm :=
  {| m_radians := λ x, x;
     m_degrees := λ x, x;
     m_sin := λ x, x;
     m_cos := λ _, 1%Q;
     m_sqrt := λ x, x;
     m_atan2 := λ y _, y;
     fmt6 := λ q, pretty (Qfloor (q * 1000000)) |}.

Definition elementos_ejemplo : list Elemento :=
  [ {| el_type := Some "way"%string;
       el_geometry := Some [(0, 0); (0, 1); (0, 2); (1, 2)]%Q;
       el_oneway := Some "Yes"%string; el_junction := None |};
    {| el_type := Some "way"%string;
       el_geometry := Some [(0, 1); (1, 1)]%Q;
       el_oneway := None; el_junction := None |} ].

Definition grafo_ejemplo : Grafo :=
  match procesar_red_osm (H := libm_ejemplo) elementos_ejemplo with
  | Ok g => g
  | _ => {| nodos := []; aristas := [] |}
  end.

(** The example ways with one reference location snapped onto them. *)
Definition grafo_integrado : Grafo :=
  match cargar_red_vial (H := libm_ejemplo) []
          [("A B"%string, (1 # 2, 1 # 2))] elementos_ejemplo with
  | Ok (Some g) => g
  | _ => {| nodos := []; aristas := [] |}
  end.

Definition sistema_ejemplo : Sistema :=
  {| servicios_emergencia := [];
     ubicaciones_referencia := [("A B"%string, (1 # 2, 1 # 2))];
     red_vial := Some grafo_integrado;
     fw_preparado := false;
     fw := None |}.

Definition arista_ejemplo : Arista :=
  default (""%string, ""%string, 0%Q) (head (aristas grafo_integrado)).

(** * Vocabulary of the further properties *)

(** ** Graphs *)

(** A walk along edges of the graph, with its total weight. *)
Inductive recorrido (ars : list Arista) : string → string → Q → Prop :=
  | recorrido_nil u : recorrido ars u u 0
  | recorrido_cons u v z x y :
      (u, v, x) ∈ ars → recorrido ars v z y → recorrido ars u z (x + y).

(** Every edge has its reverse, with the same weight. *)
Definition simetrico (ars : list Arista) : Prop :=
  ∀ u v x, (u, v, x) ∈ ars → (v, u, x) ∈ ars.

(** No edge joins a node to itself. *)
Definition sin_bucles (ars : list Arista) : Prop :=
  ∀ u v x, (u, v, x) ∈ ars → u ≠ v.

(** The graph only grows. *)
Definition crece (g g' : Grafo) : Prop :=
  (∀ k, k ∈ dict_keys (nodos g) → k ∈ dict_keys (nodos g')) ∧
  (∀ e, e ∈ aristas g → e ∈ aristas g') ∧
  (aristas g = [] → aristas g' = []).

(** A catalog node is in the node table and, when the graph has an edge,
    joined both ways to a node by edges of one weight [d] that satisfies
    [cota]. *)
Definition enlazado (id : string) (cota : Q → Prop) (g : Grafo) : Prop :=
  id ∈ dict_keys (nodos g) ∧
  (aristas g ≠ [] →
   ∃ otro d, (id, otro, d) ∈ aristas g ∧ (otro, id, d) ∈ aristas g ∧
             otro ∈ dict_keys (nodos g) ∧ cota d).

(** ** Tables of the builder *)

(** The id the builder gives to its [c]-th node. *)
Definition id_nodo (c : nat) : string := "node_" +:+ pretty c.

(** The builder's tables between two points. *)
Definition tabla_bien `{Libm} (t : Tablas) : Prop :=
  dict_keys (t_nodos t) = id_nodo <$> seq 0 (t_counter t) ∧
  (∀ key id, t_coord_to_id t !! key = Some id →
     ∃ p, dict_get id (t_nodos t) = Some p ∧ coord_key p = key) ∧
  (∀ k1 k2 id, t_coord_to_id t !! k1 = Some id →
     t_coord_to_id t !! k2 = Some id → k1 = k2).

Definition tabla_vacia : Tablas :=
  {| t_nodos := []; t_coord_to_id := ∅; t_counter := 0 |}.

(** ** Text *)

(** [a] occurs in [b]. *)
Definition subcadena (a b : string) : Prop :=
  ∃ pre post, b = pre +:+ a +:+ post.

(** The two methods on ASCII text, where [strip] removes the characters 9 to
    13 and 28 to 32 and [lower] changes the letters A to Z: the instance the
    search is run on in the examples. *)
Definition es_espacio (c : Ascii.ascii) : bool :=
  let n := Ascii.nat_of_ascii c in
  ((9 <=? n)%nat && (n <=? 13)%nat) || ((28 <=? n)%nat && (n <=? 32)%nat).

Fixpoint lstrip (s : string) : string :=
  match s with
  | EmptyString => EmptyString
  | String c s' => if es_espacio c then lstrip s' else s
  end.

Fixpoint rstrip (s : string) : string :=
  match s with
  | EmptyString => EmptyString
  | String c s' =>
      match rstrip s' with
      | EmptyString => if es_espacio c then EmptyString else String c EmptyString
      | r => String c r
      end
  end.

Definition unicode_ejemplo : Unicode :=
  {| str_strip := λ s, rstrip (lstrip s); str_lower := lower |}.

(** ** Nearest services *)

(** The entry the service loop appends for a service and its route. *)
Definition entrada (servicio : ServicioEmergencia) (r : Ruta) : Resultado :=
  {| r_servicio := servicio;
     r_distancia_km := distancia_km r;
     r_tiempo_min := tiempo_min r;
     r_ruta_coordenadas := ruta_coordenadas r;
     r_ruta_nodos := ruta_nodos r |}.

(** The node id of a service. *)
Definition nodo_de (servicio : ServicioEmergencia) : string :=
  "servicio_" +:+ replace_space (nombre servicio).

(** Ascending keys. *)
Definition creciente {A} (key : A → ext) (l : list A) : Prop :=
  StronglySorted (λ a b, dle (key a) (key b)) l.

(** The guards of [encontrar_servicios_cercanos]. *)
Definition sin_busqueda `{Libm} (s : Sistema) (coords : Coord) (tipo : string) : Prop :=
  fw_preparado s = false ∨
  dict_get tipo (servicios_emergencia s) = None ∨
  _encontrar_nodo_mas_cercano (red_vial s) coords = None ∨
  _encontrar_nodo_mas_cercano (red_vial s) coords = Some ""%string.

(** ** Further networks to run the model on *)

(** A way without a one-way tag. *)
Definition elementos_doble_via : list Elemento :=
  [ {| el_type := Some "way"%string;
       el_geometry := Some [(0, 0); (0, 1)]%Q;
       el_oneway := Some "no"%string; el_junction := None |} ].

Definition hospital_norte : ServicioEmergencia :=
  {| nombre := "H Norte"; tipo := "Hospital"; coordenadas := (0, 1)%Q;
     telefono := ""; especialidad := ""; zona := "" |}.

Definition hospital_sur : ServicioEmergencia :=
  {| nombre := "H Sur"; tipo := "Hospital"; coordenadas := (0, 0)%Q;
     telefono := ""; especialidad := ""; zona := "" |}.

Definition servicios_ejemplo : list (string * list ServicioEmergencia) :=
  [ ("Hospital"%string, [hospital_norte; hospital_sur]) ].

Definition grafo_servicios : Grafo :=
  match cargar_red_vial (H := libm_ejemplo) servicios_ejemplo []
          elementos_doble_via with
  | Ok (Some g) => g
  | _ => {| nodos := []; aristas := [] |}
  end.

Definition sistema_servicios : Sistema :=
  {| servicios_emergencia := servicios_ejemplo;
     ubicaciones_referencia := [];
     red_vial := Some grafo_servicios;
     fw_preparado := false;
     fw := None |}.


(** A node table without edges. *)
Definition sistema_sin_aristas : Sistema :=
  {| servicios_emergencia := [];
     ubicaciones_referencia := [];
     red_vial := Some {| nodos := [("a"%string, (0, 0)%Q); ("b"%string, (1, 1)%Q)];
                         aristas := [] |};
     fw_preparado := false;
     fw := None |}.

(** ** A network of doubles

    Three one-way segments in a row, from [a] to [b] to [c] to [d], of 0.1,
    0.2 and 0.3 km, on a node table filled in the order given.  A decimal
    literal denotes the nearest double, as it does in Python. *)



(** * Properties *)

(** ** Comparison and arithmetic of floats *)

Lemma Qltb_lt (a b : Q) : Qltb a b = true ↔ (a < b)%Q.
Proof.
  unfold Qltb. rewrite Qlt_alt. destruct (a ?= b)%Q; split; congruence.
Qed.

Lemma Qltb_ge (a b : Q) : Qltb a b = false ↔ (b <= a)%Q.
Proof.
  rewrite <- not_true_iff_false, Qltb_lt. split; [apply Qnot_lt_le | apply Qle_not_lt].
Qed.

Lemma dltb_false_dle (a b : ext) : dltb a b = false → dle b a.
Proof.
  destruct a as [x|], b as [y|]; simpl; try done.
  by rewrite Qltb_ge.
Qed.

Lemma dltb_true_dle (a b : ext) : dltb a b = true → dle a b.
Proof.
  destruct a as [x|], b as [y|]; simpl; try done.
  rewrite Qltb_lt. apply Qlt_le_weak.
Qed.

Lemma dle_refl (a : ext) : dle a a.
Proof. destruct a; simpl; [apply Qle_refl | done]. Qed.

Lemma dle_trans (a b c : ext) : dle a b → dle b c → dle a c.
Proof.
  destruct a, b, c; simpl; try done. apply Qle_trans.
Qed.

(** ** Monadic folds *)

Lemma foldM_inv {A B} (P : B → Prop) (f : B → A → res B) l :
  (∀ b x b', P b → f b x = Ok b' → P b') →
  ∀ b b', P b → foldM f l b = Ok b' → P b'.
Proof.
  intros Hf. induction l as [|x l IH]; intros b b' Hb; simpl.
  - by intros [= <-].
  - destruct (f b x) as [b1| |] eqn:E; simpl; try done. eauto.
Qed.

(** ** Enumeration *)

Lemma enumerate_lookup {A} (l : list A) i x :
  enumerate l !! i = Some (i, x) ↔ l !! i = Some x.
Proof.
  unfold enumerate. rewrite lookup_zip_with. split.
  - destruct (seq 0 (length l) !! i) eqn:E1; simpl; [|done].
    destruct (l !! i); simpl; [|done]. by intros [= _ ->].
  - intros Hx. assert (i < length l) by (by eapply lookup_lt_Some).
    rewrite (lookup_seq_lt 0 (length l) i) by done. simpl. by rewrite Hx.
Qed.

Lemma enumerate_snoc {A} (l : list A) x :
  enumerate (l ++ [x]) = enumerate l ++ [(length l, x)].
Proof.
  unfold enumerate. rewrite length_app. simpl.
  rewrite Nat.add_1_r, seq_S. simpl.
  rewrite zip_with_app by (by rewrite length_seq). done.
Qed.

(** ** Downsampling (graph builder) *)

Section Submuestreo.
Context `{Libm}.

Lemma saltar_multiplo step len idx : idx mod step = 0 → saltar step len idx = false.
Proof.
  intros Hm. unfold saltar. rewrite Hm. simpl. by rewrite andb_false_r.
Qed.

Lemma saltar_ultimo step len idx : idx = len - 1 → saltar step len idx = false.
Proof.
  intros ->. unfold saltar. rewrite Nat.eqb_refl. simpl. by rewrite andb_false_r.
Qed.

Lemma visitar_punto_fold step len l t wn :
  ∃ wn',
    (fold_left (visitar_punto step len) l (t, wn)).2 = wn ++ wn' ∧
    t_coord_to_id t ⊆ t_coord_to_id (fold_left (visitar_punto step len) l (t, wn)).1 ∧
    Forall2 (λ (ip : nat * Coord) id,
               t_coord_to_id (fold_left (visitar_punto step len) l (t, wn)).1
                 !! coord_key ip.2 = Some id)
            (filter (λ ip : nat * Coord, saltar step len ip.1 = false) l) wn'.
Proof.
  revert t wn. induction l as [|[idx punto] l IH]; intros t wn; simpl.
  - exists []. rewrite app_nil_r. repeat split; [done|constructor].
  - rewrite filter_cons. simpl. destruct (saltar step len idx) eqn:Es.
    + rewrite decide_False by done. apply IH.
    + rewrite decide_True by done.
      destruct (t_coord_to_id t !! coord_key punto) as [node_id|] eqn:Ek.
      * destruct (IH t (wn ++ [node_id])) as (wn' & E1 & E2 & E3).
        exists (node_id :: wn'). rewrite E1, <- app_assoc. repeat split; try done.
        constructor; [|done]. simpl. by eapply lookup_weaken.
      * match goal with |- context [fold_left _ l (?t1, ?w1)] =>
          destruct (IH t1 w1) as (wn' & E1 & E2 & E3);
          exists (("node_" +:+ pretty (t_counter t)) :: wn') end.
        rewrite E1, <- app_assoc. simpl in E2. repeat split; try done.
        -- etrans; [|exact E2]. by apply insert_subseteq.
        -- constructor; [|done]. simpl. eapply lookup_weaken; [|exact E2].
           apply lookup_insert_eq.
Qed.

Lemma puntos_conservados_extremos step p0 mid pl :
  ∃ ks, puntos_conservados step (p0 :: mid ++ [pl])
        = (0, p0) :: ks ++ [(length (p0 :: mid), pl)].
Proof.
  unfold puntos_conservados.
  change (p0 :: mid ++ [pl]) with ((p0 :: mid) ++ [pl]).
  rewrite enumerate_snoc, filter_app.
  rewrite (filter_cons_True _ _ []).
  2:{ simpl. apply saltar_ultimo. rewrite length_app. simpl. lia. }
  change (enumerate (p0 :: mid)) with
    ((0, p0) :: zip (seq 1 (length mid)) mid).
  rewrite filter_cons_True.
  2:{ simpl. apply saltar_multiplo. apply Nat.Div0.mod_0_l. }
  eexists. simpl. reflexivity.
Qed.

(** C6. For a way with at least two geometry points and any stride, the
    node loop keeps at least two points, the last kept point is the way's
    last coordinate, every point whose index is a multiple of the stride is
    kept, and [way_nodes] lists, in order, the node ids of exactly the kept
    points. *)
Theorem downsampling_keeps_endpoints (step : nat) (geometry : list Coord)
    (t : Tablas) :
  2 ≤ length geometry →
  let kept := puntos_conservados step geometry in
  2 ≤ length kept ∧
  last kept.*2 = last geometry ∧
  (∀ idx p, geometry !! idx = Some p → idx mod step = 0 → (idx, p) ∈ kept) ∧
  (∀ p, last geometry = Some p → (length geometry - 1, p) ∈ kept) ∧
  Forall2 (λ (ip : nat * Coord) id,
             t_coord_to_id (crear_nodos step geometry t).1 !! coord_key ip.2
               = Some id)
          kept (crear_nodos step geometry t).2.
Proof.
  intros Hlen kept.
  assert (Hin : ∀ idx p, geometry !! idx = Some p →
            saltar step (length geometry) idx = false → (idx, p) ∈ kept).
  { intros idx p Hp Hs. apply list_elem_of_filter. split; [done|].
    apply list_elem_of_lookup. exists idx. by apply enumerate_lookup. }
  destruct geometry as [|p0 rest]; [simpl in Hlen; lia|].
  destruct (exists_last (l := rest)) as (mid & pl & ->).
  { intros ->. simpl in Hlen. lia. }
  assert (Hsplit : ∃ ks, kept = (0, p0) :: ks ++ [(length (p0 :: mid), pl)])
    by apply puntos_conservados_extremos.
  destruct Hsplit as [ks Hks].
  split; [|split; [|split; [|split]]].
  - rewrite Hks. simpl. rewrite length_app. simpl. lia.
  - rewrite Hks. rewrite fmap_cons, fmap_app. simpl.
    change (p0 :: mid ++ [pl]) with ((p0 :: mid) ++ [pl]).
    rewrite !last_snoc.
    change (p0 :: ks.*2 ++ [pl]) with ((p0 :: ks.*2) ++ [pl]).
    by rewrite last_snoc.
  - intros idx p Hp Hm. apply Hin; [done|]. by apply saltar_multiplo.
  - intros p Hp. apply Hin; [|by apply saltar_ultimo].
    rewrite last_lookup in Hp. rewrite <- Hp. f_equal. simpl. lia.
  - unfold crear_nodos.
    destruct (visitar_punto_fold step (length (p0 :: mid ++ [pl]))
                (enumerate (p0 :: mid ++ [pl])) t []) as (wn' & E1 & _ & E3).
    rewrite E1. simpl. exact E3.
Qed.

End Submuestreo.

(** ** The 10 m floor and the frame of the snapper *)

Lemma dict_set_fresh {V} k (v : V) d :
  dict_get k d = None → dict_set k v d = d ++ [(k, v)].
Proof.
  induction d as [|[k' v'] d IH]; simpl; [done|].
  destruct (decide (k = k')); [done|]. intros Hn. by rewrite IH.
Qed.

Lemma dict_set_length {V} k (v : V) d : length d ≤ length (dict_set k v d).
Proof.
  induction d as [|[k' v'] d IH]; simpl; [lia|].
  destruct (decide (k = k')); simpl; lia.
Qed.

Lemma dict_keys_set {V} k (v : V) d :
  dict_keys (dict_set k v d) = dict_keys d ∨
  ((k ∉ dict_keys d) ∧ dict_keys (dict_set k v d) = dict_keys d ++ [k]).
Proof.
  unfold dict_keys. induction d as [|[k' v'] d IH]; simpl.
  - right. split; [apply not_elem_of_nil|done].
  - destruct (decide (k = k')) as [->|Hne]; [by left|].
    rewrite fmap_cons. simpl.
    destruct IH as [IH|[Hni IH]]; rewrite IH; [by left|right].
    split; [|done]. rewrite elem_of_cons. tauto.
Qed.

Lemma dict_get_None_keys {V} k (d : dict V) :
  dict_get k d = None ↔ k ∉ dict_keys d.
Proof.
  unfold dict_keys. induction d as [|[k' v'] d IH]; simpl.
  - split; [intros _; apply not_elem_of_nil|done].
  - rewrite elem_of_cons. destruct (decide (k = k')); [|tauto].
    split; [done|tauto].
Qed.

Section Marco.
Context `{Libm}.
Local Open Scope Q_scope.

Lemma emitir_arista_piso mode nds ars p ars' :
  Forall piso ars → emitir_arista mode nds ars p = Ok ars' → Forall piso ars'.
Proof.
  intros Hars. unfold emitir_arista. destruct p as [n1 n2].
  destruct (decide (n1 = n2)); [by intros [= <-]|].
  destruct (dict_item n1 nds) as [c1| |]; simpl; try done.
  destruct (dict_item n2 nds) as [c2| |]; simpl; try done.
  intros [= <-].
  assert (piso (n1, n2, Qmax (_haversine_km c1 c2) 0.01)) by apply Q.le_max_r.
  assert (piso (n2, n1, Qmax (_haversine_km c1 c2) 0.01)) by apply Q.le_max_r.
  destruct mode; repeat (apply Forall_app; split); auto.
Qed.

Lemma procesar_elemento_piso step st el st' :
  Forall piso st.2 → procesar_elemento step st el = Ok st' → Forall piso st'.2.
Proof.
  destruct st as [t ars]. unfold procesar_elemento. simpl. intros Hars.
  destruct (negb (es_way el)); [by intros [= <-]|].
  destruct (crear_nodos _ _ _) as [t' way_nodes].
  destruct (foldM _ _ _) as [ars1| |] eqn:E; simpl; try done.
  intros [= <-]. simpl.
  eapply (foldM_inv (Forall piso)); [|exact Hars|exact E].
  intros b x b' Hb Hx. by eapply emitir_arista_piso.
Qed.

Lemma procesar_red_osm_piso elements g :
  procesar_red_osm elements = Ok g → Forall piso (aristas g).
Proof.
  unfold procesar_red_osm.
  destruct (foldM _ _ _) as [[t ars]| |] eqn:E; simpl; try done.
  intros [= <-]. simpl.
  change ars with (t, ars).2.
  eapply (foldM_inv (λ st : Tablas * list Arista, Forall piso st.2)); [| |exact E].
  - intros b x b'. apply procesar_elemento_piso.
  - constructor.
Qed.

(** What one call of the snapper does to the graph: nothing when there is no
    projection; otherwise it assigns the node [prefix_<len(nodos)>] and
    appends two or four edges, each floored at 0.01 km. *)
Lemma split_spec g p pre g' r :
  _split_edge_and_connect_point g p pre = Ok (g', r) →
  (r = None ∧ g' = g) ∨
  ∃ q nuevas,
    r = Some (pre +:+ "_" +:+ pretty (length (nodos g)),
              Qmax (_haversine_km p q) 0.01) ∧
    nodos g' = dict_set (pre +:+ "_" +:+ pretty (length (nodos g))) q (nodos g) ∧
    aristas g' = aristas g ++ nuevas ∧
    (length nuevas ≤ 4)%nat ∧
    Forall piso nuevas.
Proof.
  unfold _split_edge_and_connect_point.
  destruct (_nearest_edge_projection (Some g) p) as [[proj|]| |]; simpl; try done.
  2:{ intros [= <- <-]. by left. }
  destruct proj as [[[[[u v] t] q_lat] q_lon] d].
  destruct (dict_item u _) as [cu| |]; simpl; try done.
  destruct (dict_item v _) as [cv| |]; simpl; try done.
  intros [= <- <-]. right. exists (q_lat, q_lon). simpl.
  set (new_id := pre +:+ "_" +:+ pretty (length (nodos g))).
  set (e1 := (u, new_id, Qmax (_haversine_km cu (q_lat, q_lon)) 0.01)).
  set (e2 := (new_id, v, Qmax (_haversine_km (q_lat, q_lon) cv) 0.01)).
  set (e3 := (v, new_id, Qmax (_haversine_km (q_lat, q_lon) cv) 0.01)).
  set (e4 := (new_id, u, Qmax (_haversine_km cu (q_lat, q_lon)) 0.01)).
  assert (piso e1 ∧ piso e2 ∧ piso e3 ∧ piso e4) as (P1 & P2 & P3 & P4)
    by (repeat split; apply Q.le_max_r).
  destruct (bool_decide ((u, v) ∈ dir_set (aristas g)));
    destruct (bool_decide ((v, u) ∈ dir_set (aristas g))).
  - exists [e1; e2; e3; e4]. rewrite <- app_assoc. simpl.
    repeat split; auto 10 using Forall_cons, Forall_nil.
  - exists [e1; e2]. simpl.
    repeat split; auto 10 using Forall_cons, Forall_nil; lia.
  - exists [e3; e4]. simpl.
    repeat split; auto 10 using Forall_cons, Forall_nil; lia.
  - exists []. rewrite app_nil_r. simpl.
    repeat split; auto using Forall_nil; lia.
Qed.

Lemma split_piso g p pre g' r :
  Forall piso (aristas g) →
  _split_edge_and_connect_point g p pre = Ok (g', r) →
  Forall piso (aristas g') ∧ (∀ id d, r = Some (id, d) → 0.01 <= d).
Proof.
  intros Hg [[-> ->]|(q & nuevas & -> & _ & -> & _ & Hn)]%split_spec.
  - split; [done|]. by intros.
  - split; [apply Forall_app; auto|].
    intros id d [= _ <-]. apply Q.le_max_r.
Qed.

Lemma integrar_servicio_piso g s g' :
  Forall piso (aristas g) → integrar_servicio g s = Ok g' → Forall piso (aristas g').
Proof.
  intros Hg. unfold integrar_servicio.
  destruct (_split_edge_and_connect_point _ _ _) as [[g2 r]| |] eqn:E; simpl; try done.
  apply split_piso in E as [Hg2 Hr]; [|done].
  destruct r as [[new_node d_conn]|]; [|by intros [= <-]].
  destruct (bool_decide _); intros [= <-]; [|done].
  simpl. apply Forall_app. split; [done|].
  specialize (Hr _ _ eq_refl). repeat constructor; exact Hr.
Qed.

Lemma integrar_referencia_piso g ref g' :
  Forall piso (aristas g) → integrar_referencia g ref = Ok g' → Forall piso (aristas g').
Proof.
  intros Hg. unfold integrar_referencia. destruct ref as [nom coords].
  destruct (_split_edge_and_connect_point _ _ _) as [[g2 r]| |] eqn:E; simpl; try done.
  apply split_piso in E as [Hg2 Hr]; [|done].
  destruct r as [[new_node d_conn]|]; [|by intros [= <-]].
  destruct (_ && _); intros [= <-]; [|done].
  simpl. apply Forall_app. split; [done|].
  specialize (Hr _ _ eq_refl).
  assert (0.01 <= Qmin d_conn 0.5) by (apply Q.min_glb; [done|lra]).
  repeat constructor; done.
Qed.

End Marco.

(** ** Graphs the program builds *)

Section Alcanzable.
Context `{Libm}.
Local Open Scope Q_scope.

(** Every snap id in the node table is numbered below the table's size, so
    the next id [snap_<len(nodos)>] is new. *)
Definition snap_ok (nds : dict Coord) : Prop :=
  ∀ j : nat, "snap_" +:+ pretty j ∈ dict_keys nds → (j < length nds)%nat.

Definition no_snap (k : string) : Prop := ∀ j : nat, k ≠ "snap_" +:+ pretty j.

Lemma no_snap_node s : no_snap ("node_" +:+ s).
Proof. intros j. simpl. discriminate. Qed.

Lemma no_snap_servicio s : no_snap ("servicio_" +:+ s).
Proof. intros j. simpl. discriminate. Qed.

Lemma no_snap_ref s : no_snap ("ref_" +:+ s).
Proof. intros j. simpl. discriminate. Qed.

Lemma snap_ok_set_other k c nds :
  no_snap k → snap_ok nds → snap_ok (dict_set k c nds).
Proof.
  intros Hk Hok j Hj.
  pose proof (dict_set_length k c nds).
  destruct (dict_keys_set k c nds) as [E|[_ E]]; rewrite E in Hj.
  - apply Hok in Hj. lia.
  - apply elem_of_app in Hj as [Hj|Hj%list_elem_of_singleton].
    + apply Hok in Hj. lia.
    + by destruct (Hk j).
Qed.

Lemma snap_fresh nds :
  snap_ok nds → dict_get ("snap_" +:+ pretty (length nds)) nds = None.
Proof.
  intros Hok. apply dict_get_None_keys. intros Hin%Hok. lia.
Qed.

Lemma snap_ok_set_snap c nds :
  snap_ok nds → snap_ok (dict_set ("snap_" +:+ pretty (length nds)) c nds).
Proof.
  intros Hok j Hj. rewrite dict_set_fresh in * by by apply snap_fresh.
  unfold dict_keys in Hj. rewrite fmap_app, length_app in *. simpl in *.
  apply elem_of_app in Hj as [Hj|Hj%list_elem_of_singleton].
  - apply Hok in Hj. lia.
  - injection Hj as Hj. apply pretty_nat_inj in Hj. lia.
Qed.

Lemma visitar_punto_snap_ok step len st ip :
  snap_ok (t_nodos st.1) → snap_ok (t_nodos (visitar_punto step len st ip).1).
Proof.
  destruct st as [t wn], ip as [idx punto]. simpl. intros Hok.
  destruct (saltar step len idx); [done|].
  destruct (t_coord_to_id t !! coord_key punto); [done|]. simpl.
  apply snap_ok_set_other; [apply no_snap_node|done].
Qed.

Lemma crear_nodos_snap_ok step geometry t :
  snap_ok (t_nodos t) → snap_ok (t_nodos (crear_nodos step geometry t).1).
Proof.
  unfold crear_nodos. generalize (@nil string) as wn.
  generalize (length geometry) as len.
  generalize (enumerate geometry) as l. intros l. revert t.
  induction l as [|ip l IH]; intros t len wn Hok; cbn [fold_left]; [done|].
  destruct (visitar_punto step len (t, wn) ip) as [t1 wn1] eqn:E.
  apply IH. change t1 with (t1, wn1).1. rewrite <- E.
  by apply visitar_punto_snap_ok.
Qed.

Lemma procesar_red_osm_snap_ok elements g :
  procesar_red_osm elements = Ok g → snap_ok (nodos g).
Proof.
  unfold procesar_red_osm.
  destruct (foldM _ _ _) as [[t ars]| |] eqn:E; simpl; try done.
  intros [= <-]. simpl. change t with (t, ars).1.
  eapply (foldM_inv (λ st : Tablas * list Arista, snap_ok (t_nodos st.1)));
    [| |exact E].
  - intros [t0 ars0] el [t1 ars1]. simpl. intros Hok.
    unfold procesar_elemento. destruct (negb (es_way el)); [intros ?; by simplify_eq|].
    pose proof (crear_nodos_snap_ok (downsample_step elements)
                  (default [] (el_geometry el)) t0 Hok) as Hc.
    destruct (crear_nodos _ _ t0) as [t' wn].
    destruct (foldM (emitir_arista _ _) _ _); simpl; try done.
    intros ?. by simplify_eq.
  - simpl. intros j Hj. by apply elem_of_nil in Hj.
Qed.

(** With the integrator's prefix the snapper appends: the node table either
    stays or gets the new snap node at its end. *)
Lemma split_snap_spec g p g' r :
  snap_ok (nodos g) →
  _split_edge_and_connect_point g p "snap" = Ok (g', r) →
  snap_ok (nodos g') ∧
  ∃ nuevos nuevas,
    nodos g' = nodos g ++ nuevos ∧ (length nuevos ≤ 1)%nat ∧
    aristas g' = aristas g ++ nuevas ∧ (length nuevas ≤ 4)%nat.
Proof.
  intros Hok [[-> ->]|(q & nuevas & -> & Hn & Ha & Hl & _)]%split_spec.
  - split; [done|]. exists [], []. rewrite !app_nil_r. simpl. repeat split; lia.
  - change ("snap" +:+ "_" +:+ pretty (length (nodos g)))
      with ("snap_" +:+ pretty (length (nodos g))) in Hn.
    split; [rewrite Hn; by apply snap_ok_set_snap|].
    rewrite dict_set_fresh in Hn by by apply snap_fresh.
    eexists [_], nuevas. simpl. repeat split; [done|lia|done|done].
Qed.

Lemma integrar_servicio_snap_ok g s g' :
  snap_ok (nodos g) → integrar_servicio g s = Ok g' → snap_ok (nodos g').
Proof.
  intros Hg. unfold integrar_servicio.
  destruct (_split_edge_and_connect_point _ _ _) as [[g2 r]| |] eqn:E; simpl; try done.
  apply split_snap_spec in E as [Hg2 _].
  2:{ simpl. apply snap_ok_set_other; [apply no_snap_servicio|done]. }
  destruct r as [[new_node d_conn]|]; [|by intros [= <-]].
  destruct (bool_decide _); by intros [= <-].
Qed.

Lemma integrar_referencia_snap_ok g ref g' :
  snap_ok (nodos g) → integrar_referencia g ref = Ok g' → snap_ok (nodos g').
Proof.
  intros Hg. unfold integrar_referencia. destruct ref as [nom coords].
  destruct (_split_edge_and_connect_point _ _ _) as [[g2 r]| |] eqn:E; simpl; try done.
  apply split_snap_spec in E as [Hg2 _].
  2:{ simpl. apply snap_ok_set_other; [apply no_snap_ref|done]. }
  destruct r as [[new_node d_conn]|]; [|by intros [= <-]].
  destruct (_ && _); by intros [= <-].
Qed.

Lemma alcanzable_snap_ok g : alcanzable g → snap_ok (nodos g).
Proof.
  induction 1 as [els g Hp|g s _ IH|g nom c _ IH|g p g' r _ IH Hs
                 |g s g' _ IH Hs|g ref g' _ IH Hs].
  - by eapply procesar_red_osm_snap_ok.
  - simpl. apply snap_ok_set_other; [apply no_snap_servicio|done].
  - simpl. apply snap_ok_set_other; [apply no_snap_ref|done].
  - by apply (split_snap_spec _ _ _ _ IH Hs).
  - by eapply integrar_servicio_snap_ok.
  - by eapply integrar_referencia_snap_ok.
Qed.

Lemma alcanzable_piso g : alcanzable g → Forall piso (aristas g).
Proof.
  induction 1 as [els g Hp|g s _ IH|g nom c _ IH|g p g' r _ IH Hs
                 |g s g' _ IH Hs|g ref g' _ IH Hs].
  - by eapply procesar_red_osm_piso.
  - done.
  - done.
  - by apply (split_piso _ _ _ _ _ IH Hs).
  - by eapply integrar_servicio_piso.
  - by eapply integrar_referencia_piso.
Qed.

Lemma integrar_alcanzable servicios referencias g g' :
  alcanzable g →
  _integrar_servicios_en_red servicios referencias (Some g) = Ok (Some g') →
  alcanzable g'.
Proof.
  intros Hg. unfold _integrar_servicios_en_red.
  destruct (foldM _ servicios g) as [g1| |] eqn:E1; simpl; try done.
  destruct (foldM _ referencias g1) as [g2| |] eqn:E2; simpl; try done.
  intros [= <-].
  eapply (foldM_inv alcanzable); [| |exact E2].
  { intros b x b' Hb Hx. by eapply alc_referencia. }
  eapply (foldM_inv alcanzable); [|exact Hg|exact E1].
  intros b ks b' Hb Hks.
  eapply (foldM_inv alcanzable); [|exact Hb|exact Hks].
  intros b0 x b0' Hb0 Hx. by eapply alc_servicio.
Qed.

Lemma cargar_red_vial_alcanzable servicios referencias elements g :
  cargar_red_vial servicios referencias elements = Ok (Some g) → alcanzable g.
Proof.
  unfold cargar_red_vial.
  destruct (procesar_red_osm elements) as [g0| |] eqn:E; simpl; try done.
  apply integrar_alcanzable. by eapply alc_procesar.
Qed.

End Alcanzable.

(** ** The load never raises *)

(** Every edge joins two nodes of the node table. *)
Definition cerrado (nds : dict Coord) (ars : list Arista) : Prop :=
  ∀ u v x, (u, v, x) ∈ ars → u ∈ dict_keys nds ∧ v ∈ dict_keys nds.

Lemma dict_keys_set_in {V} k (v : V) d : k ∈ dict_keys (dict_set k v d).
Proof.
  unfold dict_keys. induction d as [|[k' v'] d IH]; simpl.
  - by left.
  - destruct (decide (k = k')) as [->|Hne]; [by left|]. by right.
Qed.

Lemma dict_keys_set_mono {V} k k' (v : V) d :
  k' ∈ dict_keys d → k' ∈ dict_keys (dict_set k v d).
Proof.
  destruct (dict_keys_set k v d) as [->|[_ ->]]; [done|].
  intros Hk. apply elem_of_app. by left.
Qed.

Lemma dict_item_in {V} k (d : dict V) :
  k ∈ dict_keys d → ∃ c, dict_item k d = Ok c.
Proof.
  intros Hk. unfold dict_item. destruct (dict_get k d) as [c|] eqn:E; [by exists c|].
  by apply dict_get_None_keys in E.
Qed.

Lemma cerrado_mono nds nds' ars :
  (∀ k, k ∈ dict_keys nds → k ∈ dict_keys nds') →
  cerrado nds ars → cerrado nds' ars.
Proof. intros Hm Hc u v x Hin. destruct (Hc u v x Hin). auto. Qed.

Lemma cerrado_app nds ars nuevas :
  cerrado nds ars → cerrado nds nuevas → cerrado nds (ars ++ nuevas).
Proof.
  intros H1 H2 u v x [Hin|Hin]%elem_of_app; [by eapply H1|by eapply H2].
Qed.

Lemma elem_of_tail {A} (x : A) l : x ∈ tail l → x ∈ l.
Proof. destruct l; simpl; [done|]. intros Hx. by right. Qed.

Lemma foldM_total {A B} (P : B → Prop) (f : B → A → res B) l :
  (∀ b x, x ∈ l → P b → ∃ b', f b x = Ok b' ∧ P b') →
  ∀ b, P b → ∃ b', foldM f l b = Ok b' ∧ P b'.
Proof.
  induction l as [|x l IH]; intros Hf b Hb; simpl.
  - by exists b.
  - destruct (Hf b x) as (b1 & -> & Hb1); [by left|done|]. simpl.
    apply IH; [|done]. intros b0 y Hy. apply Hf. by right.
Qed.

Section Cerrado.
Context `{Libm}.
Local Open Scope Q_scope.

(** Every id the coordinate table hands out is a node. *)
Definition tablas_ok (t : Tablas) : Prop :=
  ∀ key id, t_coord_to_id t !! key = Some id → id ∈ dict_keys (t_nodos t).

Definition nodos_ok (st : Tablas * list string) : Prop :=
  tablas_ok st.1 ∧ Forall (λ id, id ∈ dict_keys (t_nodos st.1)) st.2.

Lemma visitar_punto_ok step len st ip :
  nodos_ok st →
  nodos_ok (visitar_punto step len st ip) ∧
  ∀ k, k ∈ dict_keys (t_nodos st.1) →
       k ∈ dict_keys (t_nodos (visitar_punto step len st ip).1).
Proof.
  destruct st as [t wn], ip as [idx punto]. intros [Ht Hwn]. simpl in *.
  destruct (saltar step len idx); [by split|].
  destruct (t_coord_to_id t !! coord_key punto) as [id|] eqn:E; simpl.
  - split; [|done]. split; [done|]. simpl. apply Forall_app. split; [done|].
    repeat constructor. by eapply Ht.
  - split; [|intros k; apply dict_keys_set_mono].
    split; simpl.
    + intros key id. simpl.
      destruct (decide (coord_key punto = key)) as [<-|Hne].
      * rewrite lookup_insert_eq. intros [= <-]. apply dict_keys_set_in.
      * rewrite lookup_insert_ne by done. intros Hk%Ht.
        by apply dict_keys_set_mono.
    + apply Forall_app. split.
      * eapply Forall_impl; [exact Hwn|]. intros k. apply dict_keys_set_mono.
      * repeat constructor. apply dict_keys_set_in.
Qed.

Lemma crear_nodos_ok step geometry t :
  tablas_ok t →
  nodos_ok (crear_nodos step geometry t) ∧
  ∀ k, k ∈ dict_keys (t_nodos t) →
       k ∈ dict_keys (t_nodos (crear_nodos step geometry t).1).
Proof.
  intros Ht. unfold crear_nodos.
  assert (Hst : nodos_ok (t, @nil string)) by (split; [done|constructor]).
  revert Hst. generalize (@nil string) as wn.
  generalize (length geometry) as len. generalize (enumerate geometry) as l.
  clear Ht. intros l. revert t. induction l as [|ip l IH]; intros t len wn Hst.
  - by split.
  - cbn [fold_left].
    destruct (visitar_punto_ok step len (t, wn) ip Hst) as [Hst' Hm].
    destruct (visitar_punto step len (t, wn) ip) as [t1 wn1].
    destruct (IH t1 len wn1 Hst') as [Hr Hm']. split; [done|].
    intros k Hk. apply Hm'. by apply Hm.
Qed.

Lemma emitir_arista_total mode nds ars p :
  p.1 ∈ dict_keys nds → p.2 ∈ dict_keys nds → cerrado nds ars →
  ∃ ars', emitir_arista mode nds ars p = Ok ars' ∧ cerrado nds ars'.
Proof.
  destruct p as [n1 n2]. simpl. intros H1 H2 Hc. unfold emitir_arista.
  destruct (decide (n1 = n2)); [by exists ars|].
  destruct (dict_item_in n1 nds H1) as [c1 ->].
  destruct (dict_item_in n2 nds H2) as [c2 ->]. simpl.
  eexists. split; [done|].
  assert (Hn : ∀ d, cerrado nds [(n1, n2, d)] ∧ cerrado nds [(n2, n1, d)]).
  { intros d. split; intros u v x Hin%list_elem_of_singleton; by simplify_eq. }
  destruct mode; repeat apply cerrado_app; try done; apply Hn.
Qed.

Lemma procesar_elemento_total step st el :
  tablas_ok st.1 → cerrado (t_nodos st.1) st.2 →
  ∃ st', procesar_elemento step st el = Ok st' ∧
         tablas_ok st'.1 ∧ cerrado (t_nodos st'.1) st'.2.
Proof.
  destruct st as [t ars]. simpl. intros Ht Hc. unfold procesar_elemento.
  destruct (negb (es_way el)); [by exists (t, ars)|].
  destruct (crear_nodos_ok step (default [] (el_geometry el)) t Ht)
    as [[Ht' Hwn] Hm].
  destruct (crear_nodos step (default [] (el_geometry el)) t) as [t' wn].
  simpl in *.
  destruct (foldM_total (cerrado (t_nodos t'))
              (emitir_arista (dir_mode el) (t_nodos t')) (consecutivos wn))
    with (b := ars) as (ars' & -> & Hc').
  - intros b [n1 n2] Hp Hb. rewrite Forall_forall in Hwn.
    apply emitir_arista_total; [| |done]; simpl; apply Hwn.
    + by eapply elem_of_zip_l.
    + apply elem_of_tail. by eapply elem_of_zip_r.
  - by eapply cerrado_mono.
  - simpl. by exists (t', ars').
Qed.

Lemma procesar_red_osm_total elements :
  ∃ g, procesar_red_osm elements = Ok g ∧ cerrado (nodos g) (aristas g).
Proof.
  unfold procesar_red_osm.
  destruct (foldM_total
              (λ st : Tablas * list Arista,
                 tablas_ok st.1 ∧ cerrado (t_nodos st.1) st.2)
              (procesar_elemento (downsample_step elements)) elements)
    with (b := ({| t_nodos := []; t_coord_to_id := ∅; t_counter := 0 |},
                @nil Arista)) as ([t ars] & -> & Ht & Hc).
  - intros b el _ [Hb1 Hb2]. by apply procesar_elemento_total.
  - split.
    + intros key id. simpl. by rewrite lookup_empty.
    + intros u v x Hin. by apply elem_of_nil in Hin.
  - simpl. by eexists.
Qed.

Lemma proyectar_arista_total p nds px py best e :
  e.1.1 ∈ dict_keys nds → e.1.2 ∈ dict_keys nds →
  ∃ best', proyectar_arista p nds px py best e = Ok best' ∧
    (best' = best ∨
     ∃ t q_lat q_lon d, best' = Some (e.1.1, e.1.2, t, q_lat, q_lon, d)).
Proof.
  destruct e as [[u v] x]. simpl. intros Hu Hv. unfold proyectar_arista.
  destruct (dict_item_in u nds Hu) as [[a_lat a_lon] ->].
  destruct (dict_item_in v nds Hv) as [[b_lat b_lon] ->].
  unfold mbind, res_bind, _latlon_to_xy, _xy_to_latlon. cbv beta iota zeta.
  destruct (Qle_bool _ _); cbv beta iota zeta;
    match goal with |- context [if ?c then Ok (Some _) else _] =>
      destruct c end;
    eexists; (split; [done|]); eauto 10.
Qed.

Lemma proyectar_arista_Some p nds px py best e best' :
  proyectar_arista p nds px py best e = Ok best' → is_Some best'.
Proof.
  destruct e as [[u v] x]. unfold proyectar_arista.
  destruct (dict_item u nds) as [[a_lat a_lon]| |]; [|done..].
  destruct (dict_item v nds) as [[b_lat b_lon]| |]; [|done..].
  unfold mbind, res_bind, _latlon_to_xy, _xy_to_latlon. cbv beta iota zeta.
  destruct best as [[[[[[u0 v0] t0] a0] b0] d0]|];
    destruct (Qle_bool _ _); simpl;
    repeat match goal with |- context [if ?c then Ok (Some _) else _] =>
      destruct c end;
    intros [= <-]; by eexists.
Qed.

(** On a graph with edges the projection loop returns a projection: the
    initial tuple does not survive the first edge. *)
Lemma nearest_edge_projection_Some g p r :
  aristas g ≠ [] → _nearest_edge_projection (Some g) p = Ok r → is_Some r.
Proof.
  intros Hne. unfold _nearest_edge_projection.
  destruct (aristas g) as [|e ars]; [done|]. simpl.
  destruct (proyectar_arista _ _ _ _ None e) as [b| |] eqn:E; simpl; try done.
  apply proyectar_arista_Some in E. revert E.
  apply (foldM_inv (λ b : option Proyeccion, is_Some b)).
  intros b0 x b' _. apply proyectar_arista_Some.
Qed.

Lemma nearest_total g p :
  cerrado (nodos g) (aristas g) →
  ∃ r, _nearest_edge_projection (Some g) p = Ok r ∧
       ∀ u v t q_lat q_lon d, r = Some (u, v, t, q_lat, q_lon, d) →
         u ∈ dict_keys (nodos g) ∧ v ∈ dict_keys (nodos g).
Proof.
  intros Hc. unfold _nearest_edge_projection.
  destruct (aristas g) as [|e0 ars0] eqn:Ea; [by exists None|].
  rewrite <- Ea. rewrite <- Ea in Hc. simpl.
  apply (foldM_total
           (λ r : option Proyeccion,
              ∀ u v t q_lat q_lon d, r = Some (u, v, t, q_lat, q_lon, d) →
                u ∈ dict_keys (nodos g) ∧ v ∈ dict_keys (nodos g))); [|done].
  intros b [[u v] x] Hin Hb. destruct (Hc u v x Hin) as [Hu Hv].
  destruct (proyectar_arista_total p (nodos g)
              (m_radians p.2 * 6371 * m_cos (m_radians p.1))
              (m_radians p.1 * 6371) b (u, v, x) Hu Hv)
    as (b' & Hb' & [->|(t & ql & qo & d & ->)]).
  - exists b. done.
  - eexists. split; [exact Hb'|]. intros ? ? ? ? ? ? [= <- <- _ _ _ _]. done.
Qed.

Lemma split_total g p pre :
  cerrado (nodos g) (aristas g) →
  ∃ g' r, _split_edge_and_connect_point g p pre = Ok (g', r) ∧
          cerrado (nodos g') (aristas g') ∧
          (∀ k, k ∈ dict_keys (nodos g) → k ∈ dict_keys (nodos g')) ∧
          (∀ id d, r = Some (id, d) → id ∈ dict_keys (nodos g')).
Proof.
  intros Hc. unfold _split_edge_and_connect_point.
  destruct (nearest_total g p Hc) as (r & -> & Hr). simpl.
  destruct r as [[[[[[u v] t] q_lat] q_lon] d]|].
  2:{ exists g, None. split; [done|]. split; [done|]. split; [done|].
      by intros id d0 [=]. }
  destruct (Hr _ _ _ _ _ _ eq_refl) as [Hu Hv].
  set (new_id := pre +:+ "_" +:+ pretty (length (nodos g))).
  set (nds := dict_set new_id (q_lat, q_lon) (nodos g)).
  assert (Hm : ∀ k, k ∈ dict_keys (nodos g) → k ∈ dict_keys nds)
    by (intros k; apply dict_keys_set_mono).
  assert (Hnew : new_id ∈ dict_keys nds) by apply dict_keys_set_in.
  destruct (dict_item_in u nds (Hm u Hu)) as [cu ->].
  destruct (dict_item_in v nds (Hm v Hv)) as [cv ->]. simpl.
  eexists _, _. split; [done|]. simpl. split; [|split; [done|]].
  - assert (Hc' : cerrado nds (aristas g)) by by eapply cerrado_mono.
    assert (H2 : ∀ a b c d0 x y, a ∈ dict_keys nds → b ∈ dict_keys nds →
               c ∈ dict_keys nds → d0 ∈ dict_keys nds →
               cerrado nds [(a, b, x); (c, d0, y)]).
    { intros a b c d0 x y Ha Hb Hc0 Hd u0 v0 x0
        [Hin|Hin%list_elem_of_singleton]%elem_of_cons; by simplify_eq. }
    destruct (bool_decide _); destruct (bool_decide _);
      repeat apply cerrado_app; auto.
  - intros id d0 [= <- _]. done.
Qed.

Lemma integrar_servicio_total g s :
  cerrado (nodos g) (aristas g) →
  ∃ g', integrar_servicio g s = Ok g' ∧ cerrado (nodos g') (aristas g').
Proof.
  intros Hc. unfold integrar_servicio.
  set (node_id := "servicio_" +:+ replace_space (nombre s)).
  destruct (split_total (con_nodo node_id (coordenadas s) g) (coordenadas s) "snap")
    as (g2 & r & -> & Hc2 & Hm & Hr).
  { simpl. eapply cerrado_mono; [|exact Hc]. intros k. apply dict_keys_set_mono. }
  simpl. destruct r as [[new_node d_conn]|]; [|by exists g2].
  destruct (bool_decide _); [|by exists g2].
  eexists. split; [done|]. simpl. apply cerrado_app; [done|].
  assert (node_id ∈ dict_keys (nodos g2)) by (apply Hm; apply dict_keys_set_in).
  assert (new_node ∈ dict_keys (nodos g2)) by by eapply Hr.
  intros u v x [Hin|Hin%list_elem_of_singleton]%elem_of_cons; by simplify_eq.
Qed.

Lemma integrar_referencia_total g ref :
  cerrado (nodos g) (aristas g) →
  ∃ g', integrar_referencia g ref = Ok g' ∧ cerrado (nodos g') (aristas g').
Proof.
  intros Hc. unfold integrar_referencia. destruct ref as [nom coords].
  set (node_id := "ref_" +:+ replace_space nom).
  destruct (split_total (con_nodo node_id coords g) coords "snap")
    as (g2 & r & -> & Hc2 & Hm & Hr).
  { simpl. eapply cerrado_mono; [|exact Hc]. intros k. apply dict_keys_set_mono. }
  simpl. destruct r as [[new_node d_conn]|]; [|by exists g2].
  destruct (_ && _); [|by exists g2].
  eexists. split; [done|]. simpl. apply cerrado_app; [done|].
  assert (node_id ∈ dict_keys (nodos g2)) by (apply Hm; apply dict_keys_set_in).
  assert (new_node ∈ dict_keys (nodos g2)) by by eapply Hr.
  intros u v x [Hin|Hin%list_elem_of_singleton]%elem_of_cons; by simplify_eq.
Qed.

Lemma alcanzable_cerrado g : alcanzable g → cerrado (nodos g) (aristas g).
Proof.
  induction 1 as [els g Hp|g s _ IH|g nom c _ IH|g p g' r _ IH Hs
                 |g s g' _ IH Hs|g ref g' _ IH Hs].
  - destruct (procesar_red_osm_total els) as (g0 & E & Hc).
    rewrite Hp in E. by simplify_eq.
  - simpl. eapply cerrado_mono; [|exact IH]. intros k. apply dict_keys_set_mono.
  - simpl. eapply cerrado_mono; [|exact IH]. intros k. apply dict_keys_set_mono.
  - destruct (split_total g p "snap" IH) as (g0 & r0 & E & Hc & _).
    rewrite Hs in E. by simplify_eq.
  - destruct (integrar_servicio_total g s IH) as (g0 & E & Hc).
    rewrite Hs in E. by simplify_eq.
  - destruct (integrar_referencia_total g ref IH) as (g0 & E & Hc).
    rewrite Hs in E. by simplify_eq.
Qed.

(** Building and integrating return a graph for every input: no lookup of
    the builder, the snapper or the integrator raises [KeyError]. *)
Lemma cargar_red_vial_total servicios referencias elements :
  ∃ g, cargar_red_vial servicios referencias elements = Ok (Some g) ∧
       alcanzable g.
Proof.
  unfold cargar_red_vial.
  destruct (procesar_red_osm_total elements) as (g0 & E0 & _).
  pose proof (alc_procesar elements g0 E0) as Hg0. rewrite E0. simpl.
  destruct (foldM_total alcanzable
              (λ g ks, foldM integrar_servicio ks.2 g) servicios)
    with (b := g0) as (g1 & -> & Hg1); [|done|].
  { intros b ks _ Hb. apply (foldM_total alcanzable); [|done].
    intros b0 s _ Hb0.
    destruct (integrar_servicio_total b0 s (alcanzable_cerrado b0 Hb0))
      as (b1 & E & _).
    exists b1. split; [done|]. by eapply alc_servicio. }
  simpl.
  destruct (foldM_total alcanzable integrar_referencia referencias)
    with (b := g1) as (g2 & -> & Hg2); [|done|].
  { intros b ref _ Hb.
    destruct (integrar_referencia_total b ref (alcanzable_cerrado b Hb))
      as (b1 & E & _).
    exists b1. split; [done|]. by eapply alc_referencia. }
  simpl. by exists g2.
Qed.

End Cerrado.

(** ** Claims on the graph builder and the integrator *)

Lemma dict_get_app_l {V} k (d d' : dict V) c :
  dict_get k d = Some c → dict_get k (d ++ d') = Some c.
Proof.
  induction d as [|[k0 v0] d IH]; simpl; [done|].
  destruct (decide (k = k0)); [done|apply IH].
Qed.

Section Integrador.
Context `{Libm}.
Local Open Scope Q_scope.

(** C5. Every graph the program builds has all its edge weights at least
    0.01 km; from such a graph, an edge split (under any id prefix), a
    service connection and a reference connection again give a graph whose
    edges all weigh at least 0.01 km. *)
Theorem edge_weight_floor (g : Grafo) :
  alcanzable g →
  Forall piso (aristas g) ∧
  (∀ p pre g' r, _split_edge_and_connect_point g p pre = Ok (g', r) →
                 Forall piso (aristas g')) ∧
  (∀ s g', integrar_servicio g s = Ok g' → Forall piso (aristas g')) ∧
  (∀ ref g', integrar_referencia g ref = Ok g' → Forall piso (aristas g')).
Proof.
  intros Hg%alcanzable_piso. split; [done|]. split; [|split].
  - intros p pre g' r Hs. by apply (split_piso _ _ _ _ _ Hg Hs).
  - intros s g'. by apply integrar_servicio_piso.
  - intros ref g'. by apply integrar_referencia_piso.
Qed.

(** C9. On every graph the program builds, a call of the snapper (with the
    prefix the integrator passes) returns without raising and leaves the node
    table and the edge list as prefixes of the new ones: it appends at most
    one node and at most four edges, so every node keeps its coordinates and
    every edge stays, with its weight. *)
Theorem split_edge_frame (g : Grafo) (p : Coord) :
  alcanzable g →
  ∃ g' r,
    _split_edge_and_connect_point g p "snap" = Ok (g', r) ∧
    (∃ nuevos nuevas,
       nodos g' = nodos g ++ nuevos ∧ (length nuevos ≤ 1)%nat ∧
       aristas g' = aristas g ++ nuevas ∧ (length nuevas ≤ 4)%nat) ∧
    (∀ k c, dict_get k (nodos g) = Some c → dict_get k (nodos g') = Some c) ∧
    (∀ e, e ∈ aristas g → e ∈ aristas g').
Proof.
  intros Hg.
  destruct (split_total g p "snap" (alcanzable_cerrado g Hg))
    as (g' & r & Hs & _).
  exists g', r. split; [exact Hs|].
  apply alcanzable_snap_ok in Hg.
  destruct (split_snap_spec _ _ _ _ Hg Hs) as [_ (nuevos & nuevas & En & Hn & Ea & Ha)].
  split; [by exists nuevos, nuevas|]. split.
  - intros k c Hk. rewrite En. by apply dict_get_app_l.
  - intros e He. rewrite Ea. apply elem_of_app. by left.
Qed.

(** C7. When the snapper returns a snap node for a reference location, the
    integrator returns a graph with the node table the snapper left and with
    the edge list the snapper left followed by exactly two new edges, from
    the reference node to the snap node and back, both weighing
    [min(d_conn, 0.5)], which is at most 0.5 km; for a service the two new
    edges weigh [d_conn] itself. *)
Theorem reference_edges_capped :
  (∀ g nom coords g2 new_node d_conn,
     _split_edge_and_connect_point
       (con_nodo ("ref_" +:+ replace_space nom) coords g) coords "snap"
       = Ok (g2, Some (new_node, d_conn)) →
     ∃ g',
       integrar_referencia g (nom, coords) = Ok g' ∧
       nodos g' = nodos g2 ∧
       aristas g' =
         aristas g2 ++
         [("ref_" +:+ replace_space nom, new_node, Qmin d_conn 0.5);
          (new_node, "ref_" +:+ replace_space nom, Qmin d_conn 0.5)] ∧
       Qmin d_conn 0.5 <= 0.5) ∧
  (∀ g s g2 new_node d_conn,
     _split_edge_and_connect_point
       (con_nodo ("servicio_" +:+ replace_space (nombre s)) (coordenadas s) g)
       (coordenadas s) "snap"
       = Ok (g2, Some (new_node, d_conn)) →
     ∃ g',
       integrar_servicio g s = Ok g' ∧
       nodos g' = nodos g2 ∧
       aristas g' =
         aristas g2 ++
         [("servicio_" +:+ replace_space (nombre s), new_node, d_conn);
          (new_node, "servicio_" +:+ replace_space (nombre s), d_conn)]).
Proof.
  split.
  - intros g nom coords g2 new_node d_conn Hs.
    unfold integrar_referencia. rewrite Hs. simpl.
    apply split_spec in Hs as [[? _]|(q & nuevas & [= -> _] & _)]; [done|].
    rewrite !bool_decide_eq_true_2; [|simpl; discriminate..]. simpl.
    eexists. split; [reflexivity|]. split; [done|]. split; [done|].
    apply Q.le_min_r.
  - intros g s g2 new_node d_conn Hs.
    unfold integrar_servicio. rewrite Hs. simpl.
    apply split_spec in Hs as [[? _]|(q & nuevas & [= -> _] & _)]; [done|].
    rewrite bool_decide_eq_true_2; [|simpl; discriminate].
    eexists. split; [reflexivity|]. by split.
Qed.

End Integrador.

(** ** The builder and integrator claims on the example ways *)

Lemma grafo_ejemplo_alcanzable : alcanzable (H := libm_ejemplo) grafo_ejemplo.
Proof. apply (alc_procesar elementos_ejemplo). by vm_compute. Qed.

Lemma downsampling_keeps_endpoints_witness :
  2 ≤ length (puntos_conservados 3 [(0, 0); (0, 1); (0, 2); (0, 3); (0, 4)]%Q) ∧
  last (puntos_conservados 3 [(0, 0); (0, 1); (0, 2); (0, 3); (0, 4)]%Q).*2
    = Some (0, 4)%Q.
Proof.
  pose proof (downsampling_keeps_endpoints (H := libm_ejemplo) 3
                [(0, 0); (0, 1); (0, 2); (0, 3); (0, 4)]%Q
                {| t_nodos := []; t_coord_to_id := ∅; t_counter := 0 |}
                ltac:(simpl; lia)) as (H1 & H2 & _).
  split; [exact H1|exact H2].
Defined.

Lemma edge_weight_floor_witness : Forall piso (aristas grafo_ejemplo).
Proof.
  exact (proj1 (edge_weight_floor (H := libm_ejemplo) grafo_ejemplo
                  grafo_ejemplo_alcanzable)).
Defined.

Lemma split_edge_frame_witness :
  ∃ g' r,
    _split_edge_and_connect_point (H := libm_ejemplo) grafo_ejemplo (1 # 2, 1 # 2) "snap"
      = Ok (g', r) ∧
    ∀ e, e ∈ aristas grafo_ejemplo → e ∈ aristas g'.
Proof.
  destruct (split_edge_frame (H := libm_ejemplo) grafo_ejemplo (1 # 2, 1 # 2)
              grafo_ejemplo_alcanzable) as (g' & r & Hs & _ & _ & He).
  exists g', r. split; [exact Hs|exact He].
Defined.

(** ** Nearest road node *)

Section NodoCercano.
Context `{Libm}.
Local Open Scope Q_scope.

(** State of the scan after the items [l]: nothing scanned yet, or the best
    scanned node so far. *)
Definition scan_inv (coordenadas : Coord) (l : dict Coord)
    (st : ext * option string) : Prop :=
  (st = (Inf, None) ∧ ∀ k c, (k, c) ∈ l → es_catalogo k = true) ∨
  (∃ r c, st = (Fin (_haversine_km coordenadas c), Some r) ∧
          (r, c) ∈ l ∧ es_catalogo r = false ∧
          ∀ k' c', (k', c') ∈ l → es_catalogo k' = false →
                   _haversine_km coordenadas c <= _haversine_km coordenadas c').

Lemma examinar_nodo_inv coordenadas l st item :
  scan_inv coordenadas l st →
  scan_inv coordenadas (l ++ [item]) (examinar_nodo coordenadas st item).
Proof.
  destruct item as [k ck]. unfold examinar_nodo. fold (es_catalogo k).
  intros [[-> Hall]|(r & c & -> & Hin & Hr & Hmin)].
  - destruct (es_catalogo k) eqn:Ek.
    + left. split; [done|]. intros k' c' [?|Hx%list_elem_of_singleton]%elem_of_app;
        [by eapply Hall|]. by simplify_eq.
    + right. simpl. exists k, ck. split; [done|]. split; [|split; [done|]].
      * apply elem_of_app. right. by apply list_elem_of_singleton.
      * intros k' c' [Hx|Hx%list_elem_of_singleton]%elem_of_app Hk'.
        -- apply Hall in Hx. congruence.
        -- simplify_eq. apply Qle_refl.
  - destruct (es_catalogo k) eqn:Ek.
    + right. exists r, c. split; [done|]. split; [|split; [done|]].
      * apply elem_of_app. by left.
      * intros k' c' [Hx|Hx%list_elem_of_singleton]%elem_of_app Hk';
          [by eapply Hmin|]. simplify_eq. congruence.
    + simpl. destruct (Qltb _ _) eqn:Elt.
      * apply Qltb_lt in Elt. right. exists k, ck. split; [done|].
        split; [|split; [done|]].
        -- apply elem_of_app. right. by apply list_elem_of_singleton.
        -- intros k' c' [Hx|Hx%list_elem_of_singleton]%elem_of_app Hk'.
           ++ specialize (Hmin _ _ Hx Hk'). lra.
           ++ simplify_eq. apply Qle_refl.
      * apply Qltb_ge in Elt. right. exists r, c. split; [done|].
        split; [|split; [done|]].
        -- apply elem_of_app. by left.
        -- intros k' c' [Hx|Hx%list_elem_of_singleton]%elem_of_app Hk';
             [by eapply Hmin|]. by simplify_eq.
Qed.

Lemma examinar_nodo_fold coordenadas l0 l st :
  scan_inv coordenadas l0 st →
  scan_inv coordenadas (l0 ++ l) (fold_left (examinar_nodo coordenadas) l st).
Proof.
  revert l0 st. induction l as [|item l IH]; intros l0 st Hst; simpl.
  - by rewrite app_nil_r.
  - replace (l0 ++ item :: l) with ((l0 ++ [item]) ++ l)
      by (by rewrite <- app_assoc).
    apply IH. by apply examinar_nodo_inv.
Qed.

(** C1, as the code has it. The scan skips exactly the nodes whose id starts
    with [servicio_] or [ref_] (snap nodes are scanned like road nodes). It
    returns a scanned node at minimum haversine distance from the query, and
    returns none exactly when there is no node to scan (no graph, no nodes,
    or catalog nodes only). *)
Theorem nearest_node_scan (red_vial : option Grafo) (coordenadas : Coord) :
  match _encontrar_nodo_mas_cercano red_vial coordenadas with
  | Some r =>
      ∃ g c, red_vial = Some g ∧ (r, c) ∈ nodos g ∧ es_catalogo r = false ∧
             ∀ k' c', (k', c') ∈ nodos g → es_catalogo k' = false →
                      _haversine_km coordenadas c <= _haversine_km coordenadas c'
  | None =>
      ∀ g, red_vial = Some g → ∀ k c, (k, c) ∈ nodos g → es_catalogo k = true
  end.
Proof.
  unfold _encontrar_nodo_mas_cercano. destruct red_vial as [g|]; [|done].
  assert (Hinv : scan_inv coordenadas (nodos g)
            (fold_left (examinar_nodo coordenadas) (nodos g) (Inf, None))).
  { apply (examinar_nodo_fold coordenadas [] (nodos g)). left.
    split; [done|]. intros k c Hx. by apply elem_of_nil in Hx. }
  destruct (nodos g) as [|item l] eqn:En.
  - intros g' [= <-] k c Hx. rewrite En in Hx. by apply elem_of_nil in Hx.
  - destruct Hinv as [[-> Hall]|(r & c & -> & Hin & Hr & Hmin)]; simpl.
    + intros g' [= <-]. by rewrite En.
    + exists g, c. rewrite En. done.
Qed.

End NodoCercano.

(** * The all-pairs engine *)

(** ** Matrix reads and writes *)

Lemma mdim_lookup {A} n (M : list (list A)) i :
  mdim n M → i < n → ∃ r, M !! i = Some r ∧ length r = n.
Proof.
  intros [Hl Hr] Hi. destruct (lookup_lt_is_Some_2 M i) as [r Hri]; [lia|].
  exists r. split; [done|]. by eapply (Forall_lookup_1 _ _ _ _ Hr).
Qed.

Lemma mdim_mset {A} n (M : list (list A)) i j v : mdim n M → mdim n (mset M i j v).
Proof.
  intros [Hl Hr]. unfold mset. split; [by rewrite length_alter|].
  apply Forall_lookup_2. intros a r. rewrite list_lookup_alter.
  destruct (decide (i = a)) as [->|Hne].
  - destruct (M !! a) as [r0|] eqn:E; simpl; [|done]. intros [= <-].
    rewrite length_insert. by eapply (Forall_lookup_1 _ _ _ _ Hr).
  - intros Ha. by eapply (Forall_lookup_1 _ _ _ _ Hr).
Qed.

Lemma mget_mset_eq {A} n d (M : list (list A)) i j v :
  mdim n M → i < n → j < n → mget d (mset M i j v) i j = v.
Proof.
  intros HM Hi Hj. destruct (mdim_lookup n M i HM Hi) as (r & Hr & Hlr).
  unfold mget, mset. rewrite list_lookup_alter, decide_True by done.
  rewrite Hr. simpl. rewrite list_lookup_insert_eq by lia. done.
Qed.

Lemma mget_mset_ne {A} d (M : list (list A)) i j v a b :
  (a, b) ≠ (i, j) → mget d (mset M i j v) a b = mget d M a b.
Proof.
  intros Hne. unfold mget, mset. rewrite list_lookup_alter.
  destruct (decide (i = a)) as [->|Hia]; [|done].
  destruct (M !! a) as [r|]; simpl; [|done].
  rewrite list_lookup_insert_ne; [done|]. intros ->. by apply Hne.
Qed.

Lemma mitem_mget {A} n d (M : list (list A)) i j :
  mdim n M → i < n → j < n → mitem M i j = Ok (mget d M i j).
Proof.
  intros HM Hi Hj. destruct (mdim_lookup n M i HM Hi) as (r & Hr & Hlr).
  unfold mitem, mget. rewrite Hr. simpl.
  destruct (lookup_lt_is_Some_2 r j) as [x Hx]; [lia|]. by rewrite Hx.
Qed.

Lemma mdim_replicate {A} n (x : A) : mdim n (replicate n (replicate n x)).
Proof.
  split; [apply length_replicate|].
  apply Forall_replicate. apply length_replicate.
Qed.

Lemma mget_replicate {A} n d (x : A) i j :
  i < n → j < n → mget d (replicate n (replicate n x)) i j = x.
Proof.
  intros Hi Hj. unfold mget. rewrite lookup_replicate_2 by done. simpl.
  by rewrite lookup_replicate_2.
Qed.

(** One execution of the body of the innermost loop. *)
Lemma relajar_j_spec n k i dik st j :
  fw_dim n st → i < n → j < n →
  fw_dim n (relajar_j k i dik st j) ∧
  (∀ a b, (a, b) ≠ (i, j) →
     dv (relajar_j k i dik st j) a b = dv st a b ∧
     sv (relajar_j k i dik st j) a b = sv st a b) ∧
  (if dltb (dplus dik (dv st k j)) (dv st i j)
   then dv (relajar_j k i dik st j) i j = dplus dik (dv st k j) ∧
        sv (relajar_j k i dik st j) i j = sv st i k
   else relajar_j k i dik st j = st).
Proof.
  intros [HD HS] Hi Hj. unfold relajar_j. fold (dv st k j) (dv st i j) (sv st i k).
  destruct (dltb _ _) eqn:E.
  - split; [split; by apply mdim_mset|]. split.
    + intros a b Hne. unfold dv, sv. simpl. by rewrite !mget_mset_ne.
    + unfold dv, sv. simpl. by rewrite !(mget_mset_eq n).
  - done.
Qed.

(** ** Folding over [range(n)] *)

Lemma fold_seq_inv {S} (P : nat → S → Prop) (f : S → nat → S) n st :
  P 0 st →
  (∀ m s, m < n → P m s → P (Datatypes.S m) (f s m)) →
  P n (fold_left f (seq 0 n) st).
Proof.
  intros H0 Hstep. induction n as [|n IH]; [done|].
  rewrite seq_S, fold_left_app. simpl. apply Hstep; [lia|].
  apply IH. intros m s Hm. apply Hstep. lia.
Qed.

Lemma fold_seq_pres {S} (P : S → Prop) (f : S → nat → S) n m st :
  m ≤ n → P st → (∀ a s, a < n → P s → P (f s a)) →
  P (fold_left f (seq 0 m) st).
Proof.
  intros Hm H0 Hstep. apply (fold_seq_inv (λ _, P)); [done|].
  intros a s Ha. apply Hstep. lia.
Qed.

(** ** Invariants every single relaxation keeps *)

Section Local.
Variable n : nat.
Variable P : FW → Prop.
Variable ok : Q → Prop.
Hypothesis P_read : ∀ st i k q, P st → i < n → k < n → dv st i k = Fin q → ok q.
Hypothesis P_step : ∀ st k i j q,
  P st → ok q → k < n → i < n → j < n → P (relajar_j k i (Fin q) st j).

Lemma relajar_i_local st k i : P st → k < n → i < n → P (relajar_i n k st i).
Proof.
  intros Hst Hk Hi. unfold relajar_i. fold (dv st i k).
  destruct (dv st i k) as [q|] eqn:E; simpl; [|done].
  apply (fold_seq_pres P _ n n); [done|done|].
  intros j s Hj Hs. apply P_step; eauto.
Qed.

Lemma relajar_k_local st k : P st → k < n → P (relajar_k n st k).
Proof.
  intros Hst Hk. unfold relajar_k. apply (fold_seq_pres P _ n n); [done|done|].
  intros i s Hi Hs. by apply relajar_i_local.
Qed.

Lemma floyd_local st m : P st → m ≤ n → P (fold_left (relajar_k n) (seq 0 m) st).
Proof.
  intros Hst Hm. apply (fold_seq_pres P _ n m); [done|done|].
  intros k s Hk Hs. by apply relajar_k_local.
Qed.

End Local.

Lemma fold_left_prefix_inv {A S} (P : list A → S → Prop) (f : S → A → S) l st :
  P [] st →
  (∀ l1 x s, x ∈ l → P l1 s → P (l1 ++ [x]) (f s x)) →
  P l (fold_left f l st).
Proof.
  intros H0 Hstep.
  cut (∀ l1 l2 s, l = l1 ++ l2 → P l1 s → P l (fold_left f l2 s)).
  { intros Hc. by apply (Hc [] l st). }
  intros l1 l2. revert l1. induction l2 as [|x l2 IH]; intros l1 s El Hs; simpl.
  - by rewrite El, app_nil_r.
  - apply (IH (l1 ++ [x])); [by rewrite <- app_assoc|].
    apply Hstep; [|done]. rewrite El. apply elem_of_app. right. by left.
Qed.

(** Diagonal zero with self successor, and no negative entry. *)
Definition fw_base (n : nat) (st : FW) : Prop :=
  fw_dim n st ∧
  (∀ a, a < n → dv st a a = Fin 0 ∧ sv st a a = Some a) ∧
  (∀ a b q, a < n → b < n → dv st a b = Fin q → (0 <= q)%Q).

Lemma relajar_j_base n st k i j q :
  fw_base n st → (0 <= q)%Q → k < n → i < n → j < n →
  fw_base n (relajar_j k i (Fin q) st j) ∧
  (∀ a, a < n → dv (relajar_j k i (Fin q) st j) a a = dv st a a ∧
                sv (relajar_j k i (Fin q) st j) a a = sv st a a).
Proof.
  intros (Hdim & Hdiag & Hpos) Hq Hk Hi Hj.
  destruct (relajar_j_spec n k i (Fin q) st j Hdim Hi Hj) as (Hdim' & Hoth & Hij).
  destruct (dltb _ _) eqn:E; [|by rewrite Hij].
  destruct Hij as [Hd Hs].
  destruct (dv st k j) as [x|] eqn:Ekj; [|done].
  pose proof (Hpos k j x Hk Hj Ekj) as Hx.
  assert (i ≠ j) as Hne.
  { intros ->. destruct (Hdiag j Hj) as [E0 _]. rewrite E0 in E. simpl in E.
    apply Qltb_lt in E. lra. }
  assert (Hd' : ∀ a, a < n → dv (relajar_j k i (Fin q) st j) a a = dv st a a ∧
                sv (relajar_j k i (Fin q) st j) a a = sv st a a).
  { intros a Ha. apply Hoth. intros [= -> ->]. done. }
  split; [|done]. split; [done|]. split.
  - intros a Ha. destruct (Hd' a Ha) as [-> ->]. by apply Hdiag.
  - intros a b y Ha Hb. destruct (decide ((a, b) = (i, j))) as [[= -> ->]|Hab].
    + rewrite Hd. simpl. intros [= <-]. lra.
    + destruct (Hoth a b Hab) as [-> _]. by apply Hpos.
Qed.

Lemma floyd_base n st m :
  fw_base n st → m ≤ n → fw_base n (fold_left (relajar_k n) (seq 0 m) st).
Proof.
  intros Hst Hm. apply (floyd_local n (fw_base n) (λ q, (0 <= q)%Q)); try done.
  - intros s i k q (_ & _ & Hpos) Hi Hk. by apply Hpos.
  - intros s k i j q Hs Hq Hk Hi Hj. by apply relajar_j_base.
Qed.

(** Entries never grow. *)
Definition fw_bajo (n : nat) (w st : FW) : Prop :=
  fw_dim n st ∧ ∀ a b, a < n → b < n → dle (dv st a b) (dv w a b).

Lemma floyd_bajo n w st m :
  fw_bajo n w st → m ≤ n → fw_bajo n w (fold_left (relajar_k n) (seq 0 m) st).
Proof.
  intros Hst Hm. apply (floyd_local n (fw_bajo n w) (λ _, True)); try done.
  intros s k i j q [Hdim Hle] _ Hk Hi Hj.
  destruct (relajar_j_spec n k i (Fin q) s j Hdim Hi Hj) as (Hdim' & Hoth & Hij).
  destruct (dltb _ _) eqn:E; [|by rewrite Hij].
  split; [done|]. intros a b Ha Hb.
  destruct (decide ((a, b) = (i, j))) as [[= -> ->]|Hab].
  - destruct Hij as [-> _]. eapply dle_trans; [by apply dltb_true_dle|by apply Hle].
  - destruct (Hoth a b Hab) as [-> _]. by apply Hle.
Qed.

(** ** The matrices before the relaxation *)

Section Inicial.
Variable n : nat.
Variable idx : gmap string nat.
Hypothesis idx_lt : ∀ u i, idx !! u = Some i → i < n.

Definition st_vacio : FW :=
  (replicate n (replicate n Inf), replicate n (replicate n None)).

Definition st_diag : FW := fold_left init_diag (seq 0 n) st_vacio.

Definition diag_hasta (m : nat) (st : FW) : Prop :=
  fw_dim n st ∧
  ∀ a b, a < n → b < n →
    dv st a b = (if decide (a = b ∧ a < m) then Fin 0 else Inf) ∧
    sv st a b = (if decide (a = b ∧ a < m) then Some a else None).

Lemma st_diag_hasta : diag_hasta n st_diag.
Proof.
  unfold st_diag. apply (fold_seq_inv diag_hasta).
  - split; [split; apply mdim_replicate|]. intros a b Ha Hb.
    rewrite !decide_False by lia. unfold dv, sv, st_vacio. simpl.
    by rewrite !mget_replicate.
  - intros m st Hm [[HD HS] Hv]. split; [split; by apply mdim_mset|].
    intros a b Ha Hb. unfold init_diag, dv, sv. simpl.
    destruct (decide ((a, b) = (m, m))) as [[= -> ->]|Hne].
    + rewrite !(mget_mset_eq n) by done. by rewrite !decide_True by lia.
    + rewrite !mget_mset_ne by done. destruct (Hv a b Ha Hb) as [E1 E2].
      unfold dv, sv in E1, E2. rewrite E1, E2.
      destruct (decide (a = b ∧ a < m)) as [[-> ?]|Hn1].
      * by rewrite !decide_True by lia.
      * rewrite !decide_False; [done|..]; intros [-> ?];
          (destruct (decide (b = m)) as [->|]; [done|apply Hn1; lia]).
Qed.

Lemma st_diag_spec :
  fw_dim n st_diag ∧
  ∀ a b, a < n → b < n →
    dv st_diag a b = (if decide (a = b) then Fin 0 else Inf) ∧
    sv st_diag a b = (if decide (a = b) then Some a else None).
Proof.
  destruct st_diag_hasta as [Hd Hv]. split; [done|]. intros a b Ha Hb.
  destruct (Hv a b Ha Hb) as [-> ->].
  destruct (decide (a = b)); [rewrite !decide_True by done|
                              rewrite !decide_False by tauto]; done.
Qed.

(** What the edge loop guarantees for each edge it has seen, whatever the
    weights: the entry of its endpoints is at most its weight. *)
Lemma init_aristas_bajo ars :
  let st := fold_left (init_arista idx) ars st_diag in
  fw_dim n st ∧
  ∀ u v x a b, (u, v, x) ∈ ars → idx !! u = Some a → idx !! v = Some b →
               dle (dv st a b) (Fin x).
Proof.
  apply (fold_left_prefix_inv (λ l st, fw_dim n st ∧
    ∀ u v x a b, (u, v, x) ∈ l → idx !! u = Some a → idx !! v = Some b →
                 dle (dv st a b) (Fin x))).
  - split; [apply st_diag_spec|]. intros u v x a b Hin. by apply elem_of_nil in Hin.
  - intros l1 [[u0 v0] x0] st _ [Hdim Hle].
    assert (Hmono : fw_dim n (init_arista idx st (u0, v0, x0)) ∧
              (∀ a b, a < n → b < n →
                 dle (dv (init_arista idx st (u0, v0, x0)) a b) (dv st a b)) ∧
              (∀ a b, idx !! u0 = Some a → idx !! v0 = Some b →
                 dle (dv (init_arista idx st (u0, v0, x0)) a b) (Fin x0))).
    { unfold init_arista.
      destruct (idx !! u0) as [i|] eqn:Ei; [|by split; [|split; [intros; apply dle_refl|]]].
      destruct (idx !! v0) as [j|] eqn:Ej; [|by split; [|split; [intros; apply dle_refl|]]].
      pose proof (idx_lt _ _ Ei). pose proof (idx_lt _ _ Ej).
      fold (dv st i j). destruct (dltb (Fin x0) (dv st i j)) eqn:E.
      - destruct Hdim as [HD HS]. split; [split; by apply mdim_mset|]. split.
        + intros a b Ha Hb. unfold dv. simpl.
          destruct (decide ((a, b) = (i, j))) as [[= -> ->]|Hne].
          * rewrite (mget_mset_eq n) by done. by apply dltb_true_dle.
          * rewrite mget_mset_ne by done. apply dle_refl.
        + intros a b [= <-] [= <-]. unfold dv. simpl.
          rewrite (mget_mset_eq n) by done. apply dle_refl.
      - split; [done|]. split; [intros; apply dle_refl|].
        intros a b [= <-] [= <-]. by apply dltb_false_dle. }
    destruct Hmono as (Hdim' & Hm1 & Hm2). split; [done|].
    intros u v x a b [Hin|Hin%list_elem_of_singleton]%elem_of_app Hu Hv.
    + eapply dle_trans; [apply Hm1; eauto|]. by eapply Hle.
    + injection Hin as -> -> ->. by apply Hm2.
Qed.

End Inicial.

Section InicialNoNegativo.
Variable n : nat.
Variable idx : gmap string nat.
Hypothesis idx_lt : ∀ u i, idx !! u = Some i → i < n.

(** Off the diagonal an entry is either still [inf] with no successor, or the
    weight of an edge already seen between the two nodes, with the target as
    successor. *)
Definition fuera_diag (l : list Arista) (st : FW) : Prop :=
  ∀ a b, a < n → b < n → a ≠ b →
    (dv st a b = Inf ∧ sv st a b = None) ∨
    (∃ x u v, dv st a b = Fin x ∧ sv st a b = Some b ∧
              (u, v, x) ∈ l ∧ idx !! u = Some a ∧ idx !! v = Some b).

Lemma init_arista_base l st e :
  (0 <= e.2)%Q → fw_base n st → fuera_diag l st →
  fw_base n (init_arista idx st e) ∧ fuera_diag (l ++ [e]) (init_arista idx st e).
Proof.
  destruct e as [[u0 v0] x0]. simpl. intros Hx0 Hbase Hoff.
  pose proof Hbase as (Hdim & Hdiag & Hpos).
  assert (Hweak : fuera_diag (l ++ [(u0, v0, x0)]) st).
  { intros a b Ha Hb Hab.
    destruct (Hoff a b Ha Hb Hab) as [?|(x & u & v & ? & ? & ? & ? & ?)]; [by left|].
    right. exists x, u, v. repeat split; try done. apply elem_of_app. by left. }
  unfold init_arista.
  destruct (idx !! u0) as [i|] eqn:Ei; [|by split].
  destruct (idx !! v0) as [j|] eqn:Ej; [|by split].
  pose proof (idx_lt _ _ Ei) as Hi. pose proof (idx_lt _ _ Ej) as Hj.
  fold (dv st i j).
  change (match dv st i j with Fin y => Qltb x0 y | Inf => true end)
    with (dltb (Fin x0) (dv st i j)).
  destruct (dltb (Fin x0) (dv st i j)) eqn:E; [|by split].
  assert (i ≠ j) as Hne.
  { intros ->. destruct (Hdiag j Hj) as [E0 _]. rewrite E0 in E. simpl in E.
    apply Qltb_lt in E. lra. }
  destruct Hdim as [HD HS].
  assert (Hoth : ∀ a b, (a, b) ≠ (i, j) →
            dv (mset st.1 i j (Fin x0), mset st.2 i j (Some j)) a b = dv st a b ∧
            sv (mset st.1 i j (Fin x0), mset st.2 i j (Some j)) a b = sv st a b).
  { intros a b Hab. unfold dv, sv. simpl. by rewrite !mget_mset_ne. }
  assert (Hij : dv (mset st.1 i j (Fin x0), mset st.2 i j (Some j)) i j = Fin x0 ∧
                sv (mset st.1 i j (Fin x0), mset st.2 i j (Some j)) i j = Some j).
  { unfold dv, sv. simpl. by rewrite !(mget_mset_eq n). }
  split; [split; [split; by apply mdim_mset|split]|].
  - intros a Ha. destruct (Hoth a a) as [-> ->]; [|by apply Hdiag].
    intros [= -> ->]. done.
  - intros a b q Ha Hb. destruct (decide ((a, b) = (i, j))) as [[= -> ->]|Hab].
    + destruct Hij as [-> _]. intros [= <-]. done.
    + destruct (Hoth a b Hab) as [-> _]. by apply Hpos.
  - intros a b Ha Hb Hab. destruct (decide ((a, b) = (i, j))) as [[= -> ->]|Hab'].
    + right. exists x0, u0, v0. destruct Hij as [-> ->].
      repeat split; try done. apply elem_of_app. right. by left.
    + destruct (Hoth a b Hab') as [-> ->]. by apply Hweak.
Qed.

Lemma init_aristas_base ars :
  Forall (λ e : Arista, (0 <= e.2)%Q) ars →
  fw_base n (fold_left (init_arista idx) ars (st_diag n)) ∧
  fuera_diag ars (fold_left (init_arista idx) ars (st_diag n)).
Proof.
  intros Hars.
  apply (fold_left_prefix_inv (λ l st, fw_base n st ∧ fuera_diag l st)).
  - destruct (st_diag_spec n) as [Hdim Hv]. split; [split; [done|split]|].
    + intros a Ha. destruct (Hv a a Ha Ha) as [-> ->]. by rewrite !decide_True.
    + intros a b q Ha Hb. destruct (Hv a b Ha Hb) as [-> _].
      destruct (decide (a = b)); [|done]. intros [= <-]. apply Qle_refl.
    + intros a b Ha Hb Hab. left. destruct (Hv a b Ha Hb) as [-> ->].
      by rewrite !decide_False.
  - intros l1 e st He [Hb Ho]. apply init_arista_base; [|done..].
    rewrite Forall_forall in Hars. by apply Hars.
Qed.

End InicialNoNegativo.

(** ** The index dictionaries *)

Lemma mk_nodo_a_indice_snoc l x :
  mk_nodo_a_indice (l ++ [x]) = <[x := length l]> (mk_nodo_a_indice l).
Proof.
  unfold mk_nodo_a_indice. by rewrite enumerate_snoc, fold_left_app.
Qed.

Lemma mk_nodo_a_indice_lookup l u i :
  mk_nodo_a_indice l !! u = Some i → l !! i = Some u.
Proof.
  revert i. induction l as [|x l IH] using rev_ind; intros i.
  - unfold mk_nodo_a_indice. simpl. by rewrite lookup_empty.
  - rewrite mk_nodo_a_indice_snoc. destruct (decide (x = u)) as [->|Hne].
    + rewrite lookup_insert_eq. intros [= <-].
      rewrite lookup_app_r by done. by rewrite Nat.sub_diag.
    + rewrite lookup_insert_ne by done. intros Hi%IH.
      by apply lookup_app_l_Some.
Qed.

Lemma mk_nodo_a_indice_is_Some l u :
  u ∈ l → is_Some (mk_nodo_a_indice l !! u).
Proof.
  induction l as [|x l IH] using rev_ind.
  - intros Hu. by apply elem_of_nil in Hu.
  - rewrite mk_nodo_a_indice_snoc. destruct (decide (x = u)) as [->|Hne].
    + rewrite lookup_insert_eq. by eexists.
    + rewrite lookup_insert_ne by done.
      intros [Hu|Hu%list_elem_of_singleton]%elem_of_app; [by apply IH|congruence].
Qed.

Lemma mk_nodo_a_indice_lt l u i :
  mk_nodo_a_indice l !! u = Some i → i < length l.
Proof. intros Hi%mk_nodo_a_indice_lookup. by eapply lookup_lt_Some. Qed.

Lemma mk_nodo_a_indice_inj l u u' i :
  mk_nodo_a_indice l !! u = Some i → mk_nodo_a_indice l !! u' = Some i → u = u'.
Proof.
  intros H1%mk_nodo_a_indice_lookup H2%mk_nodo_a_indice_lookup. congruence.
Qed.

Lemma mk_indice_a_nodo_lookup (m : gmap string nat) u i :
  (∀ u u' i, m !! u = Some i → m !! u' = Some i → u = u') →
  m !! u = Some i → mk_indice_a_nodo m !! i = Some u.
Proof.
  unfold mk_indice_a_nodo. revert u i.
  apply (map_fold_weak_ind (λ (r : gmap nat string) (m : gmap string nat),
    ∀ u i, (∀ u u' i, m !! u = Some i → m !! u' = Some i → u = u') →
           m !! u = Some i → r !! i = Some u)).
  - intros u i _. by rewrite lookup_empty.
  - intros k x m0 r Hk IH u i Hinj Hu.
    destruct (decide (k = u)) as [->|Hne].
    + rewrite lookup_insert_eq in Hu. injection Hu as ->. apply lookup_insert_eq.
    + rewrite lookup_insert_ne in Hu by done.
      destruct (decide (x = i)) as [->|Hxi].
      * exfalso. apply Hne. apply (Hinj k u i); [apply lookup_insert_eq|].
        by rewrite lookup_insert_ne.
      * rewrite lookup_insert_ne by done. apply IH; [|done].
        intros u1 u2 i0 H1 H2. apply (Hinj u1 u2 i0).
        -- rewrite lookup_insert_ne; [done|]. intros <-. congruence.
        -- rewrite lookup_insert_ne; [done|]. intros <-. congruence.
Qed.

(** ** One pass of the outer loop, entry by entry *)

(** [min(z, x + y)] as the code computes it: the sum replaces [z] only when
    it is strictly smaller. *)
Definition relax (x y z : ext) : ext :=
  if dltb (dplus x y) z then dplus x y else z.

Ltac ext_arith :=
  unfold relax in *;
  repeat match goal with x : ext |- _ => destruct x as [?|] end;
  simpl in *;
  repeat match goal with
    | H : context [Qltb ?a ?b] |- _ =>
        let E := fresh "E" in
        destruct (Qltb a b) eqn:E;
        [apply Qltb_lt in E | apply Qltb_ge in E]; simpl in H
    | |- context [Qltb ?a ?b] =>
        let E := fresh "E" in
        destruct (Qltb a b) eqn:E;
        [apply Qltb_lt in E | apply Qltb_ge in E]; simpl
    end;
  try done; try lra.

Lemma relax_le_old x y z : dle (relax x y z) z.
Proof. ext_arith. Qed.

Lemma relax_le_sum x y z : dle (relax x y z) (dplus x y).
Proof. ext_arith. Qed.

Lemma relax_zero_l y : relax (Fin 0) y y = y.
Proof. ext_arith. Qed.

Lemma relax_zero_r x : relax x (Fin 0) x = x.
Proof. ext_arith. Qed.

Lemma dltb_zero_r x : dltb (dplus x (Fin 0)) x = false.
Proof. ext_arith. Qed.

Lemma dltb_zero_l y : dltb (dplus (Fin 0) y) y = false.
Proof. ext_arith. Qed.

Lemma relax_tri ab ak kb am mb km mk :
  dle (Fin 0) km → dle (Fin 0) mk →
  dle ab (dplus am mb) → dle kb (dplus km mb) → dle ak (dplus am mk) →
  dle (relax ak kb ab) (dplus (relax ak km am) (relax mk kb mb)).
Proof. intros. ext_arith. Qed.

Lemma relax_suc_new x sk ak kb sb :
  dle (dplus (Fin x) sk) ak →
  dle (dplus (Fin x) (relax sk kb sb)) (dplus ak kb).
Proof. intros. ext_arith. Qed.

Lemma relax_suc_old x sk kb sb ab :
  dle (dplus (Fin x) sb) ab →
  dle (dplus (Fin x) (relax sk kb sb)) ab.
Proof. intros. ext_arith. Qed.

Definition paso_d (k : nat) (o : FW) (a b : nat) : ext :=
  relax (dv o a k) (dv o k b) (dv o a b).

Definition paso_s (k : nat) (o : FW) (a b : nat) : option nat :=
  if dltb (dplus (dv o a k) (dv o k b)) (dv o a b) then sv o a k else sv o a b.

(** The entries the pass has already visited when it is at row [i],
    column [m]. *)
Definition hecho (i m a b : nat) : bool :=
  (a <? i) || ((a =? i) && (b <? m)).

Section Pasada.
Variable n k : nat.
Variable o : FW.
Hypothesis k_lt : k < n.
Hypothesis o_kk : dv o k k = Fin 0.

Definition mixto (i m : nat) (cur : FW) : Prop :=
  fw_dim n cur ∧
  ∀ a b, a < n → b < n →
    dv cur a b = (if hecho i m a b then paso_d k o a b else dv o a b) ∧
    sv cur a b = (if hecho i m a b then paso_s k o a b else sv o a b).

Lemma paso_fila_k b : paso_d k o k b = dv o k b.
Proof. unfold paso_d. rewrite o_kk. apply relax_zero_l. Qed.

Lemma paso_col_k a : paso_d k o a k = dv o a k ∧ paso_s k o a k = sv o a k.
Proof.
  unfold paso_d, paso_s. rewrite o_kk. split; [apply relax_zero_r|].
  by rewrite dltb_zero_r.
Qed.

Lemma mixto_fila_k i m cur b : mixto i m cur → b < n → dv cur k b = dv o k b.
Proof.
  intros [_ Hv] Hb. destruct (Hv k b k_lt Hb) as [-> _].
  destruct (hecho i m k b); [apply paso_fila_k|done].
Qed.

Lemma mixto_col_k i m cur a :
  mixto i m cur → a < n → dv cur a k = dv o a k ∧ sv cur a k = sv o a k.
Proof.
  intros [_ Hv] Ha. destruct (Hv a k Ha k_lt) as [-> ->].
  destruct (hecho i m a k); [apply paso_col_k|done].
Qed.

Lemma mixto_j i j cur q :
  mixto i j cur → i < n → j < n → dv o i k = Fin q →
  mixto i (S j) (relajar_j k i (Fin q) cur j).
Proof.
  intros Hm Hi Hj Hq. pose proof Hm as [Hdim Hv].
  destruct (relajar_j_spec n k i (Fin q) cur j Hdim Hi Hj) as (Hdim' & Hoth & Hij).
  split; [done|]. intros a b Ha Hb.
  destruct (decide ((a, b) = (i, j))) as [[= -> ->]|Hab].
  - assert (hecho i (S j) i j = true) as ->.
    { unfold hecho. rewrite Nat.eqb_refl. simpl.
      rewrite orb_true_iff. right. apply Nat.ltb_lt. lia. }
    rewrite (mixto_fila_k i j cur j Hm Hj) in Hij.
    destruct (Hv i j Hi Hj) as [Ed Es].
    assert (hecho i j i j = false) as Hf.
    { unfold hecho. rewrite Nat.ltb_irrefl, Nat.eqb_refl, Nat.ltb_irrefl. done. }
    rewrite Hf in Ed, Es. rewrite Ed in Hij.
    unfold paso_d, paso_s, relax. rewrite Hq.
    destruct (dltb (dplus (Fin q) (dv o k j)) (dv o i j)).
    + destruct Hij as [-> ->]. split; [done|].
      by destruct (mixto_col_k i j cur i Hm Hi) as [_ ->].
    + rewrite Hij. done.
  - destruct (Hoth a b Hab) as [-> ->].
    assert (hecho i (S j) a b = hecho i j a b) as ->; [|by apply Hv].
    unfold hecho. destruct (a =? i) eqn:Eai; [|done].
    apply Nat.eqb_eq in Eai as ->. simpl. f_equal.
    assert (b ≠ j) by congruence.
    destruct (b <? S j) eqn:E1, (b <? j) eqn:E2; try done.
    + apply Nat.ltb_lt in E1. apply Nat.ltb_ge in E2. lia.
    + apply Nat.ltb_ge in E1. apply Nat.ltb_lt in E2. lia.
Qed.

Lemma hecho_fila i a b : b < n → hecho i n a b = hecho (S i) 0 a b.
Proof.
  intros Hb. unfold hecho. rewrite andb_false_r, orb_false_r.
  assert (Nat.ltb b n = true) as -> by (by apply Nat.ltb_lt). rewrite andb_true_r.
  destruct (a <? i) eqn:E1, (a =? i) eqn:E2, (a <? S i) eqn:E3; try done;
    repeat match goal with
    | H : (_ <? _) = true |- _ => apply Nat.ltb_lt in H
    | H : (_ <? _) = false |- _ => apply Nat.ltb_ge in H
    | H : (_ =? _) = true |- _ => apply Nat.eqb_eq in H
    | H : (_ =? _) = false |- _ => apply Nat.eqb_neq in H
    end; lia.
Qed.

Lemma mixto_fila i cur : mixto i n cur → mixto (S i) 0 cur.
Proof.
  intros [Hdim Hv]. split; [done|]. intros a b Ha Hb.
  rewrite <- hecho_fila by done. by apply Hv.
Qed.

Lemma mixto_i i cur :
  mixto i 0 cur → i < n → mixto (S i) 0 (relajar_i n k cur i).
Proof.
  intros Hm Hi. unfold relajar_i. fold (dv cur i k).
  destruct (mixto_col_k i 0 cur i Hm Hi) as [-> _].
  destruct (dv o i k) as [q|] eqn:Eq; simpl.
  - apply mixto_fila. apply (fold_seq_inv (λ m, mixto i m)); [done|].
    intros j s Hj Hs. by apply mixto_j.
  - destruct Hm as [Hdim Hv]. split; [done|]. intros a b Ha Hb.
    destruct (Hv a b Ha Hb) as [-> ->]. rewrite <- hecho_fila by done.
    unfold hecho. destruct (a <? i); [done|]. simpl.
    destruct (a =? i) eqn:Eai; simpl; [|done].
    apply Nat.eqb_eq in Eai as ->.
    assert (Nat.ltb b n = true) as -> by (by apply Nat.ltb_lt).
    unfold paso_d, paso_s, relax. rewrite Eq. done.
Qed.

(** After the pass for [k], every entry is the relaxed one computed from the
    matrices as they were before the pass. *)
Lemma relajar_k_spec :
  fw_dim n o →
  fw_dim n (relajar_k n o k) ∧
  ∀ a b, a < n → b < n →
    dv (relajar_k n o k) a b = paso_d k o a b ∧
    sv (relajar_k n o k) a b = paso_s k o a b.
Proof.
  intros Hdim.
  assert (mixto n 0 (relajar_k n o k)) as [Hdim' Hv].
  { unfold relajar_k. apply (fold_seq_inv (λ i, mixto i 0)).
    - split; [done|]. intros a b Ha Hb. unfold hecho.
      by rewrite andb_false_r.
    - intros i s Hi Hs. by apply mixto_i. }
  split; [done|]. intros a b Ha Hb. destruct (Hv a b Ha Hb) as [-> ->].
  unfold hecho. assert (Nat.ltb a n = true) as -> by (by apply Nat.ltb_lt). done.
Qed.

End Pasada.

(** ** The invariant of the outer loop *)

Lemma fw_base_nonneg n st a b :
  fw_base n st → a < n → b < n → dle (Fin 0) (dv st a b).
Proof.
  intros (_ & _ & Hpos) Ha Hb. destruct (dv st a b) as [q|] eqn:E; [|exact I].
  exact (Hpos a b q Ha Hb E).
Qed.

Section Invariante.
Variable n : nat.
Variable w : FW.     (* the matrices before the relaxation *)

(** State of the matrices before the pass for [k]: no negative entry and a
    zero diagonal; an entry is finite exactly when it has a successor; the
    successor [s] of [(a, b)] is another node, reached from [a] by an initial
    edge whose weight plus the entry of [(s, b)] does not exceed the entry
    of [(a, b)]; no entry is above its initial value; and the entries
    satisfy the triangle inequality through every node below [k]. *)
Record fw_inv (k : nat) (st : FW) : Prop := {
  inv_base : fw_base n st;
  inv_fin : ∀ a b, a < n → b < n → (dv st a b = Inf ↔ sv st a b = None);
  inv_suc : ∀ a b s, a < n → b < n → a ≠ b → sv st a b = Some s →
      s < n ∧ s ≠ a ∧
      ∃ x, dv w a s = Fin x ∧ dle (dplus (Fin x) (dv st s b)) (dv st a b);
  inv_bajo : ∀ a b, a < n → b < n → dle (dv st a b) (dv w a b);
  inv_tri : ∀ a b m, a < n → b < n → m < k →
      dle (dv st a b) (dplus (dv st a m) (dv st m b))
}.

Lemma fw_inv_paso k o : fw_inv k o → k < n → fw_inv (S k) (relajar_k n o k).
Proof.
  intros [Hbase Hfin Hsuc Hbajo Htri] Hk.
  pose proof Hbase as (Hdim & Hdiag & Hpos).
  destruct (Hdiag k Hk) as [Hkk _].
  destruct (relajar_k_spec n k o Hk Hkk Hdim) as [Hdim' Hv].
  assert (Hbase' : fw_base n (relajar_k n o k)).
  { apply (relajar_k_local n (fw_base n) (λ q, (0 <= q)%Q)); try done.
    - intros s i k0 q (_ & _ & Hp) Hi Hk0. by apply Hp.
    - intros s k0 i j q Hs Hq Hk0 Hi Hj. by apply relajar_j_base. }
  split; [done|..].
  - intros a b Ha Hb. destruct (Hv a b Ha Hb) as [-> ->].
    unfold paso_d, paso_s, relax.
    destruct (dltb (dplus (dv o a k) (dv o k b)) (dv o a b)) eqn:E;
      [|by apply Hfin].
    destruct (dv o a k) as [p|] eqn:Eak; [|done].
    destruct (dv o k b) as [r|] eqn:Ekb; [|done]. simpl.
    split; [done|]. intros Hn. apply Hfin in Hn; [congruence|done..].
  - intros a b s Ha Hb Hab. destruct (Hv a b Ha Hb) as [Ed ->].
    unfold paso_s.
    destruct (dltb (dplus (dv o a k) (dv o k b)) (dv o a b)) eqn:E.
    + intros Hs. assert (k ≠ a) as Hka.
      { intros ->. destruct (Hdiag a Ha) as [E0 _]. rewrite E0 in E.
        by rewrite dltb_zero_l in E. }
      destruct (Hsuc a k s Ha Hk (not_eq_sym Hka) Hs) as (Hsn & Hsa & x & Hx & Hle).
      split; [done|]. split; [done|]. exists x. split; [done|].
      rewrite Ed. destruct (Hv s b Hsn Hb) as [-> _].
      unfold paso_d at 2. unfold relax. rewrite E.
      by apply relax_suc_new.
    + intros Hs.
      destruct (Hsuc a b s Ha Hb Hab Hs) as (Hsn & Hsa & x & Hx & Hle).
      split; [done|]. split; [done|]. exists x. split; [done|].
      rewrite Ed. destruct (Hv s b Hsn Hb) as [-> _].
      unfold paso_d at 2. unfold relax. rewrite E.
      by apply relax_suc_old.
  - intros a b Ha Hb. destruct (Hv a b Ha Hb) as [-> _].
    eapply dle_trans; [apply relax_le_old|by apply Hbajo].
  - intros a b m Ha Hb Hm.
    destruct (Hv a b Ha Hb) as [-> _].
    destruct (decide (m = k)) as [->|Hmk].
    + destruct (Hv a k Ha Hk) as [-> _]. destruct (Hv k b Hk Hb) as [-> _].
      destruct (paso_col_k k o Hkk a) as [-> _]. rewrite (paso_fila_k k o Hkk).
      apply relax_le_sum.
    + assert (m < k) as Hm' by lia. assert (m < n) as Hmn by lia.
      destruct (Hv a m Ha Hmn) as [-> _]. destruct (Hv m b Hmn Hb) as [-> _].
      apply relax_tri.
      * by apply (fw_base_nonneg n).
      * by apply (fw_base_nonneg n).
      * by apply Htri.
      * by apply Htri.
      * by apply Htri.
Qed.

Lemma fw_inv_floyd st m :
  fw_inv 0 st → m ≤ n → fw_inv m (fold_left (relajar_k n) (seq 0 m) st).
Proof.
  intros Hst Hm. apply (fold_seq_inv fw_inv); [done|].
  intros k s Hk Hs. apply fw_inv_paso; [done|lia].
Qed.

End Invariante.

Lemma init_fw_inv n idx ars :
  (∀ u i, idx !! u = Some i → i < n) →
  Forall (λ e : Arista, (0 <= e.2)%Q) ars →
  fw_inv n (fold_left (init_arista idx) ars (st_diag n)) 0
         (fold_left (init_arista idx) ars (st_diag n)).
Proof.
  intros Hidx Hars.
  destruct (init_aristas_base n idx Hidx ars Hars) as [Hbase Hoff].
  pose proof Hbase as (Hdim & Hdiag & Hpos).
  split; [done|..].
  - intros a b Ha Hb. destruct (decide (a = b)) as [->|Hab].
    + destruct (Hdiag b Hb) as [-> ->]. done.
    + destruct (Hoff a b Ha Hb Hab) as [[-> ->]|(x & u & v & -> & -> & _)]; done.
  - intros a b s Ha Hb Hab Hs.
    destruct (Hoff a b Ha Hb Hab) as [[_ E]|(x & u & v & Ed & Es & _)];
      [congruence|].
    rewrite Es in Hs. injection Hs as <-. split; [done|]. split; [done|].
    exists x. split; [done|]. rewrite Ed. destruct (Hdiag b Hb) as [-> _].
    simpl. lra.
  - intros a b Ha Hb. apply dle_refl.
  - intros a b m Ha Hb Hm. lia.
Qed.

(** ** The successor walk *)

Lemma filter_length_le {A} (P R : A → Prop) `{∀ x, Decision (P x)}
    `{∀ x, Decision (R x)} (l : list A) :
  (∀ y, P y → R y) → length (filter P l) ≤ length (filter R l).
Proof.
  intros HPR. induction l as [|y l IH]; [done|].
  rewrite !filter_cons. destruct (decide (P y)) as [Hp|Hp].
  - rewrite decide_True by auto. simpl. lia.
  - destruct (decide (R y)); simpl; lia.
Qed.

Lemma filter_length_lt {A} (P R : A → Prop) `{∀ x, Decision (P x)}
    `{∀ x, Decision (R x)} (l : list A) x :
  x ∈ l → R x → ¬ P x → (∀ y, P y → R y) →
  length (filter P l) < length (filter R l).
Proof.
  intros Hx HR HnP HPR. induction l as [|y l IH]; [by apply elem_of_nil in Hx|].
  rewrite !filter_cons. apply elem_of_cons in Hx as [<-|Hx].
  - rewrite decide_False, decide_True by done. simpl.
    pose proof (filter_length_le P R l HPR). lia.
  - specialize (IH Hx). destruct (decide (P y)) as [Hp|Hp].
    + rewrite decide_True by auto. simpl. lia.
    + destruct (decide (R y)); simpl; lia.
Qed.

Section Camino.
Variable n : nat.
Variable w st : FW.
Hypothesis Hinv : fw_inv n w n st.
Hypothesis w_pos : ∀ a s x, a < n → s < n → a ≠ s → dv w a s = Fin x → (0 < x)%Q.

(** Total weight of the hops [cur → c1 → c2 → ...] in the initial matrix. *)
Fixpoint peso_camino (cur : nat) (camino : list nat) : ext :=
  match camino with
  | [] => Fin 0
  | s :: c => dplus (dv w cur s) (peso_camino s c)
  end.

(** Every hop joins two different nodes with a finite initial entry. *)
Fixpoint saltos_ok (cur : nat) (camino : list nat) : Prop :=
  match camino with
  | [] => True
  | s :: c => cur ≠ s ∧ s < n ∧ (∃ x, dv w cur s = Fin x) ∧ saltos_ok s c
  end.

(** Number of nodes strictly nearer to [j] than [cur]. *)
Definition medida (j cur : nat) : nat :=
  length (filter (λ a, dltb (dv st a j) (dv st cur j) = true) (seq 0 n)).

Lemma medida_le j cur : medida j cur ≤ n.
Proof.
  unfold medida. etrans; [apply length_filter|]. by rewrite length_seq.
Qed.

(** One step of the walk from a node that reaches [j]. *)
Lemma paso_camino j cur :
  cur < n → j < n → cur ≠ j → dv st cur j ≠ Inf →
  ∃ s x d d',
    sv st cur j = Some s ∧ s < n ∧ s ≠ cur ∧ dv w cur s = Fin x ∧
    dv st cur j = Fin d ∧ dv st s j = Fin d' ∧
    (x + d' == d)%Q ∧ (0 < x)%Q ∧ medida j s < medida j cur.
Proof.
  intros Hc Hj Hne Hfin. destruct Hinv as [Hbase Hf Hsuc Hbajo Htri].
  destruct (sv st cur j) as [s|] eqn:Es; [|by apply Hf in Es].
  destruct (Hsuc cur j s Hc Hj Hne Es) as (Hs & Hsc & x & Hx & Hle).
  pose proof (w_pos cur s x Hc Hs (not_eq_sym Hsc) Hx) as Hxpos.
  pose proof (Htri cur j s Hc Hj Hs) as Ht.
  pose proof (Hbajo cur s Hc Hs) as Hb. rewrite Hx in Hb.
  destruct (dv st cur j) as [d|] eqn:Ed; [|done].
  destruct (dv st s j) as [d'|] eqn:Ed'; [|done].
  destruct (dv st cur s) as [y|] eqn:Ey; [|done]. simpl in *.
  exists s, x, d, d'. repeat split; try done; [lra|].
  unfold medida. rewrite Ed, Ed'.
  apply (filter_length_lt _ _ _ s).
  - apply elem_of_seq. lia.
  - rewrite Ed'. simpl. apply Qltb_lt. lra.
  - rewrite Ed'. simpl. rewrite not_true_iff_false. apply Qltb_ge. lra.
  - intros a. destruct (dv st a j) as [z|]; simpl; [|done].
    rewrite !Qltb_lt. lra.
Qed.

(** The walk of [obtener_ruta] from a node that reaches [j]: it stops for
    lack of fuel only below the measure; otherwise it returns the nodes it
    appended, which end in [j], hop along initial edges, and weigh the entry
    of the distance matrix. *)
Lemma caminar_spec j fuel cur ruta :
  cur < n → j < n → dv st cur j ≠ Inf →
  (caminar fuel st.2 j cur ruta = Fuel ∧ fuel < medida j cur) ∨
  (∃ camino,
     caminar fuel st.2 j cur ruta = Ok (Some (ruta ++ camino)) ∧
     last (cur :: camino) = Some j ∧
     saltos_ok cur camino ∧
     deq (peso_camino cur camino) (dv st cur j)).
Proof.
  intros Hc Hj. revert cur ruta Hc.
  induction fuel as [|fuel IH]; intros cur ruta Hc Hfin.
  - simpl. destruct (decide (cur = j)) as [->|Hne].
    + right. exists []. rewrite app_nil_r. simpl. repeat split; try done.
      destruct Hinv as [(_ & Hdiag & _) _ _ _ _].
      destruct (Hdiag j Hj) as [-> _]. simpl. lra.
    + left. split; [done|].
      destruct (paso_camino j cur Hc Hj Hne Hfin) as (s & x & d & d' & H1). lia.
  - simpl. destruct (decide (cur = j)) as [->|Hne].
    + right. exists []. rewrite app_nil_r. simpl. repeat split; try done.
      destruct Hinv as [(_ & Hdiag & _) _ _ _ _].
      destruct (Hdiag j Hj) as [-> _]. simpl. lra.
    + destruct (paso_camino j cur Hc Hj Hne Hfin)
        as (s & x & d & d' & Es & Hs & Hsc & Hx & Ed & Ed' & Hsum & Hxpos & Hmed).
      destruct Hinv as [(Hdim & _ & _) _ _ _ _].
      rewrite (mitem_mget n None) by (done || apply Hdim).
      fold (sv st cur j). rewrite Es. simpl.
      destruct (IH s (ruta ++ [s]) Hs) as [[-> Hlt]|(camino & -> & Hlast & Hok & Hpeso)].
      * by rewrite Ed'.
      * left. split; [done|lia].
      * right. exists (s :: camino).
        split; [by rewrite <- app_assoc|]. split; [by rewrite last_cons_cons|].
        split; [simpl; eauto 6|]. simpl.
        rewrite Hx, Ed. rewrite Ed' in Hpeso.
        destruct (peso_camino s camino) as [z|]; simpl in *; [lra|done].
Qed.

End Camino.

(** ** The prepared system *)

Lemma pesos_positivos_no_negativos g : pesos_positivos g → pesos_no_negativos g.
Proof.
  intros Hg. eapply Forall_impl; [exact Hg|]. intros e He. by apply Qlt_le_weak.
Qed.

Lemma alcanzable_positivos `{Libm} g : alcanzable g → pesos_positivos g.
Proof.
  intros Hg%alcanzable_piso. eapply Forall_impl; [exact Hg|].
  intros e He. unfold piso in He. lra.
Qed.

Section Preparado.
Variable g : Grafo.

Let claves := dict_keys (nodos g).
Let n := length claves.
Let idx := mk_nodo_a_indice claves.
Let w := matrices_iniciales n idx (aristas g).
Let st := floyd_warshall n w.

Lemma idx_lt u i : idx !! u = Some i → i < n.
Proof. apply mk_nodo_a_indice_lt. Qed.

Lemma idx_clave u : u ∈ claves → ∃ i, idx !! u = Some i ∧ i < n.
Proof.
  intros [i Hi]%mk_nodo_a_indice_is_Some. exists i. split; [done|].
  by eapply idx_lt.
Qed.

Lemma indice_idx u i : idx !! u = Some i → mk_indice_a_nodo idx !! i = Some u.
Proof.
  apply mk_indice_a_nodo_lookup. intros u1 u2 i0.
  apply mk_nodo_a_indice_inj.
Qed.

Lemma w_bajo u v x a b :
  (u, v, x) ∈ aristas g → idx !! u = Some a → idx !! v = Some b →
  dle (dv w a b) (Fin x).
Proof. apply (init_aristas_bajo n idx idx_lt (aristas g)). Qed.

Lemma w_dim : fw_dim n w.
Proof. apply (init_aristas_bajo n idx idx_lt (aristas g)). Qed.

Lemma st_bajo m :
  m ≤ n → fw_bajo n w (fold_left (relajar_k n) (seq 0 m) w).
Proof.
  intros Hm. apply floyd_bajo; [|done]. split; [apply w_dim|].
  intros a b _ _. apply dle_refl.
Qed.

Section NoNegativo.
Hypothesis Hg : pesos_no_negativos g.

Lemma w_base : fw_base n w.
Proof. apply (init_aristas_base n idx idx_lt (aristas g) Hg). Qed.

Lemma w_fuera_diag : fuera_diag n idx (aristas g) w.
Proof. apply (init_aristas_base n idx idx_lt (aristas g) Hg). Qed.

Lemma st_inv : fw_inv n w n st.
Proof.
  apply fw_inv_floyd; [|done]. apply init_fw_inv; [apply idx_lt|exact Hg].
Qed.

End NoNegativo.

Lemma w_positivo :
  pesos_positivos g →
  ∀ a s x, a < n → s < n → a ≠ s → dv w a s = Fin x → (0 < x)%Q.
Proof.
  intros Hg a s x Ha Hs Has Hx.
  destruct (w_fuera_diag (pesos_positivos_no_negativos g Hg) a s Ha Hs Has)
    as [[E _]|(x' & u & v & E & _ & Hin & _)]; [congruence|].
  rewrite Hx in E. injection E as <-.
  unfold pesos_positivos in Hg. rewrite Forall_forall in Hg.
  exact (Hg _ Hin).
Qed.

End Preparado.

(** ** Claims on the prepared matrices *)

(** C3. After preparing a graph with no negative weight, every node of the
    graph has an index whose diagonal entries are 0 in the distance matrix
    and the index itself in the successor matrix; the same holds of the
    initial matrices and after each pass of the outer relaxation loop, so the
    relaxation leaves the diagonal as the initialisation set it. *)
Theorem diagonal_after_preparation (s : Sistema) (g : Grafo) (nodo : string) :
  red_vial s = Some g →
  pesos_no_negativos g →
  nodo ∈ dict_keys (nodos g) →
  (preparar_floyd_warshall s).2 = true ∧
  ∃ m i,
    fw (preparar_floyd_warshall s).1 = Some m ∧
    nodo_a_indice m !! nodo = Some i ∧
    mitem (matriz_distancias m) i i = Ok (Fin 0) ∧
    mitem (matriz_sucesores m) i i = Ok (Some i) ∧
    ∀ k, k ≤ length (dict_keys (nodos g)) →
      dv (fold_left (relajar_k (length (dict_keys (nodos g)))) (seq 0 k)
            (matrices_iniciales (length (dict_keys (nodos g)))
               (nodo_a_indice m) (aristas g))) i i = Fin 0 ∧
      sv (fold_left (relajar_k (length (dict_keys (nodos g)))) (seq 0 k)
            (matrices_iniciales (length (dict_keys (nodos g)))
               (nodo_a_indice m) (aristas g))) i i = Some i.
Proof.
  intros Hrv Hg Hnodo. unfold preparar_floyd_warshall. rewrite Hrv. simpl.
  split; [done|]. destruct (idx_clave g nodo Hnodo) as (i & Hi & Hin).
  exists (preparar_grafo g), i. split; [done|]. split; [exact Hi|].
  assert (Hk : ∀ k, k ≤ length (dict_keys (nodos g)) →
            fw_base (length (dict_keys (nodos g)))
              (fold_left (relajar_k (length (dict_keys (nodos g)))) (seq 0 k)
                 (matrices_iniciales (length (dict_keys (nodos g)))
                    (mk_nodo_a_indice (dict_keys (nodos g))) (aristas g)))).
  { intros k Hk. apply floyd_base; [|done]. by apply w_base. }
  destruct (Hk _ (le_n _)) as ((HD & HS) & Hdiag & _).
  destruct (Hdiag i Hin) as [Ed Es]. unfold preparar_grafo, floyd_warshall.
  cbn [matriz_distancias matriz_sucesores nodo_a_indice].
  rewrite (mitem_mget _ Inf _ _ _ HD Hin Hin).
  rewrite (mitem_mget _ None _ _ _ HS Hin Hin).
  split; [by f_equal|]. split; [by f_equal|].
  intros k Hkn. destruct (Hk k Hkn) as (_ & Hd & _). by apply Hd.
Qed.

(** C4. After preparing a graph, for every edge (u, v, w) of the graph whose
    endpoints are nodes of the graph, the distance-matrix entry from u to v
    is at most w. *)
Theorem edge_bounds_distance (s : Sistema) (g : Grafo) (u v : string) (x : Q) :
  red_vial s = Some g →
  (u, v, x) ∈ aristas g →
  u ∈ dict_keys (nodos g) →
  v ∈ dict_keys (nodos g) →
  (preparar_floyd_warshall s).2 = true ∧
  ∃ m i j d,
    fw (preparar_floyd_warshall s).1 = Some m ∧
    nodo_a_indice m !! u = Some i ∧
    nodo_a_indice m !! v = Some j ∧
    mitem (matriz_distancias m) i j = Ok d ∧
    dle d (Fin x).
Proof.
  intros Hrv Hin Hu Hv. unfold preparar_floyd_warshall. rewrite Hrv. simpl.
  split; [done|].
  destruct (idx_clave g u Hu) as (i & Hi & Hin_i).
  destruct (idx_clave g v Hv) as (j & Hj & Hin_j).
  destruct (st_bajo g _ (le_n _)) as [[HD HS] Hle].
  exists (preparar_grafo g), i, j. eexists. split; [done|].
  split; [exact Hi|]. split; [exact Hj|]. simpl.
  split; [by apply (mitem_mget _ Inf _ _ _ HD)|].
  eapply dle_trans; [by apply Hle|]. by eapply w_bajo.
Qed.

(** C10. After preparing a graph with positive weights, for two known nodes
    whose successor entry is not none, the walk of [obtener_ruta] run with
    at least as much fuel as there are nodes returns a path: it does not run
    out of fuel, meets no none entry, and ends at the destination index. *)
Theorem successor_walk_terminates (s : Sistema) (g : Grafo)
    (origen destino : string) (m : Matrices) (i j a : nat) (fuel : nat) :
  red_vial s = Some g →
  pesos_positivos g →
  fw (preparar_floyd_warshall s).1 = Some m →
  nodo_a_indice m !! origen = Some i →
  nodo_a_indice m !! destino = Some j →
  mitem (matriz_sucesores m) i j = Ok (Some a) →
  length (nodos g) ≤ fuel →
  ∃ camino,
    caminar fuel (matriz_sucesores m) j i [i] = Ok (Some (i :: camino)) ∧
    last (i :: camino) = Some j.
Proof.
  intros Hrv Hg. unfold preparar_floyd_warshall. rewrite Hrv. simpl.
  intros [= <-]. simpl. intros Hi Hj Ha Hfuel.
  pose proof (idx_lt g _ _ Hi) as Hin. pose proof (idx_lt g _ _ Hj) as Hjn.
  pose proof (st_inv g (pesos_positivos_no_negativos g Hg)) as Hinv.
  pose proof Hinv as [((HD & HS) & _) Hfin _ _ _].
  rewrite (mitem_mget _ None _ _ _ HS Hin Hjn) in Ha. injection Ha as Ha.
  assert (Hne : dv (floyd_warshall (length (dict_keys (nodos g)))
                  (matrices_iniciales (length (dict_keys (nodos g)))
                     (mk_nodo_a_indice (dict_keys (nodos g))) (aristas g))) i j
                ≠ Inf).
  { intros E. apply Hfin in E; [|done..]. unfold sv in E. congruence. }
  destruct (caminar_spec _ _ _ Hinv (w_positivo g Hg) j fuel i [i] Hin Hjn Hne)
    as [[_ Hlt]|(camino & Hc & Hlast & _)].
  - pose proof (medida_le (length (dict_keys (nodos g)))
                  (floyd_warshall (length (dict_keys (nodos g)))
                     (matrices_iniciales (length (dict_keys (nodos g)))
                        (mk_nodo_a_indice (dict_keys (nodos g))) (aristas g)))
                  j i) as Hm.
    unfold dict_keys in *. rewrite length_fmap in *. lia.
  - exists camino. done.
Qed.

(** ** Routes *)

Lemma mapM_Forall2 {A B} (f : A → res B) l l' :
  mapM f l = Ok l' → Forall2 (λ x y, f x = Ok y) l l'.
Proof.
  revert l'. induction l as [|x l IH]; intros l'; simpl.
  - intros [= <-]. constructor.
  - destruct (f x) as [y| |] eqn:E; simpl; try done.
    destruct (mapM f l) as [ys| |]; simpl; try done.
    intros [= <-]. constructor; [done|by apply IH].
Qed.

Lemma mapM_not_Fuel {A B} (f : A → res B) l :
  (∀ x, f x ≠ Fuel) → mapM f l ≠ Fuel.
Proof.
  intros Hf. induction l as [|x l IH]; simpl; [done|].
  specialize (Hf x). destruct (f x); simpl; try done.
  destruct (mapM f l); simpl; done.
Qed.

Section Ruta.
Variable g : Grafo.
Hypothesis Hg : pesos_positivos g.

Let claves := dict_keys (nodos g).
Let n := length claves.
Let idx := mk_nodo_a_indice claves.
Let w := matrices_iniciales n idx (aristas g).
Let st := floyd_warshall n w.

(** The hops of a walk, read on node ids: each is a minimum-weight edge of
    the graph. *)
Lemma camino_nodos cur camino (nds : list string) :
  cur < n →
  saltos_ok n w cur camino →
  Forall2 (λ a u, mk_indice_a_nodo idx !! a = Some u) (cur :: camino) nds →
  ∃ pesos,
    Forall2 (λ (uv : string * string) x,
               peso_minimo_de (aristas g) uv.1 uv.2 x)
            (consecutivos nds) pesos.
Proof.
  revert cur nds. induction camino as [|s c IH]; intros cur nds Hc Hok Hf.
  - apply Forall2_cons_inv_l in Hf as (u & k' & _ & ->%Forall2_nil_inv_l & ->).
    exists []. constructor.
  - apply Forall2_cons_inv_l in Hf as (u & k' & Hu & Hf & ->).
    pose proof Hf as (v & k'' & Hv & _ & ->)%Forall2_cons_inv_l.
    destruct Hok as (Hne & Hs & [x Hx] & Hok).
    destruct (IH s (v :: k'') Hs Hok Hf) as (pesos & Hp).
    destruct (w_fuera_diag g (pesos_positivos_no_negativos g Hg) cur s Hc Hs Hne)
      as [[E _]|(x' & u' & v' & E & _ & Hin & Hu' & Hv')];
      [fold claves n idx w in E; congruence|].
    fold claves n idx w in E. rewrite Hx in E. injection E as <-.
    apply indice_idx in Hu', Hv'. fold claves idx in Hu', Hv'.
    assert (u' = u) as -> by congruence. assert (v' = v) as -> by congruence.
    exists (x :: pesos).
    change (consecutivos (u :: v :: k''))
      with ((u, v) :: consecutivos (v :: k'')).
    constructor; [|done]. split; [done|]. simpl. intros x' Hin'.
    assert (idx !! u = Some cur ∧ idx !! v = Some s) as [Iu Iv].
    { destruct (w_fuera_diag g (pesos_positivos_no_negativos g Hg) cur s Hc Hs Hne)
        as [[E _]|(x0 & u0 & v0 & _ & _ & _ & Hu0 & Hv0)];
        [fold claves n idx w in E; congruence|].
      pose proof (indice_idx g _ _ Hu0) as Iu0.
      pose proof (indice_idx g _ _ Hv0) as Iv0.
      fold claves idx in Iu0, Iv0, Hu0, Hv0.
      assert (u0 = u) as -> by congruence. assert (v0 = v) as -> by congruence.
      done. }
    pose proof (w_bajo g u v x' cur s Hin' Iu Iv) as Hle.
    fold claves n idx w in Hle. rewrite Hx in Hle. exact Hle.
Qed.

(** What [obtener_ruta] returns on the system prepared from [g]. *)
Lemma obtener_ruta_preparado (s : Sistema) fuel origen destino :
  fw_preparado s = true → fw s = Some (preparar_grafo g) →
  match obtener_ruta fuel s origen destino with
  | Ok None =>
      idx !! origen = None ∨ idx !! destino = None ∨
      ∃ i j, idx !! origen = Some i ∧ idx !! destino = Some j ∧
             mitem st.2 i j = Ok None
  | Ok (Some r) =>
      ∃ i j camino,
        idx !! origen = Some i ∧ idx !! destino = Some j ∧
        sv st i j ≠ None ∧
        Forall2 (λ a u, mk_indice_a_nodo idx !! a = Some u)
                (i :: camino) (ruta_nodos r) ∧
        last (i :: camino) = Some j ∧
        saltos_ok n w i camino ∧
        deq (peso_camino w i camino) (dv st i j) ∧
        mitem st.1 i j = Ok (distancia_km r) ∧
        distancia_km r = dv st i j
  | Raise _ => ∃ i j, idx !! origen = Some i ∧ idx !! destino = Some j ∧
                      sv st i j ≠ None
  | Fuel => ∃ i j, idx !! origen = Some i ∧ idx !! destino = Some j ∧
                   sv st i j ≠ None ∧ fuel < n
  end.
Proof.
  intros Hprep Hfw. unfold obtener_ruta. rewrite Hprep, Hfw. simpl.
  fold claves n idx w st.
  destruct (idx !! origen) as [i|] eqn:Ei; [|by left].
  destruct (idx !! destino) as [j|] eqn:Ej; [|by right; left].
  pose proof (idx_lt g _ _ Ei) as Hin. pose proof (idx_lt g _ _ Ej) as Hjn.
  pose proof (st_inv g (pesos_positivos_no_negativos g Hg)) as Hinv.
  fold claves n idx w st in Hin, Hjn, Hinv.
  pose proof Hinv as [((HD & HS) & _) Hfin _ _ _].
  rewrite (mitem_mget n None _ _ _ HS Hin Hjn). fold (sv st i j). simpl.
  destruct (sv st i j) as [a|] eqn:Ea.
  2:{ right. right. exists i, j. repeat split; try done.
      rewrite (mitem_mget n None _ _ _ HS Hin Hjn). fold (sv st i j).
      by rewrite Ea. }
  assert (Hne : dv st i j ≠ Inf).
  { intros E. apply Hfin in E; [congruence|done..]. }
  assert (Hsv : sv st i j ≠ None) by congruence.
  destruct (caminar_spec n w st Hinv (w_positivo g Hg) j fuel i [i] Hin Hjn Hne)
    as [[-> Hlt]|(camino & -> & Hlast & Hok & Hpeso)];
    unfold mbind, res_bind; cbv beta iota.
  { exists i, j. repeat split; try done.
    pose proof (medida_le n st j i). lia. }
  change ([i] ++ camino) with (i :: camino).
  destruct (mapM (B := string) _ (i :: camino)) as [nds| |] eqn:Em;
    [|exists i, j; auto|].
  2:{ exfalso. revert Em. apply mapM_not_Fuel. intros x. unfold gmap_item.
      by destruct (_ !! x). }
  apply mapM_Forall2 in Em.
  destruct (mapM (B := Q * Q) _ nds) as [cs| |] eqn:Ec; [|exists i, j; auto|].
  2:{ exfalso. revert Ec. apply mapM_not_Fuel. intros x.
      destruct (red_vial s); [|done]. unfold dict_item.
      by destruct (dict_get x _). }
  rewrite (mitem_mget n Inf _ _ _ HD Hin Hjn). fold (dv st i j). simpl.
  exists i, j, camino. repeat split; try done.
  - eapply Forall2_impl; [exact Em|]. intros a0 u. unfold gmap_item.
    destruct (mk_indice_a_nodo idx !! a0); [by intros [= ->]|done].
  - rewrite (mitem_mget n Inf _ _ _ HD Hin Hjn). done.
Qed.

End Ruta.


Lemma sistema_inicial_valido : estado_valido sistema_inicial.
Proof. by left. Qed.

Lemma preparar_valido s g :
  red_vial s = Some g → pesos_positivos g →
  estado_valido (preparar_floyd_warshall s).1.
Proof.
  intros Hrv Hg. unfold preparar_floyd_warshall. rewrite Hrv. right.
  split; [done|]. by exists g.
Qed.

(** C8. Before preparation, and on the system prepared from a graph with
    positive weights, [obtener_ruta] returns none (it does not raise and it
    does not run out of fuel) exactly when preparation has not completed, or
    the origin has no index, or the destination has no index, or the
    successor entry from origin to destination is none. *)
Theorem route_none_iff (s : Sistema) (fuel : nat) (origen destino : string) :
  estado_valido s →
  obtener_ruta fuel s origen destino = Ok None ↔ sin_ruta s origen destino.
Proof.
  intros [Hp|(Hp & g & Hg & Hfw)].
  - split; [by left|]. intros _. unfold obtener_ruta. by rewrite Hp.
  - pose proof (obtener_ruta_preparado g Hg s fuel origen destino Hp Hfw) as Hspec.
    split.
    + intros Hr. rewrite Hr in Hspec. right. exists (preparar_grafo g).
      split; [done|]. exact Hspec.
    + intros [Hn|(m & Hm & Hc)]; [congruence|].
      rewrite Hfw in Hm. injection Hm as <-.
      unfold obtener_ruta. rewrite Hp, Hfw. simpl. simpl in Hc.
      destruct Hc as [->|[Hd|(i & j & -> & -> & Hs)]]; [done| |].
      * destruct (mk_nodo_a_indice _ !! origen); [|done]. by rewrite Hd.
      * by rewrite Hs.
Qed.

(** ** The claims on a small network *)

Lemma grafo_integrado_alcanzable : alcanzable (H := libm_ejemplo) grafo_integrado.
Proof.
  apply (cargar_red_vial_alcanzable [] [("A B"%string, (1 # 2, 1 # 2))]
           elementos_ejemplo).
  by vm_compute.
Qed.

Lemma grafo_integrado_positivo : pesos_positivos grafo_integrado.
Proof.
  apply (alcanzable_positivos (H := libm_ejemplo)).
  apply grafo_integrado_alcanzable.
Qed.

(** C1 as stated fails: a node with the snap prefix is scanned and returned.
    On a node table holding only the node [snap_0] the scan returns it
    whatever the distance function computes; and on the example network the
    nearest node to the snapped reference point is its snap node. *)
Lemma nearest_node_returns_snap_node :
  (∀ L : Libm,
     _encontrar_nodo_mas_cercano (H := L)
       (Some {| nodos := [("snap_0"%string, (0, 0)%Q)]; aristas := [] |}) (0, 0)%Q
     = Some "snap_0"%string) ∧
  alcanzable (H := libm_ejemplo) grafo_integrado ∧
  _encontrar_nodo_mas_cercano (H := libm_ejemplo) (Some grafo_integrado)
    (1 # 2, 1 # 2)%Q = Some "snap_6"%string ∧
  String.prefix "snap_" "snap_6" = true.
Proof.
  split; [intros L; reflexivity|]. split; [apply grafo_integrado_alcanzable|].
  split; by vm_compute.
Qed.

Lemma diagonal_after_preparation_witness :
  (preparar_floyd_warshall sistema_ejemplo).2 = true ∧
  ∃ m i,
    fw (preparar_floyd_warshall sistema_ejemplo).1 = Some m ∧
    nodo_a_indice m !! "snap_6"%string = Some i ∧
    mitem (matriz_distancias m) i i = Ok (Fin 0) ∧
    mitem (matriz_sucesores m) i i = Ok (Some i).
Proof.
  destruct (diagonal_after_preparation sistema_ejemplo grafo_integrado "snap_6")
    as (H1 & m & i & H2 & H3 & H4 & H5 & _).
  - reflexivity.
  - apply pesos_positivos_no_negativos, grafo_integrado_positivo.
  - apply (bool_decide_unpack _). by vm_compute.
  - split; [exact H1|]. exists m, i. auto.
Defined.

Lemma edge_bounds_distance_witness :
  ∃ m i j d,
    fw (preparar_floyd_warshall sistema_ejemplo).1 = Some m ∧
    nodo_a_indice m !! arista_ejemplo.1.1 = Some i ∧
    nodo_a_indice m !! arista_ejemplo.1.2 = Some j ∧
    mitem (matriz_distancias m) i j = Ok d ∧
    dle d (Fin arista_ejemplo.2).
Proof.
  apply (edge_bounds_distance sistema_ejemplo grafo_integrado
           arista_ejemplo.1.1 arista_ejemplo.1.2 arista_ejemplo.2).
  - reflexivity.
  - vm_compute. left.
  - apply (bool_decide_unpack _). by vm_compute.
  - apply (bool_decide_unpack _). by vm_compute.
Defined.

Lemma successor_walk_terminates_witness :
  ∃ camino,
    caminar 7 (matriz_sucesores (preparar_grafo grafo_integrado)) 3 5 [5]
      = Ok (Some (5 :: camino)) ∧
    last (5 :: camino) = Some 3.
Proof.
  apply (successor_walk_terminates sistema_ejemplo grafo_integrado
           "ref_A_B" "node_3" (preparar_grafo grafo_integrado) 5 3 6 7).
  - reflexivity.
  - apply grafo_integrado_positivo.
  - reflexivity.
  - by vm_compute.
  - by vm_compute.
  - by vm_compute.
  - vm_compute. lia.
Defined.



Lemma route_none_iff_witness :
  obtener_ruta 7 (preparar_floyd_warshall sistema_ejemplo).1 "node_3" "ref_A_B"
    = Ok None ↔
  sin_ruta (preparar_floyd_warshall sistema_ejemplo).1 "node_3" "ref_A_B".
Proof.
  apply route_none_iff.
  apply (preparar_valido sistema_ejemplo grafo_integrado eq_refl).
  apply grafo_integrado_positivo.
Defined.

(** On the example network a point far from every way is connected by edges
    of 0.5 km as a reference and of the full connection distance as a
    service. *)
Lemma reference_edges_capped_witness :
  (∃ g2 new_node d_conn g',
     integrar_referencia (H := libm_ejemplo) grafo_ejemplo
       ("A B"%string, (1 # 2, 1 # 2)) = Ok g' ∧
     aristas g' =
       aristas g2 ++ [("ref_A_B"%string, new_node, Qmin d_conn 0.5);
                      (new_node, "ref_A_B"%string, Qmin d_conn 0.5)] ∧
     (0.5 < d_conn)%Q ∧ (Qmin d_conn 0.5 <= 0.5)%Q) ∧
  (∃ g2 new_node d_conn g',
     integrar_servicio (H := libm_ejemplo) grafo_ejemplo
       {| nombre := "A B"; tipo := "Hospital"; coordenadas := (1 # 2, 1 # 2);
          telefono := ""; especialidad := ""; zona := "" |} = Ok g' ∧
     aristas g' =
       aristas g2 ++ [("servicio_A_B"%string, new_node, d_conn);
                      (new_node, "servicio_A_B"%string, d_conn)] ∧
     (0.5 < d_conn)%Q).
Proof.
  split.
  - assert (HE : ∃ g2 new_node d_conn,
               _split_edge_and_connect_point (H := libm_ejemplo)
                 (con_nodo "ref_A_B" (1 # 2, 1 # 2) grafo_ejemplo)
                 (1 # 2, 1 # 2) "snap" = Ok (g2, Some (new_node, d_conn)) ∧
               (0.5 < d_conn)%Q)
      by (vm_compute; by repeat eexists).
    destruct HE as (g2 & new_node & d_conn & E & Hd).
    exists g2, new_node, d_conn.
    destruct (proj1 (reference_edges_capped (H := libm_ejemplo))
                grafo_ejemplo "A B"%string (1 # 2, 1 # 2) g2 new_node d_conn E)
      as (g' & H1 & _ & H2 & H3).
    exists g'. split; [exact H1|]. split; [exact H2|]. split; [exact Hd|exact H3].
  - assert (HE : ∃ g2 new_node d_conn,
               _split_edge_and_connect_point (H := libm_ejemplo)
                 (con_nodo "servicio_A_B" (1 # 2, 1 # 2) grafo_ejemplo)
                 (1 # 2, 1 # 2) "snap" = Ok (g2, Some (new_node, d_conn)) ∧
               (0.5 < d_conn)%Q)
      by (vm_compute; by repeat eexists).
    destruct HE as (g2 & new_node & d_conn & E & Hd).
    exists g2, new_node, d_conn.
    destruct (proj2 (reference_edges_capped (H := libm_ejemplo)) grafo_ejemplo
                {| nombre := "A B"; tipo := "Hospital";
                   coordenadas := (1 # 2, 1 # 2);
                   telefono := ""; especialidad := ""; zona := "" |}
                g2 new_node d_conn E) as (g' & H1 & _ & H2).
    exists g'. split; [exact H1|]. split; [exact H2|exact Hd].
Defined.

(** * Further properties *)

(** Walks, totality and symmetry of the prepared engine *)

Lemma deq_refl a : deq a a.
Proof. by destruct a. Qed.

Lemma dle_sum_le a b c x y :
  dle a (dplus b c) → dle b (Fin x) → dle c (Fin y) → dle a (Fin (x + y)).
Proof. intros. ext_arith. Qed.

Lemma relax_sim ak ka kb bk ab ba :
  deq ak ka → deq kb bk → deq ab ba → deq (relax ak kb ab) (relax bk ka ba).
Proof. intros. ext_arith. Qed.

Lemma mapM_total {A B} (P : B → Prop) (f : A → res B) l :
  Forall (λ x, ∃ y, f x = Ok y ∧ P y) l →
  ∃ l', mapM f l = Ok l' ∧ Forall P l'.
Proof.
  induction 1 as [|x l (y & E & Hy) _ (l' & El & Hl)]; simpl.
  - by exists [].
  - rewrite E. simpl. rewrite El. simpl. exists (y :: l'). by split; [|constructor].
Qed.

Lemma caminar_prefijo fuel suc j a ruta l :
  caminar fuel suc j a ruta = Ok (Some l) → ∃ c, l = ruta ++ c.
Proof.
  revert a ruta. induction fuel as [|fuel IH]; intros a ruta; simpl.
  - destruct (decide (a = j)); [|done]. intros [= <-]. exists []. by rewrite app_nil_r.
  - destruct (decide (a = j)).
    + intros [= <-]. exists []. by rewrite app_nil_r.
    + destruct (mitem suc a j) as [[b|]| |]; simpl; try done.
      intros (c & ->)%IH. exists (b :: c). by rewrite <- app_assoc.
Qed.

Lemma consecutivos_recorrido ars (l : list string) pesos u v :
  Forall2 (λ (uv : string * string) x, (uv.1, uv.2, x) ∈ ars)
          (consecutivos l) pesos →
  head l = Some u → last l = Some v →
  ∃ t, recorrido ars u v t.
Proof.
  revert pesos u. induction l as [|a l IH]; intros pesos u Hf Hh Hl; [done|].
  injection Hh as ->. destruct l as [|b l].
  - injection Hl as ->. exists 0%Q. constructor.
  - change (consecutivos (u :: b :: l)) with ((u, b) :: consecutivos (b :: l)) in Hf.
    apply Forall2_cons_inv_l in Hf as (x & ps & Hx & Hf & ->).
    rewrite last_cons_cons in Hl.
    destruct (IH ps b Hf eq_refl Hl) as (t & Ht).
    exists (x + t)%Q. by econstructor.
Qed.

Section Recorridos.
Variable g : Grafo.
Hypothesis Hg : pesos_no_negativos g.
Hypothesis Hc : cerrado (nodos g) (aristas g).

Let claves := dict_keys (nodos g).
Let n := length claves.
Let idx := mk_nodo_a_indice claves.
Let w := matrices_iniciales n idx (aristas g).
Let st := floyd_warshall n w.

(** A walk bounds the entry of the distance matrix, which is therefore
    finite. *)
Lemma distancia_bajo_recorrido u v t :
  recorrido (aristas g) u v t → u ∈ claves →
  ∃ i j, idx !! u = Some i ∧ idx !! v = Some j ∧ i < n ∧ j < n ∧
         dle (dv st i j) (Fin t).
Proof.
  pose proof (st_inv g Hg) as [(Hdim & Hdiag & _) _ _ Hbajo Htri].
  fold claves n idx w st in Hdiag, Hbajo, Htri.
  induction 1 as [u|u v z x y Hin Hr IH]; intros Hu.
  - destruct (idx_clave g u Hu) as (i & Hi & Hlt). exists i, i.
    repeat split; try done. destruct (Hdiag i Hlt) as [-> _]. simpl. lra.
  - destruct (Hc u v x Hin) as [_ Hv].
    destruct (IH Hv) as (m & j & Hm & Hj & Hmn & Hjn & Hle).
    destruct (idx_clave g u Hu) as (i & Hi & Hlt). exists i, j.
    repeat split; try done.
    eapply dle_sum_le; [by apply (Htri i j m)| |exact Hle].
    eapply dle_trans; [by apply Hbajo|]. by apply (w_bajo g u v x).
Qed.

End Recorridos.

Section RutaTotal.
Variable g : Grafo.
Hypothesis Hg : pesos_positivos g.

Let claves := dict_keys (nodos g).
Let n := length claves.
Let idx := mk_nodo_a_indice claves.
Let w := matrices_iniciales n idx (aristas g).
Let st := floyd_warshall n w.

(** Every index on a walk of initial edges is the index of a node. *)
Lemma saltos_indices cur camino :
  cur < n → (∃ u, idx !! u = Some cur) → saltos_ok n w cur camino →
  Forall (λ a, ∃ u, idx !! u = Some a) (cur :: camino).
Proof.
  revert cur. induction camino as [|s c IH]; intros cur Hcur Hu Hok.
  - by repeat constructor.
  - destruct Hok as (Hne & Hs & [x Hx] & Hok). constructor; [done|].
    apply IH; [done| |done].
    destruct (w_fuera_diag g (pesos_positivos_no_negativos g Hg) cur s Hcur Hs Hne)
      as [[E _]|(x' & u' & v' & _ & _ & _ & _ & Hv')];
      [fold claves n idx w in E; congruence|].
    by exists v'.
Qed.

(** With the graph it was prepared from still loaded, and one unit of fuel
    per node, the route query raises nothing and does not run out of fuel. *)
Lemma obtener_ruta_total (s : Sistema) fuel origen destino :
  fw_preparado s = true → fw s = Some (preparar_grafo g) →
  red_vial s = Some g → n ≤ fuel →
  ∃ o, obtener_ruta fuel s origen destino = Ok o.
Proof.
  intros Hprep Hfw Hrv Hfuel. unfold obtener_ruta. rewrite Hprep, Hfw, Hrv. simpl.
  fold claves n idx w st.
  destruct (idx !! origen) as [i|] eqn:Ei; [|by eexists].
  destruct (idx !! destino) as [j|] eqn:Ej; [|by eexists].
  pose proof (idx_lt g _ _ Ei) as Hin. pose proof (idx_lt g _ _ Ej) as Hjn.
  pose proof (st_inv g (pesos_positivos_no_negativos g Hg)) as Hinv.
  fold claves n idx w st in Hin, Hjn, Hinv.
  pose proof Hinv as [((HD & HS) & _) Hfin _ _ _].
  rewrite (mitem_mget n None _ _ _ HS Hin Hjn). fold (sv st i j). simpl.
  destruct (sv st i j) as [a|] eqn:Ea; [|by eexists].
  assert (Hne : dv st i j ≠ Inf).
  { intros E. apply Hfin in E; [congruence|done..]. }
  destruct (caminar_spec n w st Hinv (w_positivo g Hg) j fuel i [i] Hin Hjn Hne)
    as [[_ Hlt]|(camino & -> & Hlast & Hok & Hpeso)];
    unfold mbind, res_bind; cbv beta iota.
  { pose proof (medida_le n st j i). lia. }
  change ([i] ++ camino) with (i :: camino).
  destruct (mapM_total (λ u, u ∈ claves)
              (λ a, gmap_item a (mk_indice_a_nodo idx)) (i :: camino))
    as (nds & -> & Hnds).
  { eapply Forall_impl; [apply saltos_indices; eauto|].
    intros a0 [u Hu]. exists u. unfold gmap_item.
    pose proof (indice_idx g u a0 Hu) as E. fold claves idx in E.
    rewrite E. split; [done|].
    apply mk_nodo_a_indice_lookup in Hu. by eapply list_elem_of_lookup_2. }
  match goal with |- context [mapM ?f nds] =>
    destruct (mapM_total (λ _, True) f nds) as (cs & -> & _) end.
  { eapply Forall_impl; [exact Hnds|]. intros u Hu.
    destruct (dict_item_in u (nodos g) Hu) as [c ->]. by eexists. }
  rewrite (mitem_mget n Inf _ _ _ HD Hin Hjn). by eexists.
Qed.

Lemma ruta_extremos (s : Sistema) fuel origen destino r :
  fw_preparado s = true → fw s = Some (preparar_grafo g) →
  obtener_ruta fuel s origen destino = Ok (Some r) →
  head (ruta_nodos r) = Some origen ∧ last (ruta_nodos r) = Some destino ∧
  ∃ i j pesos,
    idx !! origen = Some i ∧ idx !! destino = Some j ∧
    distancia_km r = dv st i j ∧
    Forall2 (λ (uv : string * string) x,
               peso_minimo_de (aristas g) uv.1 uv.2 x)
            (consecutivos (ruta_nodos r)) pesos.
Proof.
  intros Hprep Hfw Hr.
  pose proof (obtener_ruta_preparado g Hg s fuel origen destino Hprep Hfw) as Hspec.
  rewrite Hr in Hspec.
  destruct Hspec as (i & j & camino & Hi & Hj & _ & Hf & Hlast & Hok & Hpeso
                     & Hd & Hdk).
  pose proof (idx_lt g _ _ Hi) as Hin.
  pose proof (indice_idx g _ _ Hi) as Ii. pose proof (indice_idx g _ _ Hj) as Ij.
  split; [|split].
  - apply Forall2_cons_inv_l in Hf as (u & k' & Hu & _ & ->). simpl. congruence.
  - apply Forall2_last in Hf. rewrite Hlast in Hf.
    inversion Hf as [? y Hy|]; subst. congruence.
  - destruct (camino_nodos g Hg i camino (ruta_nodos r) Hin Hok Hf)
      as (pesos & Hp).
    by exists i, j, pesos.
Qed.

End RutaTotal.

(** X4. On the system prepared from its loaded graph, with positive
    weights and one unit of fuel per node, the route query returns for every
    pair of ids: it raises nothing and does not run out of fuel. *)
Theorem route_query_never_raises (s : Sistema) (g : Grafo)
    (origen destino : string) (fuel : nat) :
  red_vial s = Some g →
  pesos_positivos g →
  length (nodos g) ≤ fuel →
  ∃ o, obtener_ruta fuel (preparar_floyd_warshall s).1 origen destino = Ok o.
Proof.
  intros Hrv Hg Hfuel. unfold preparar_floyd_warshall. rewrite Hrv. cbn [fst].
  apply (obtener_ruta_total g Hg); try done.
  unfold dict_keys. by rewrite length_fmap.
Qed.

(** X5. On the system prepared from a graph with positive weights whose
    edges join nodes of the node table, with one unit of fuel per node, the
    route query from a node of the graph returns a route exactly when some
    walk along edges leads from the origin to the destination. *)
Theorem route_exists_iff_walk (s : Sistema) (g : Grafo)
    (origen destino : string) (fuel : nat) :
  red_vial s = Some g →
  pesos_positivos g →
  cerrado (nodos g) (aristas g) →
  origen ∈ dict_keys (nodos g) →
  length (nodos g) ≤ fuel →
  (∃ r, obtener_ruta fuel (preparar_floyd_warshall s).1 origen destino = Ok (Some r))
  ↔ (∃ t, recorrido (aristas g) origen destino t).
Proof.
  intros Hrv Hg Hc Hu Hfuel. unfold preparar_floyd_warshall. rewrite Hrv. cbn [fst].
  match goal with |- context [obtener_ruta _ ?s' _ _] => set (s1 := s') end.
  split.
  - intros [r Hr].
    destruct (ruta_extremos g Hg s1 fuel origen destino r eq_refl eq_refl Hr)
      as (Hh & Hl & i & j & pesos & Hi & Hj & Hd & Hp).
    destruct (consecutivos_recorrido (aristas g) (ruta_nodos r) pesos origen destino)
      as (t0 & Ht0); [|done|done|by exists t0].
    eapply Forall2_impl; [exact Hp|]. by intros uv x [? _].
  - intros [t Ht].
    destruct (distancia_bajo_recorrido g (pesos_positivos_no_negativos g Hg) Hc
                origen destino t Ht Hu) as (i & j & Hi & Hj & Hin & Hjn & Hle).
    destruct (obtener_ruta_total g Hg s1 fuel origen destino eq_refl eq_refl eq_refl)
      as [[r|] Ho]; [unfold dict_keys; by rewrite length_fmap|by exists r|].
    exfalso.
    pose proof (obtener_ruta_preparado g Hg s1 fuel origen destino eq_refl eq_refl)
      as Hspec.
    rewrite Ho in Hspec.
    destruct Hspec as [E|[E|(i' & j' & Hi' & Hj' & Hs)]]; [congruence..|].
    assert (i' = i) as -> by congruence. assert (j' = j) as -> by congruence.
    pose proof (st_inv g (pesos_positivos_no_negativos g Hg))
      as [((_ & HS) & _) Hfin _ _ _].
    rewrite (mitem_mget _ None _ _ _ HS Hin Hjn) in Hs. injection Hs as Hs.
    apply Hfin in Hs; [|done..]. rewrite Hs in Hle. done.
Qed.

Lemma dict_get_Some_keys {V} k (d : dict V) c :
  dict_get k d = Some c → k ∈ dict_keys d.
Proof.
  intros E. destruct (decide (k ∈ dict_keys d)) as [|Hn]; [done|].
  apply dict_get_None_keys in Hn. congruence.
Qed.

(** X6. After preparing a graph with no negative weight, the route from a
    node of the graph to itself is the single node, with its coordinates as
    [lon, lat], distance 0 and time 0, whatever the fuel. *)
Theorem route_to_itself (s : Sistema) (g : Grafo) (nodo : string)
    (lat lon : Q) (fuel : nat) :
  red_vial s = Some g →
  pesos_no_negativos g →
  dict_get nodo (nodos g) = Some (lat, lon) →
  obtener_ruta fuel (preparar_floyd_warshall s).1 nodo nodo
  = Ok (Some {| ruta_nodos := [nodo];
                ruta_coordenadas := [(lon, lat)];
                distancia_km := Fin 0;
                tiempo_min := Fin (0 / 25 * 60) |}).
Proof.
  intros Hrv Hg Hnodo. unfold preparar_floyd_warshall. rewrite Hrv. cbn [fst].
  destruct (idx_clave g nodo (dict_get_Some_keys _ _ _ Hnodo)) as (i & Hi & Hin).
  pose proof (st_inv g Hg) as [((HD & HS) & Hdiag & _) _ _ _ _].
  destruct (Hdiag i Hin) as [Ed Es].
  unfold obtener_ruta. simpl. rewrite Hi.
  rewrite (mitem_mget _ None _ _ _ HS Hin Hin).
  unfold sv in Es. rewrite Es. simpl.
  assert (caminar fuel (floyd_warshall (length (dict_keys (nodos g)))
            (matrices_iniciales (length (dict_keys (nodos g)))
               (mk_nodo_a_indice (dict_keys (nodos g))) (aristas g))).2 i i [i]
          = Ok (Some [i])) as ->.
  { destruct fuel; simpl; by rewrite decide_True. }
  simpl. unfold gmap_item. rewrite (indice_idx g nodo i Hi). simpl.
  unfold dict_item. rewrite Hnodo. simpl.
  rewrite (mitem_mget _ Inf _ _ _ HD Hin Hin).
  unfold dv in Ed. rewrite Ed. done.
Qed.

(** X7. In every state, a returned route has at least one node; its time
    is its distance divided by 25 km/h, in minutes; its coordinates are, node
    by node, the stored (lat, lon) of the route's nodes written as (lon, lat);
    and the map view's swap gives back the stored (lat, lon). *)
Theorem route_record_format (s : Sistema) (origen destino : string)
    (fuel : nat) (r : Ruta) :
  obtener_ruta fuel s origen destino = Ok (Some r) →
  tiempo_min r = tiempo (distancia_km r) ∧
  ruta_nodos r ≠ [] ∧
  ∃ g, red_vial s = Some g ∧
    Forall2 (λ nodo (c : Q * Q), dict_get nodo (nodos g) = Some (c.2, c.1))
            (ruta_nodos r) (ruta_coordenadas r) ∧
    Forall2 (λ nodo c, dict_get nodo (nodos g) = Some c)
            (ruta_nodos r) (coords_line (ruta_coordenadas r)).
Proof.
  unfold obtener_ruta. destruct (negb (fw_preparado s)); [done|].
  destruct (fw s) as [m|]; [|done].
  destruct (nodo_a_indice m !! origen) as [i|]; [|done].
  destruct (nodo_a_indice m !! destino) as [j|]; [|done].
  destruct (mitem (matriz_sucesores m) i j) as [[a|]| |]; simpl; try done.
  destruct (caminar fuel (matriz_sucesores m) j i [i]) as [[ruta|]| |] eqn:Ec;
    simpl; try done.
  apply caminar_prefijo in Ec as [c ->].
  destruct (mapM (B := string) _ ([i] ++ c)) as [nds| |] eqn:En; simpl; try done.
  destruct (mapM (B := Q * Q) _ nds) as [cs| |] eqn:Ecs; simpl; try done.
  destruct (mitem (matriz_distancias m) i j) as [d| |]; simpl; try done.
  intros [= <-]. simpl. split; [done|].
  apply mapM_Forall2 in En. apply mapM_Forall2 in Ecs.
  assert (nds ≠ []) as Hne.
  { intros ->. by apply Forall2_nil_inv_r in En. }
  split; [done|].
  destruct (red_vial s) as [g|].
  2:{ destruct nds; [done|]. by apply Forall2_cons_inv_l in Ecs as (? & ? & ? & _). }
  exists g. split; [done|].
  assert (Hf : Forall2 (λ nodo (c0 : Q * Q),
                 dict_get nodo (nodos g) = Some (c0.2, c0.1)) nds cs).
  { eapply Forall2_impl; [exact Ecs|]. intros nodo c0. unfold dict_item.
    destruct (dict_get nodo (nodos g)) as [[lat lon]|]; simpl; [|done].
    by intros [= <-]. }
  split; [done|]. unfold coords_line. by apply Forall2_fmap_r.
Qed.

Section Simetria.
Variable g : Grafo.
Hypothesis Hg : pesos_no_negativos g.
Hypothesis Hs : simetrico (aristas g).

Let claves := dict_keys (nodos g).
Let n := length claves.
Let idx := mk_nodo_a_indice claves.
Let w := matrices_iniciales n idx (aristas g).
Let st := floyd_warshall n w.

Definition sim (n : nat) (st : FW) : Prop :=
  ∀ a b, a < n → b < n → deq (dv st a b) (dv st b a).

Lemma w_sim : sim n w.
Proof.
  intros a b Ha Hb. destruct (decide (a = b)) as [->|Hab]; [apply deq_refl|].
  assert (Hdir : ∀ a b x, a < n → b < n → a ≠ b →
            dv w a b = Fin x → dle (dv w b a) (Fin x)).
  { intros a0 b0 x Ha0 Hb0 Hne Hx.
    destruct (w_fuera_diag g Hg a0 b0 Ha0 Hb0 Hne)
      as [[E _]|(x' & u & v & E & _ & Hin & Hu & Hv)];
      fold claves n idx w in E; [congruence|].
    rewrite Hx in E. injection E as <-.
    apply (w_bajo g v u x); [by apply Hs|done..]. }
  destruct (dv w a b) as [x|] eqn:E1, (dv w b a) as [y|] eqn:E2; simpl; try done.
  - pose proof (Hdir a b x Ha Hb Hab E1) as H1. rewrite E2 in H1.
    pose proof (Hdir b a y Hb Ha (not_eq_sym Hab) E2) as H2. rewrite E1 in H2.
    simpl in *. lra.
  - pose proof (Hdir a b x Ha Hb Hab E1) as H1. by rewrite E2 in H1.
  - pose proof (Hdir b a y Hb Ha (not_eq_sym Hab) E2) as H2. by rewrite E1 in H2.
Qed.

Lemma sim_paso k o :
  fw_base n o → sim n o → k < n → sim n (relajar_k n o k).
Proof.
  intros Hbase Ho Hk. pose proof Hbase as (Hdim & Hdiag & _).
  destruct (Hdiag k Hk) as [Hkk _].
  destruct (relajar_k_spec n k o Hk Hkk Hdim) as [_ Hv].
  intros a b Ha Hb. destruct (Hv a b Ha Hb) as [-> _].
  destruct (Hv b a Hb Ha) as [-> _]. unfold paso_d.
  apply relax_sim; by apply Ho.
Qed.

Lemma st_sim : sim n st.
Proof.
  assert (fw_inv n w n st ∧ sim n st) as [_ H]; [|done].
  unfold st, floyd_warshall.
  apply (fold_seq_inv (λ k s, fw_inv n w k s ∧ sim n s)).
  - split; [|apply w_sim]. apply init_fw_inv; [apply idx_lt|exact Hg].
  - intros k s Hk [Hinv Hsim]. split; [by apply fw_inv_paso|].
    apply sim_paso; [apply Hinv|done..].
Qed.

End Simetria.

(** X8. After preparing a graph with no negative weight in which every
    edge has its reverse with the same weight, the distance entries of two
    nodes are equal in both directions. *)
Theorem symmetric_graph_symmetric_distances (s : Sistema) (g : Grafo)
    (u v : string) :
  red_vial s = Some g →
  pesos_no_negativos g →
  simetrico (aristas g) →
  u ∈ dict_keys (nodos g) → v ∈ dict_keys (nodos g) →
  ∃ m i j d d',
    fw (preparar_floyd_warshall s).1 = Some m ∧
    nodo_a_indice m !! u = Some i ∧
    nodo_a_indice m !! v = Some j ∧
    mitem (matriz_distancias m) i j = Ok d ∧
    mitem (matriz_distancias m) j i = Ok d' ∧
    deq d d'.
Proof.
  intros Hrv Hg Hs Hu Hv. unfold preparar_floyd_warshall. rewrite Hrv. simpl.
  destruct (idx_clave g u Hu) as (i & Hi & Hin).
  destruct (idx_clave g v Hv) as (j & Hj & Hjn).
  pose proof (st_inv g Hg) as [((HD & _) & _) _ _ _ _].
  exists (preparar_grafo g), i, j. do 2 eexists.
  split; [done|]. split; [exact Hi|]. split; [exact Hj|]. simpl.
  rewrite !(mitem_mget _ Inf _ _ _ HD) by done.
  repeat split; try done. by apply (st_sim g Hg Hs).
Qed.

(** Node ids of the builder *)

(** A prefix-aware invariant of a monadic fold. *)
Lemma foldM_prefix_inv {A B} (P : list A → B → Prop) (f : B → A → res B) l b b' :
  P [] b →
  (∀ l1 x s s', x ∈ l → P l1 s → f s x = Ok s' → P (l1 ++ [x]) s') →
  foldM f l b = Ok b' → P l b'.
Proof.
  intros H0 Hstep.
  cut (∀ l1 l2 s, l = l1 ++ l2 → P l1 s → foldM f l2 s = Ok b' → P l b').
  { intros Hc. by apply (Hc [] l b). }
  intros l1 l2. revert l1. induction l2 as [|x l2 IH]; intros l1 s El Hs; simpl.
  - intros [= <-]. by rewrite El, app_nil_r.
  - destruct (f s x) as [s1| |] eqn:E; simpl; try done.
    apply (IH (l1 ++ [x])); [by rewrite <- app_assoc|].
    eapply Hstep; [|done|done]. rewrite El. apply elem_of_app. right. by left.
Qed.

Lemma foldM_inv_in {A B} (P : B → Prop) (f : B → A → res B) l :
  (∀ b x b', x ∈ l → P b → f b x = Ok b' → P b') →
  ∀ b b', P b → foldM f l b = Ok b' → P b'.
Proof.
  intros Hf b b' Hb.
  apply (foldM_prefix_inv (λ _, P)); [done|]. intros l1 x s s' Hx. by apply Hf.
Qed.

Lemma dict_get_app_r {V} k (d d' : dict V) :
  dict_get k d = None → dict_get k (d ++ d') = dict_get k d'.
Proof.
  induction d as [|[k0 v0] d IH]; simpl; [done|].
  destruct (decide (k = k0)); [done|apply IH].
Qed.

Lemma id_nodo_inj c c' : id_nodo c = id_nodo c' → c = c'.
Proof. unfold id_nodo. intros E. injection E as E. by apply pretty_nat_inj in E. Qed.

Section Identificadores.
Context `{Libm}.

Lemma tabla_vacia_bien : tabla_bien tabla_vacia.
Proof.
  split; [done|]. split.
  - intros key id. simpl. by rewrite lookup_empty.
  - intros k1 k2 id. simpl. by rewrite lookup_empty.
Qed.

Lemma tabla_bien_valores t key id :
  tabla_bien t → t_coord_to_id t !! key = Some id →
  ∃ c, c < t_counter t ∧ id = id_nodo c.
Proof.
  intros (Hk & Hv & _) Hid. destruct (Hv key id Hid) as (p & Hp & _).
  apply dict_get_Some_keys in Hp. rewrite Hk in Hp.
  apply list_elem_of_fmap in Hp as (c & -> & Hc%elem_of_seq). exists c.
  split; [lia|done].
Qed.

Lemma visitar_punto_bien step len st ip :
  tabla_bien st.1 → tabla_bien (visitar_punto step len st ip).1.
Proof.
  destruct st as [t wn], ip as [i punto]. simpl. intros Ht.
  destruct (saltar step len i); [done|].
  destruct (t_coord_to_id t !! coord_key punto) as [id|] eqn:E; [done|]. simpl.
  pose proof Ht as (Hk & Hv & Hinj).
  assert (Hfresh : dict_get (id_nodo (t_counter t)) (t_nodos t) = None).
  { apply dict_get_None_keys. rewrite Hk.
    intros (c & Ec%id_nodo_inj & Hc%elem_of_seq)%list_elem_of_fmap. lia. }
  fold (id_nodo (t_counter t)). rewrite (dict_set_fresh _ _ _ Hfresh).
  split; [|split]; cbn [t_nodos t_counter t_coord_to_id fst].
  - unfold dict_keys in *. rewrite fmap_app, Hk, seq_S, fmap_app. done.
  - intros key id. destruct (decide (coord_key punto = key)) as [<-|Hne].
    + rewrite lookup_insert_eq. intros [= <-]. exists punto. split; [|done].
      rewrite dict_get_app_r by done. simpl. by rewrite decide_True.
    + rewrite lookup_insert_ne by done. intros (p & Hp & Hkey)%Hv.
      exists p. split; [|done]. by apply dict_get_app_l.
  - intros k1 k2 id.
    destruct (decide (coord_key punto = k1)) as [<-|Hn1];
      destruct (decide (coord_key punto = k2)) as [<-|Hn2]; [done|..].
    + rewrite lookup_insert_eq, lookup_insert_ne by done. intros [= <-] H2.
      destruct (tabla_bien_valores t _ _ Ht H2) as (c & Hc & Ec%id_nodo_inj). lia.
    + rewrite lookup_insert_eq, lookup_insert_ne by done. intros H1 [= <-].
      destruct (tabla_bien_valores t _ _ Ht H1) as (c & Hc & Ec%id_nodo_inj). lia.
    + rewrite !lookup_insert_ne by done. apply Hinj.
Qed.

Lemma crear_nodos_bien step geometry t :
  tabla_bien t → tabla_bien (crear_nodos step geometry t).1.
Proof.
  unfold crear_nodos. generalize (@nil string) as wn.
  generalize (length geometry) as len.
  generalize (enumerate geometry) as l. intros l. revert t.
  induction l as [|ip l IH]; intros t len wn Hok; cbn [fold_left]; [done|].
  destruct (visitar_punto step len (t, wn) ip) as [t1 wn1] eqn:E.
  apply IH. change t1 with (t1, wn1).1. rewrite <- E.
  by apply visitar_punto_bien.
Qed.

Lemma procesar_elemento_bien step st el st' :
  tabla_bien st.1 → procesar_elemento step st el = Ok st' → tabla_bien st'.1.
Proof.
  destruct st as [t ars]. simpl. intros Ht. unfold procesar_elemento.
  destruct (negb (es_way el)); [intros ?; by simplify_eq|].
  pose proof (crear_nodos_bien step (default [] (el_geometry el)) t Ht) as Hc.
  destruct (crear_nodos _ _ t) as [t' wn].
  destruct (foldM (emitir_arista _ _) _ _); simpl; try done.
  intros ?. by simplify_eq.
Qed.

End Identificadores.

(** X9. For every list of elements the builder returns a graph whose node
    table lists the ids node_0, node_1, ..., node_(k-1) in this order, k
    being the number of nodes; the ids are pairwise different. *)
Theorem builder_ids_are_sequential `{Libm} (elements : list Elemento) :
  ∃ g k,
    procesar_red_osm elements = Ok g ∧
    dict_keys (nodos g) = (λ c : nat, "node_" +:+ pretty c) <$> seq 0 k ∧
    length (nodos g) = k ∧
    NoDup (dict_keys (nodos g)).
Proof.
  destruct (procesar_red_osm_total elements) as (g & Hg & _).
  exists g. revert Hg. unfold procesar_red_osm.
  destruct (foldM _ _ _) as [[t ars]| |] eqn:E; simpl; try done.
  intros [= <-]. simpl.
  assert (Ht : tabla_bien (t, ars).1).
  { eapply (foldM_inv (λ st : Tablas * list Arista, tabla_bien st.1)); [| |exact E].
    - intros b x b'. apply procesar_elemento_bien.
    - apply tabla_vacia_bien. }
  destruct Ht as (Hk & _). simpl in Hk. exists (t_counter t).
  split; [done|]. split; [exact Hk|]. split.
  - unfold dict_keys in Hk. apply (f_equal length) in Hk.
    by rewrite !length_fmap, length_seq in Hk.
  - rewrite Hk. apply NoDup_fmap_2; [|apply NoDup_seq].
    intros c c'. apply id_nodo_inj.
Qed.

(** X10. Starting from tables in the state the builder keeps them (as the
    empty tables are), the node loop of one way leaves the tables in such a
    state; two points it keeps get the same node id exactly when their
    6-decimal coordinate keys are equal; and the coordinates stored for the id
    of a kept point have that point's key. *)
Theorem equal_keys_share_a_node `{Libm} (step : nat) (geometry : list Coord)
    (t : Tablas) (i j : nat) (p q : nat * Coord) (a b : string) :
  tabla_bien t →
  puntos_conservados step geometry !! i = Some p →
  puntos_conservados step geometry !! j = Some q →
  (crear_nodos step geometry t).2 !! i = Some a →
  (crear_nodos step geometry t).2 !! j = Some b →
  tabla_bien (crear_nodos step geometry t).1 ∧
  (a = b ↔ coord_key p.2 = coord_key q.2) ∧
  ∃ p0, dict_get a (t_nodos (crear_nodos step geometry t).1) = Some p0 ∧
        coord_key p0 = coord_key p.2.
Proof.
  intros Ht Hp Hq Ha Hb.
  pose proof (crear_nodos_bien step geometry t Ht) as Ht'.
  split; [done|]. unfold crear_nodos in *.
  destruct (visitar_punto_fold step (length geometry) (enumerate geometry) t [])
    as (wn' & E1 & _ & E3).
  rewrite E1 in Ha, Hb. simpl in Ha, Hb. fold (puntos_conservados step geometry) in E3.
  pose proof (Forall2_lookup_lr _ _ _ _ _ _ E3 Hp Ha) as Hpa.
  pose proof (Forall2_lookup_lr _ _ _ _ _ _ E3 Hq Hb) as Hqb.
  cbv beta in Hpa, Hqb. destruct Ht' as (_ & Hv & Hinj). split.
  - split.
    + intros ->. by eapply Hinj.
    + intros Ek. rewrite Ek in Hpa. congruence.
  - by apply Hv.
Qed.

(** Two-way networks *)

Lemma elem_of_dir_set ars u v : (u, v) ∈ dir_set ars ↔ ∃ x, (u, v, x) ∈ ars.
Proof.
  unfold dir_set. rewrite elem_of_list_to_set, list_elem_of_fmap. split.
  - intros ([[a b] x] & [= -> ->] & Hin). by exists x.
  - intros [x Hin]. by exists (u, v, x).
Qed.

Lemma simetrico_app ars nuevas :
  simetrico ars → (∀ u v x, (u, v, x) ∈ nuevas → (v, u, x) ∈ nuevas) →
  simetrico (ars ++ nuevas).
Proof.
  intros Ha Hn u v x [Hin|Hin]%elem_of_app; apply elem_of_app; auto.
Qed.

Lemma par_simetrico (a b : string) (x : Q) u v y :
  (u, v, y) ∈ [(a, b, x); (b, a, x)] → (v, u, y) ∈ [(a, b, x); (b, a, x)].
Proof.
  intros [E|E%list_elem_of_singleton]%elem_of_cons; simplify_eq.
  - right. by left.
  - by left.
Qed.

Section RedDobleVia.
Context `{Libm}.
Local Open Scope Q_scope.

Lemma emitir_arista_simetrico nds ars p ars' :
  simetrico ars → emitir_arista Both nds ars p = Ok ars' → simetrico ars'.
Proof.
  destruct p as [n1 n2]. unfold emitir_arista. intros Hs.
  destruct (decide (n1 = n2)); [by intros [= <-]|].
  destruct (dict_item n1 nds) as [c1| |]; simpl; try done.
  destruct (dict_item n2 nds) as [c2| |]; simpl; try done.
  intros [= <-]. rewrite <- app_assoc. apply simetrico_app; [done|].
  apply par_simetrico.
Qed.

Lemma procesar_elemento_simetrico step st el st' :
  (es_way el = true → dir_mode el = Both) →
  simetrico st.2 → procesar_elemento step st el = Ok st' → simetrico st'.2.
Proof.
  destruct st as [t ars]. unfold procesar_elemento. simpl. intros Hm Hs.
  destruct (es_way el); simpl; [|by intros [= <-]].
  rewrite Hm by done.
  destruct (crear_nodos _ _ _) as [t' way_nodes].
  destruct (foldM _ _ _) as [ars1| |] eqn:E; simpl; try done.
  intros [= <-]. simpl.
  eapply (foldM_inv simetrico); [|exact Hs|exact E].
  intros b x b'. apply emitir_arista_simetrico.
Qed.

Lemma procesar_red_osm_simetrico elements g :
  (∀ el, el ∈ elements → es_way el = true → dir_mode el = Both) →
  procesar_red_osm elements = Ok g → simetrico (aristas g).
Proof.
  intros Hm. unfold procesar_red_osm.
  destruct (foldM _ _ _) as [[t ars]| |] eqn:E; simpl; try done.
  intros [= <-]. simpl. change ars with (t, ars).2.
  eapply (foldM_inv_in (λ st : Tablas * list Arista, simetrico st.2)); [| |exact E].
  - intros b x b' Hx. apply procesar_elemento_simetrico. by apply Hm.
  - intros u v x Hin. by apply elem_of_nil in Hin.
Qed.

Lemma split_simetrico g p pre g' r :
  simetrico (aristas g) →
  _split_edge_and_connect_point g p pre = Ok (g', r) → simetrico (aristas g').
Proof.
  intros Hs. unfold _split_edge_and_connect_point.
  destruct (_nearest_edge_projection (Some g) p) as [[proj|]| |]; simpl; try done.
  2:{ by intros [= <- <-]. }
  destruct proj as [[[[[u v] t] q_lat] q_lon] d].
  destruct (dict_item u _) as [cu| |]; simpl; try done.
  destruct (dict_item v _) as [cv| |]; simpl; try done.
  intros [= <- <-]. simpl.
  assert (Hiff : (u, v) ∈ dir_set (aristas g) ↔ (v, u) ∈ dir_set (aristas g)).
  { rewrite !elem_of_dir_set. split; intros [x Hx]; exists x; by apply Hs. }
  destruct (bool_decide_reflect ((u, v) ∈ dir_set (aristas g))) as [Huv|Huv];
    destruct (bool_decide_reflect ((v, u) ∈ dir_set (aristas g))) as [Hvu|Hvu];
    [|tauto|tauto|done].
  rewrite <- app_assoc. apply simetrico_app; [done|].
  intros a b x Hin. repeat (apply elem_of_cons in Hin as [Hin|Hin]);
    [..|by apply elem_of_nil in Hin]; simplify_eq.
  - do 3 right. by left.
  - do 2 right. by left.
  - right. by left.
  - by left.
Qed.

Lemma integrar_servicio_simetrico g s g' :
  simetrico (aristas g) → integrar_servicio g s = Ok g' → simetrico (aristas g').
Proof.
  intros Hg. unfold integrar_servicio.
  destruct (_split_edge_and_connect_point _ _ _) as [[g2 r]| |] eqn:E; simpl; try done.
  apply split_simetrico in E; [|done].
  destruct r as [[new_node d_conn]|]; [|by intros [= <-]].
  destruct (bool_decide _); intros [= <-]; [|done].
  simpl. apply simetrico_app; [done|]. apply par_simetrico.
Qed.

Lemma integrar_referencia_simetrico g ref g' :
  simetrico (aristas g) → integrar_referencia g ref = Ok g' → simetrico (aristas g').
Proof.
  intros Hg. unfold integrar_referencia. destruct ref as [nom coords].
  destruct (_split_edge_and_connect_point _ _ _) as [[g2 r]| |] eqn:E; simpl; try done.
  apply split_simetrico in E; [|done].
  destruct r as [[new_node d_conn]|]; [|by intros [= <-]].
  destruct (_ && _); intros [= <-]; [|done].
  simpl. apply simetrico_app; [done|]. apply par_simetrico.
Qed.

Lemma integrar_simetrico servicios referencias g g' :
  simetrico (aristas g) →
  _integrar_servicios_en_red servicios referencias (Some g) = Ok (Some g') →
  simetrico (aristas g').
Proof.
  intros Hg. unfold _integrar_servicios_en_red.
  destruct (foldM _ servicios g) as [g1| |] eqn:E1; simpl; try done.
  destruct (foldM _ referencias g1) as [g2| |] eqn:E2; simpl; try done.
  intros [= <-].
  eapply (foldM_inv (λ g, simetrico (aristas g))); [| |exact E2].
  { intros b x b'. apply integrar_referencia_simetrico. }
  eapply (foldM_inv (λ g, simetrico (aristas g))); [|exact Hg|exact E1].
  intros b ks b' Hb Hks.
  eapply (foldM_inv (λ g, simetrico (aristas g))); [|exact Hb|exact Hks].
  intros b0 x b0'. apply integrar_servicio_simetrico.
Qed.

Lemma cargar_red_vial_simetrico servicios referencias elements g :
  (∀ el, el ∈ elements → es_way el = true → dir_mode el = Both) →
  cargar_red_vial servicios referencias elements = Ok (Some g) →
  simetrico (aristas g).
Proof.
  intros Hm. unfold cargar_red_vial.
  destruct (procesar_red_osm elements) as [g0| |] eqn:E; simpl; try done.
  apply integrar_simetrico. by eapply procesar_red_osm_simetrico.
Qed.

End RedDobleVia.

(** X11. When every way of the input is two-way (no one-way tag, no
    roundabout), the loaded graph has, for each edge (u, v, w), the reverse
    edge (v, u, w): the builder, the snapper and the integrator all add edges
    in pairs of equal weight. *)
Theorem two_way_network_is_symmetric `{Libm}
    (servicios : list (string * list ServicioEmergencia))
    (referencias : list (string * Coord)) (elements : list Elemento) :
  (∀ el, el ∈ elements → es_way el = true → dir_mode el = Both) →
  ∃ g, cargar_red_vial servicios referencias elements = Ok (Some g) ∧
       simetrico (aristas g).
Proof.
  intros Hm.
  destruct (cargar_red_vial_total servicios referencias elements) as (g & Hg & _).
  exists g. split; [done|]. by eapply cargar_red_vial_simetrico.
Qed.

(** The snapper and the integrator, edge by edge *)

Section PasoProyeccion.
Context `{Libm}.
Local Open Scope Q_scope.

(** One step of the projection loop: the edge's own projection, with its
    parameter clamped to [0, 1], replaces the best one exactly when it is
    strictly nearer. *)
Lemma proyectar_arista_spec p nds px py best e best' :
  proyectar_arista p nds px py best e = Ok best' →
  ∃ t q_lat q_lon d,
    proyectar_arista p nds px py None e
      = Ok (Some (e.1.1, e.1.2, t, q_lat, q_lon, d)) ∧
    0 <= t ∧ t <= 1 ∧
    best' = (if dltb (Fin d) (best_dist best)
             then Some (e.1.1, e.1.2, t, q_lat, q_lon, d) else best).
Proof.
  destruct e as [[u v] x]. unfold proyectar_arista.
  destruct (dict_item u nds) as [[a_lat a_lon]| |]; [|done..].
  destruct (dict_item v nds) as [[b_lat b_lon]| |]; [|done..].
  unfold mbind, res_bind, _latlon_to_xy, _xy_to_latlon. cbv beta iota zeta.
  destruct (Qle_bool _ _); cbv beta iota zeta.
  - intros E. do 4 eexists. split; [reflexivity|]. split; [lra|]. split; [lra|].
    cbn [fst snd].
    match type of E with (if ?c then _ else _) = _ => destruct c end;
      by injection E as <-.
  - match goal with |- context [Qltb ?a 0] => destruct (Qltb a 0) eqn:E0 end.
    + intros E. do 4 eexists. split; [reflexivity|]. split; [lra|]. split; [lra|].
      cbn [fst snd].
      match type of E with (if ?c then _ else _) = _ => destruct c end;
        by injection E as <-.
    + match goal with |- context [Qltb 1 ?a] => destruct (Qltb 1 a) eqn:E1 end.
      * intros E. do 4 eexists. split; [reflexivity|]. split; [lra|]. split; [lra|].
        cbn [fst snd].
        match type of E with (if ?c then _ else _) = _ => destruct c end;
          by injection E as <-.
      * apply Qltb_ge in E0, E1.
        intros E. do 4 eexists. split; [reflexivity|]. split; [exact E0|].
        split; [exact E1|]. cbn [fst snd].
        match type of E with (if ?c then _ else _) = _ => destruct c end;
          by injection E as <-.
Qed.

End PasoProyeccion.

Section MasCercana.
Context `{Libm}.
Local Open Scope Q_scope.

(** The best projection after the edges [l]. *)
Definition mejor_de (p : Coord) (nds : dict Coord) (px py : Q)
    (l : list Arista) (best : option Proyeccion) : Prop :=
  match best with
  | None => l = []
  | Some (u, v, t, _, _, d) =>
      (∃ x, (u, v, x) ∈ l) ∧ 0 <= t ∧ t <= 1 ∧
      ∀ e pr, e ∈ l →
        proyectar_arista p nds px py None e = Ok (Some pr) → d <= pr.2
  end.

Lemma proyectar_arista_mejor p nds px py l best e best' :
  mejor_de p nds px py l best →
  proyectar_arista p nds px py best e = Ok best' →
  mejor_de p nds px py (l ++ [e]) best'.
Proof.
  intros Hb (t & ql & qo & d & He & Ht0 & Ht1 & ->)%proyectar_arista_spec.
  destruct best as [[[[[[u0 v0] t0] a0] b0] d0]|]; simpl.
  - destruct Hb as ([x0 Hx0] & H0 & H1 & Hmin).
    destruct (Qltb d d0) eqn:E; [apply Qltb_lt in E|apply Qltb_ge in E].
    + split; [|split; [done|split; [done|]]].
      * exists e.2. apply elem_of_app. right. destruct e as [[? ?] ?]. by left.
      * intros e' pr [Hin|Hin%list_elem_of_singleton]%elem_of_app Hpr.
        -- specialize (Hmin e' pr Hin Hpr). lra.
        -- subst e'. rewrite He in Hpr. injection Hpr as <-. simpl. lra.
    + split; [|split; [done|split; [done|]]].
      * exists x0. apply elem_of_app. by left.
      * intros e' pr [Hin|Hin%list_elem_of_singleton]%elem_of_app Hpr.
        -- by apply (Hmin e' pr).
        -- subst e'. rewrite He in Hpr. injection Hpr as <-. simpl. lra.
  - simpl in Hb. subst l. split; [|split; [done|split; [done|]]].
    + exists e.2. destruct e as [[? ?] ?]. by left.
    + intros e' pr Hin%list_elem_of_singleton Hpr. subst e'.
      rewrite He in Hpr. injection Hpr as <-. simpl. lra.
Qed.

End MasCercana.

(** A projection the loop returns is the best one of all the edges. *)
Lemma nearest_edge_projection_mejor `{Libm} (g : Grafo) (p : Coord)
    (pr : Proyeccion) :
  _nearest_edge_projection (Some g) p = Ok (Some pr) →
  mejor_de p (nodos g) (_latlon_to_xy p.1 p.2 p.1).1 (_latlon_to_xy p.1 p.2 p.1).2
           (aristas g) (Some pr).
Proof.
  unfold _nearest_edge_projection.
  destruct (aristas g) as [|e0 ars0] eqn:Ea; [done|].
  rewrite <- Ea. cbv zeta.
  destruct (_latlon_to_xy p.1 p.2 p.1) as [px py] eqn:Exy. cbn [fst snd].
  apply (foldM_prefix_inv (mejor_de p (nodos g) px py)); [done|].
  intros l1 x s s' _. apply proyectar_arista_mejor.
Qed.

(** X12. When the projection loop returns, it answers none exactly when
    no graph is loaded or the graph has no edge.  Otherwise the edge it
    returns is an edge of the graph, the parameter t lies in [0, 1], and the
    returned distance is not above the distance of the point to its
    projection on any edge of the graph. *)
Theorem nearest_edge_projection_is_nearest `{Libm} (rv : option Grafo)
    (p : Coord) (r : option Proyeccion) :
  _nearest_edge_projection rv p = Ok r →
  match r with
  | None => rv = None ∨ ∃ g, rv = Some g ∧ aristas g = []
  | Some (u, v, t, _, _, d) =>
      ∃ g, rv = Some g ∧
        (∃ x, (u, v, x) ∈ aristas g) ∧ (0 <= t)%Q ∧ (t <= 1)%Q ∧
        ∀ e pr, e ∈ aristas g →
          proyectar_arista p (nodos g)
            (_latlon_to_xy p.1 p.2 p.1).1 (_latlon_to_xy p.1 p.2 p.1).2 None e
          = Ok (Some pr) →
          (d <= pr.2)%Q
  end.
Proof.
  intros Hr. destruct rv as [g|].
  2:{ injection Hr as <-. by left. }
  destruct r as [pr|].
  - pose proof (nearest_edge_projection_mejor g p pr Hr) as Hm.
    destruct pr as [[[[[u v] t] a] b] d]. exists g. split; [done|]. exact Hm.
  - right. exists g. split; [done|].
    destruct (aristas g) as [|e0 ars0] eqn:Ea; [done|].
    destruct (nearest_edge_projection_Some g p None) as [pr Hpr];
      [by rewrite Ea|done|done].
Qed.

(** X13. When the snapper connects a point, it splits an edge (u, v) of
    the graph: it appends u -> new and new -> v, and it appends v -> new and
    new -> u exactly when the graph also has an edge from v to u; a one-way
    edge stays one-way. *)
Theorem snapper_preserves_direction `{Libm} (g : Grafo) (p : Coord)
    (pre : string) (g' : Grafo) (new_id : string) (d : Q) :
  _split_edge_and_connect_point g p pre = Ok (g', Some (new_id, d)) →
  ∃ u v d_uq d_qv,
    (∃ x, (u, v, x) ∈ aristas g) ∧
    (((∃ x, (v, u, x) ∈ aristas g) ∧
      aristas g' = aristas g ++ [(u, new_id, d_uq); (new_id, v, d_qv);
                                 (v, new_id, d_qv); (new_id, u, d_uq)]) ∨
     ((∀ x, (v, u, x) ∉ aristas g) ∧
      aristas g' = aristas g ++ [(u, new_id, d_uq); (new_id, v, d_qv)])).
Proof.
  unfold _split_edge_and_connect_point.
  destruct (_nearest_edge_projection (Some g) p) as [[proj|]| |] eqn:En;
    simpl; try done.
  apply nearest_edge_projection_mejor in En.
  destruct proj as [[[[[u v] t] q_lat] q_lon] d0].
  destruct En as (Huv & _).
  destruct (dict_item u _) as [cu| |]; simpl; try done.
  destruct (dict_item v _) as [cv| |]; simpl; try done.
  assert (Hd : (u, v) ∈ dir_set (aristas g)) by (by apply elem_of_dir_set).
  rewrite (bool_decide_eq_true_2 _ Hd).
  intros [= <- <- <-]. cbn [aristas].
  exists u, v. do 2 eexists. split; [done|].
  destruct (bool_decide_reflect ((v, u) ∈ dir_set (aristas g))) as [Hvu|Hvu].
  - left. split; [by apply elem_of_dir_set|]. by rewrite <- app_assoc.
  - right. split; [|done]. intros x Hx. apply Hvu. apply elem_of_dir_set. by exists x.
Qed.

(** Generic postcondition of a monadic fold: what each step establishes for
    its element survives the later steps. *)
Lemma foldM_post {A B} (P : B → Prop) (R : B → B → Prop) (Q : A → B → Prop)
    (f : B → A → res B) l :
  (∀ b, R b b) → (∀ a b c, R a b → R b c → R a c) →
  (∀ x b b', Q x b → R b b' → Q x b') →
  (∀ b x b', P b → f b x = Ok b' → P b' ∧ R b b' ∧ Q x b') →
  ∀ b b', P b → foldM f l b = Ok b' → P b' ∧ R b b' ∧ ∀ x, x ∈ l → Q x b'.
Proof.
  intros Hrefl Htrans Hmono Hstep.
  induction l as [|x l IH]; intros b b' Hb; simpl.
  - intros [= <-]. split; [done|]. split; [done|].
    intros x Hx. by apply elem_of_nil in Hx.
  - destruct (f b x) as [b1| |] eqn:E; simpl; try done. intros Hf.
    destruct (Hstep b x b1 Hb E) as (Hb1 & HR1 & HQ1).
    destruct (IH b1 b' Hb1 Hf) as (Hb' & HR' & HQ').
    split; [done|]. split; [by eapply Htrans|].
    intros y [->|Hy]%elem_of_cons; [by eapply Hmono|by apply HQ'].
Qed.

Lemma crece_refl g : crece g g.
Proof. by split; [|split]. Qed.

Lemma crece_trans a b c : crece a b → crece b c → crece a c.
Proof.
  intros (H1 & H2 & H3) (H4 & H5 & H6). split; [|split]; auto.
Qed.

Lemma enlazado_crece id cota g g' :
  enlazado id cota g → crece g g' → enlazado id cota g'.
Proof.
  intros [Hk He] (Hc1 & Hc2 & Hc3). split; [by apply Hc1|].
  intros Hne'. destruct (aristas g) as [|e l] eqn:Ea; [by destruct Hne'; auto|].
  destruct He as (otro & d & H1 & H2 & H3 & H4); [done|].
  exists otro, d. repeat split; auto.
Qed.

Section Enlaces.
Context `{Libm}.
Local Open Scope Q_scope.

Lemma split_sin_aristas g p pre :
  aristas g = [] → _split_edge_and_connect_point g p pre = Ok (g, None).
Proof.
  intros Ea. unfold _split_edge_and_connect_point, _nearest_edge_projection.
  by rewrite Ea.
Qed.

Lemma split_crece g p pre g' r :
  _split_edge_and_connect_point g p pre = Ok (g', r) →
  crece g g' ∧
  (aristas g = [] → r = None) ∧
  (aristas g ≠ [] →
   ∃ d, r = Some (pre +:+ "_" +:+ pretty (length (nodos g)), d) ∧
        pre +:+ "_" +:+ pretty (length (nodos g)) ∈ dict_keys (nodos g') ∧
        0.01 <= d).
Proof.
  intros Hs. destruct (aristas g) as [|e0 l0] eqn:Ea.
  { rewrite split_sin_aristas in Hs by done. simplify_eq.
    split; [apply crece_refl|]. by split. }
  assert (Hr : is_Some r).
  { revert Hs. unfold _split_edge_and_connect_point.
    destruct (_nearest_edge_projection (Some g) p) as [r0| |] eqn:En; simpl; try done.
    apply nearest_edge_projection_Some in En as [proj ->]; [|by rewrite Ea].
    destruct proj as [[[[[u v] t] q_lat] q_lon] d0].
    destruct (dict_item u _); simpl; try done.
    destruct (dict_item v _); simpl; try done.
    intros ?. simplify_eq. by eexists. }
  apply split_spec in Hs as [[-> _]|(q & nuevas & -> & Hn & Hars & _ & _)].
  { by destruct Hr. }
  split; [|split; [done|]].
  - split; [|split].
    + intros k. rewrite Hn. apply dict_keys_set_mono.
    + intros e He. rewrite Hars. apply elem_of_app. by left.
    + by rewrite Ea.
  - intros _. eexists. split; [done|]. split; [|apply Q.le_max_r].
    rewrite Hn. apply dict_keys_set_in.
Qed.

Lemma con_nodo_crece id c g : crece g (con_nodo id c g).
Proof.
  split; [|by split]. intros k. simpl. apply dict_keys_set_mono.
Qed.

Lemma con_aristas_crece nuevas g :
  aristas g ≠ [] → crece g (con_aristas nuevas g).
Proof.
  intros Hne. split; [done|]. split; [|done].
  intros e He. simpl. apply elem_of_app. by left.
Qed.

Lemma par_enlazado id otro d (cota : Q → Prop) g :
  id ∈ dict_keys (nodos g) → otro ∈ dict_keys (nodos g) → cota d →
  enlazado id cota (con_aristas [(id, otro, d); (otro, id, d)] g).
Proof.
  intros Hi Ho Hd. split; [done|]. intros _. exists otro, d. simpl.
  repeat split; try done; apply elem_of_app; right.
  - by left.
  - right. by left.
Qed.

Lemma sin_aristas_enlazado id (cota : Q → Prop) g :
  id ∈ dict_keys (nodos g) → aristas g = [] → enlazado id cota g.
Proof. intros Hi Ea. by split. Qed.

Lemma integrar_servicio_spec g s g' :
  integrar_servicio g s = Ok g' →
  crece g g' ∧
  enlazado ("servicio_" +:+ replace_space (nombre s)) (λ d, 0.01 <= d) g'.
Proof.
  unfold integrar_servicio.
  set (id := "servicio_" +:+ replace_space (nombre s)).
  destruct (_split_edge_and_connect_point _ _ _) as [[g2 r]| |] eqn:E; simpl; try done.
  apply split_crece in E as (Hc & Hr0 & Hr1).
  pose proof (con_nodo_crece id (coordenadas s) g) as Hc0.
  pose proof (crece_trans _ _ _ Hc0 Hc) as Hc2.
  assert (Hid : id ∈ dict_keys (nodos g2)).
  { apply Hc. simpl. apply dict_keys_set_in. }
  simpl in Hr0, Hr1.
  destruct (aristas g) as [|e0 l0] eqn:Ea.
  - rewrite Hr0 by done. intros [= <-]. split; [done|].
    apply sin_aristas_enlazado; [done|]. by apply Hc2.
  - destruct Hr1 as (d & -> & Hnew & Hd); [done|].
    rewrite bool_decide_eq_true_2 by done. intros [= <-].
    assert (Hne2 : aristas g2 ≠ []).
    { destruct Hc2 as (_ & Hin & _). intros E2.
      specialize (Hin e0). rewrite Ea, E2 in Hin.
      eapply not_elem_of_nil, Hin. by left. }
    split; [eapply crece_trans; [exact Hc2|by apply con_aristas_crece]|].
    by apply par_enlazado.
Qed.

Lemma integrar_referencia_spec g ref g' :
  integrar_referencia g ref = Ok g' →
  crece g g' ∧
  enlazado ("ref_" +:+ replace_space ref.1) (λ d, 0.01 <= d ∧ d <= 0.5) g'.
Proof.
  unfold integrar_referencia. destruct ref as [nom coords].
  set (id := "ref_" +:+ replace_space nom).
  destruct (_split_edge_and_connect_point _ _ _) as [[g2 r]| |] eqn:E; simpl; try done.
  apply split_crece in E as (Hc & Hr0 & Hr1).
  pose proof (con_nodo_crece id coords g) as Hc0.
  pose proof (crece_trans _ _ _ Hc0 Hc) as Hc2.
  assert (Hid : id ∈ dict_keys (nodos g2)).
  { apply Hc. simpl. apply dict_keys_set_in. }
  simpl in Hr0, Hr1.
  destruct (aristas g) as [|e0 l0] eqn:Ea.
  - rewrite Hr0 by done. intros [= <-]. split; [done|].
    apply sin_aristas_enlazado; [done|]. by apply Hc2.
  - destruct Hr1 as (d & -> & Hnew & Hd); [done|].
    rewrite !bool_decide_eq_true_2 by done. simpl. intros [= <-].
    assert (Hne2 : aristas g2 ≠ []).
    { destruct Hc2 as (_ & Hin & _). intros E2.
      specialize (Hin e0). rewrite Ea, E2 in Hin.
      eapply not_elem_of_nil, Hin. by left. }
    split; [eapply crece_trans; [exact Hc2|by apply con_aristas_crece]|].
    apply par_enlazado; [done|done|].
    split; [apply Q.min_glb; [done|lra]|apply Q.le_min_r].
Qed.

End Enlaces.

(** X14. The integrator only adds: nodes and edges of the input graph are
    kept, and a graph without edges gets none.  Every service and every
    reference location of the catalogs has its node in the result; when the
    result has an edge, the node is joined both ways, by two edges of one
    weight, to a node of the graph, the weight being at least 0.01 km, and at
    most 0.5 km for a reference location. *)
Theorem catalog_entries_are_linked `{Libm}
    (servicios : list (string * list ServicioEmergencia))
    (referencias : list (string * Coord)) (g g' : Grafo) :
  _integrar_servicios_en_red servicios referencias (Some g) = Ok (Some g') →
  crece g g' ∧
  (∀ ks sv, ks ∈ servicios → sv ∈ ks.2 →
     enlazado ("servicio_" +:+ replace_space (nombre sv))
              (λ d, (0.01 <= d)%Q) g') ∧
  (∀ ref, ref ∈ referencias →
     enlazado ("ref_" +:+ replace_space ref.1)
              (λ d, (0.01 <= d)%Q ∧ (d <= 0.5)%Q) g').
Proof.
  unfold _integrar_servicios_en_red.
  destruct (foldM _ servicios g) as [g1| |] eqn:E1; simpl; try done.
  destruct (foldM _ referencias g1) as [g2| |] eqn:E2; simpl; try done.
  intros [= <-].
  set (Qs := λ (sv : ServicioEmergencia) (b : Grafo),
         enlazado ("servicio_" +:+ replace_space (nombre sv))
                  (λ d, (0.01 <= d)%Q) b).
  set (Qr := λ (ref : string * Coord) (b : Grafo),
         enlazado ("ref_" +:+ replace_space ref.1)
                  (λ d, (0.01 <= d)%Q ∧ (d <= 0.5)%Q) b).
  assert (Hin : ∀ l b b', foldM integrar_servicio l b = Ok b' →
            True ∧ crece b b' ∧ ∀ sv, sv ∈ l → Qs sv b').
  { intros l b b'.
    apply (foldM_post (λ _, True) crece Qs integrar_servicio l
             crece_refl crece_trans); [| |done].
    - intros sv b0 b0'. apply enlazado_crece.
    - intros b0 sv b0' _ Hi. split; [done|]. by apply integrar_servicio_spec. }
  destruct (foldM_post (λ _, True) crece
              (λ (ks : string * list ServicioEmergencia) b,
                 ∀ sv, sv ∈ ks.2 → Qs sv b)
              (λ g ks, foldM integrar_servicio ks.2 g) servicios
              crece_refl crece_trans) with (b := g) (b' := g1)
    as (_ & Hc1 & Hs1); [| |done|exact E1|].
  { intros ks b b' Hq Hc sv Hsv. eapply enlazado_crece; [by apply Hq|done]. }
  { intros b ks b' _ Hf. by apply Hin. }
  destruct (foldM_post (λ _, True) crece Qr integrar_referencia referencias
              crece_refl crece_trans) with (b := g1) (b' := g2)
    as (_ & Hc2 & Hs2); [| |done|exact E2|].
  { intros ref b b'. apply enlazado_crece. }
  { intros b ref b' _ Hi. split; [done|]. by apply integrar_referencia_spec. }
  split; [by eapply crece_trans|]. split; [|done].
  intros ks sv Hks Hsv. eapply enlazado_crece; [by apply (Hs1 ks)|done].
Qed.

(** X15. On the system prepared from a graph without edges, the route
    query between two different ids answers none, whatever the fuel. *)
Theorem no_edges_no_route (s : Sistema) (g : Grafo) (origen destino : string)
    (fuel : nat) :
  red_vial s = Some g →
  aristas g = [] →
  origen ≠ destino →
  obtener_ruta fuel (preparar_floyd_warshall s).1 origen destino = Ok None.
Proof.
  intros Hrv Ea Hne. unfold preparar_floyd_warshall. rewrite Hrv. cbn [fst].
  assert (Hg : pesos_no_negativos g).
  { unfold pesos_no_negativos. rewrite Ea. constructor. }
  unfold obtener_ruta. simpl.
  destruct (mk_nodo_a_indice (dict_keys (nodos g)) !! origen) as [i|] eqn:Ei; [|done].
  destruct (mk_nodo_a_indice (dict_keys (nodos g)) !! destino) as [j|] eqn:Ej; [|done].
  pose proof (idx_lt g _ _ Ei) as Hin. pose proof (idx_lt g _ _ Ej) as Hjn.
  assert (i ≠ j) as Hij.
  { intros ->. apply Hne. by eapply mk_nodo_a_indice_inj. }
  pose proof (st_inv g Hg) as [((_ & HS) & _) _ Hsuc _ _].
  rewrite (mitem_mget _ None _ _ _ HS Hin Hjn).
  match goal with |- context [mget None ?M i j] =>
    destruct (mget None M i j) as [a|] eqn:Es end; [|done].
  exfalso.
  destruct (Hsuc i j a Hin Hjn Hij Es) as (Ha & Hai & x & Hx & _).
  destruct (w_fuera_diag g Hg i a Hin Ha (not_eq_sym Hai))
    as [[E _]|(x' & u & v & _ & _ & Hedge & _)]; [congruence|].
  rewrite Ea in Hedge. by apply elem_of_nil in Hedge.
Qed.

(** Location search *)

Lemma prefix_vacia b : String.prefix "" b = true.
Proof. by destruct b. Qed.

Lemma prefix_spec a b : String.prefix a b = true ↔ ∃ post, b = a +:+ post.
Proof.
  revert a. induction b as [|c' b IH]; intros [|c a].
  - split; [by exists ""%string|done].
  - split; [done|by intros [post ?]].
  - split; [by exists (String c' b)|done].
  - simpl. destruct (Ascii.ascii_dec c c') as [->|Hne].
    + rewrite IH. split; intros [post E]; exists post; [by rewrite E|by injection E].
    + split; [done|]. intros [post E]. injection E as ->. done.
Qed.

Lemma contiene_spec sub s : contiene sub s = true ↔ subcadena sub s.
Proof.
  unfold subcadena. induction s as [|c s IH]; cbn [contiene].
  - rewrite orb_false_r, prefix_spec. split.
    + intros [post E]. by exists "", post.
    + intros (pre & post & E). destruct pre; [by exists post|done].
  - rewrite orb_true_iff, prefix_spec, IH. split.
    + intros [[post E]|(pre & post & E)].
      * by exists "", post.
      * exists (String c pre), post. by rewrite E.
    + intros (pre & post & E). destruct pre as [|c' pre].
      * left. by exists post.
      * right. injection E as -> E. by exists pre, post.
Qed.

Lemma contiene_vacia s : contiene "" s = true.
Proof. destruct s; simpl; by rewrite ?prefix_vacia. Qed.

Lemma append_vacia a : a +:+ "" = a.
Proof.
  induction a as [|c a IH]; [done|].
  change (String c (a +:+ "") = String c a). by rewrite IH.
Qed.

Lemma subcadena_refl a : subcadena a a.
Proof.
  exists ""%string, ""%string. change (a = a +:+ ""). by rewrite append_vacia.
Qed.

Section Buscar.
Context `{Unicode}.

Lemma buscar_exacta_spec texto ubicaciones :
  match buscar_exacta texto ubicaciones with
  | Some c =>
      ∃ i nombre, ubicaciones !! i = Some (nombre, c) ∧ texto = str_lower nombre ∧
        ∀ j n' c', j < i → ubicaciones !! j = Some (n', c') → texto ≠ str_lower n'
  | None => ∀ nombre c, (nombre, c) ∈ ubicaciones → texto ≠ str_lower nombre
  end.
Proof.
  induction ubicaciones as [|[nombre c] l IH]; simpl.
  - intros nombre c Hin. by apply elem_of_nil in Hin.
  - destruct (decide (texto = str_lower nombre)) as [E|Hne].
    + exists 0, nombre. repeat split; try done. intros; lia.
    + destruct (buscar_exacta texto l) as [c'|].
      * destruct IH as (i & n' & Hi & Hn & Hmin). exists (S i), n'.
        repeat split; try done. intros [|j] n0 c0 Hj; simpl.
        -- by intros [= <- <-].
        -- apply Hmin. lia.
      * intros n' c' [[= -> ->]|Hin]%elem_of_cons; [done|by eapply IH].
Qed.

Lemma buscar_parcial_spec texto ubicaciones :
  match buscar_parcial texto ubicaciones with
  | Some c =>
      ∃ nombre, (nombre, c) ∈ ubicaciones ∧
        (subcadena texto (str_lower nombre) ∨ subcadena (str_lower nombre) texto)
  | None => ∀ nombre c, (nombre, c) ∈ ubicaciones →
        ¬ subcadena texto (str_lower nombre) ∧ ¬ subcadena (str_lower nombre) texto
  end.
Proof.
  induction ubicaciones as [|[nombre c] l IH]; simpl.
  - intros nombre c Hin. by apply elem_of_nil in Hin.
  - destruct (contiene texto (str_lower nombre) || contiene (str_lower nombre) texto)
      eqn:E.
    + exists nombre. split; [by left|].
      apply orb_true_iff in E. by rewrite <- !contiene_spec.
    + apply orb_false_iff in E as [E1 E2].
      destruct (buscar_parcial texto l) as [c'|].
      * destruct IH as (n' & Hin & Hs). exists n'. split; [by right|done].
      * intros n' c' [[= -> ->]|Hin]%elem_of_cons; [|by eapply IH].
        rewrite <- !contiene_spec, E1, E2. done.
Qed.

(** X16. Whatever [strip] and [lower] do to a text: if a catalog entry is the
    first one whose lower-cased name equals the stripped, lower-cased text,
    the search returns its coordinates, even when an earlier entry contains
    the text or is contained in it. *)
Theorem location_search_exact_first (s : Sistema) (texto : string) (i : nat)
    (nombre : string) (c : Coord) :
  ubicaciones_referencia s !! i = Some (nombre, c) →
  str_lower nombre = str_lower (str_strip texto) →
  (∀ j n' c', j < i → ubicaciones_referencia s !! j = Some (n', c') →
     str_lower n' ≠ str_lower (str_strip texto)) →
  buscar_ubicacion s texto = Some c.
Proof.
  intros Hi Hn Hmin. unfold buscar_ubicacion.
  pose proof (buscar_exacta_spec (str_lower (str_strip texto))
                (ubicaciones_referencia s)) as Hspec.
  destruct (buscar_exacta _ _) as [c'|].
  - destruct Hspec as (i' & n' & Hi' & Hn' & Hmin').
    destruct (lt_eq_lt_dec i i') as [[Hlt| ->]|Hgt].
    + exfalso. by eapply (Hmin' i nombre c).
    + congruence.
    + exfalso. by eapply (Hmin i' n' c').
  - exfalso. eapply Hspec; [by eapply list_elem_of_lookup_2|done].
Qed.

(** X17. Whatever [strip] and [lower] do to a text: the search answers none
    exactly when no catalog name, lower-cased, contains the stripped,
    lower-cased text or occurs in it; and coordinates it returns belong to an
    entry whose name does. *)
Theorem location_search_none_iff (s : Sistema) (texto : string) :
  (buscar_ubicacion s texto = None ↔
   ∀ nombre c, (nombre, c) ∈ ubicaciones_referencia s →
     ¬ subcadena (str_lower (str_strip texto)) (str_lower nombre) ∧
     ¬ subcadena (str_lower nombre) (str_lower (str_strip texto))) ∧
  (∀ c, buscar_ubicacion s texto = Some c →
     ∃ nombre, (nombre, c) ∈ ubicaciones_referencia s ∧
       (subcadena (str_lower (str_strip texto)) (str_lower nombre) ∨
        subcadena (str_lower nombre) (str_lower (str_strip texto)))).
Proof.
  unfold buscar_ubicacion.
  pose proof (buscar_exacta_spec (str_lower (str_strip texto))
                (ubicaciones_referencia s)) as He.
  pose proof (buscar_parcial_spec (str_lower (str_strip texto))
                (ubicaciones_referencia s)) as Hp.
  destruct (buscar_exacta _ _) as [c'|].
  - destruct He as (i & n' & Hi & Hn & _).
    apply list_elem_of_lookup_2 in Hi. split.
    + split; [done|]. intros Hno. destruct (Hno n' c' Hi) as [Hno1 _].
      destruct Hno1. rewrite Hn. apply subcadena_refl.
    + intros c [= <-]. exists n'. split; [done|]. left. rewrite Hn.
      apply subcadena_refl.
  - destruct (buscar_parcial _ _) as [c'|].
    + destruct Hp as (n' & Hin & Hs). split.
      * split; [done|]. intros Hno. destruct (Hno n' c' Hin). tauto.
      * intros c [= <-]. by exists n'.
    + split; [by split|done].
Qed.

(** X18. When [strip] leaves nothing of the text (the text is empty or white
    space only), [lower] keeps the empty text empty and no catalog name
    lower-cases to the empty text, the search returns the first entry of the
    catalog: the loop of exact matches finds nothing and the empty text
    occurs in every name. *)
Theorem blank_search_returns_first_entry (s : Sistema) (texto : string)
    (n0 : string) (c0 : Coord) (resto : list (string * Coord)) :
  str_strip texto = ""%string →
  str_lower "" = ""%string →
  ubicaciones_referencia s = (n0, c0) :: resto →
  (∀ nombre c, (nombre, c) ∈ ubicaciones_referencia s →
     str_lower nombre ≠ ""%string) →
  buscar_ubicacion s texto = Some c0.
Proof.
  intros Hb Hl Hu Hne. unfold buscar_ubicacion.
  rewrite Hb, Hl.
  pose proof (buscar_exacta_spec "" (ubicaciones_referencia s)) as He.
  destruct (buscar_exacta _ _) as [c'|].
  - destruct He as (i & n' & Hi & Hn & _).
    apply list_elem_of_lookup_2 in Hi. apply Hne in Hi. congruence.
  - rewrite Hu. simpl. by rewrite contiene_vacia.
Qed.

End Buscar.

(** Nearest services *)

Lemma insertar_perm {A} (key : A → ext) x l : insertar key x l ≡ₚ x :: l.
Proof.
  induction l as [|y l IH]; simpl; [done|].
  destruct (dltb (key x) (key y)); [done|]. rewrite IH. apply Permutation_swap.
Qed.

Lemma ordenar_perm {A} (key : A → ext) l : ordenar key l ≡ₚ l.
Proof.
  unfold ordenar.
  cut (∀ acc, fold_left (λ acc x, insertar key x acc) l acc ≡ₚ acc ++ l).
  { intros Hc. by rewrite Hc. }
  induction l as [|x l IH]; intros acc; simpl.
  - by rewrite app_nil_r.
  - rewrite IH, insertar_perm. simpl. apply Permutation_middle.
Qed.

Lemma insertar_creciente {A} (key : A → ext) x l :
  creciente key l → creciente key (insertar key x l).
Proof.
  unfold creciente. induction 1 as [|y l Hl IH Hy]; simpl.
  - repeat constructor.
  - destruct (dltb (key x) (key y)) eqn:E.
    + constructor; [by constructor|]. constructor; [by apply dltb_true_dle|].
      eapply Forall_impl; [exact Hy|]. intros z Hz. simpl in Hz.
      eapply dle_trans; [by apply dltb_true_dle|done].
    + constructor; [done|].
      rewrite (insertar_perm key x l). constructor; [by apply dltb_false_dle|done].
Qed.

Lemma ordenar_creciente {A} (key : A → ext) l : creciente key (ordenar key l).
Proof.
  unfold ordenar.
  cut (∀ acc, creciente key acc →
         creciente key (fold_left (λ acc x, insertar key x acc) l acc)).
  { intros Hc. apply Hc. constructor. }
  induction l as [|x l IH]; intros acc Hacc; simpl; [done|].
  apply IH. by apply insertar_creciente.
Qed.

#[global] Instance deq_dec a b : Decision (deq a b).
Proof.
  destruct a as [x|], b as [y|]; simpl;
    [apply Qeq_dec|right; tauto|right; tauto|left; exact I].
Defined.

Lemma insertar_estable {A} (key : A → ext) x l d :
  creciente key l →
  filter (λ y, deq (key y) d) (insertar key x l)
  = filter (λ y, deq (key y) d) l ++ (if decide (deq (key x) d) then [x] else []).
Proof.
  unfold creciente. induction 1 as [|y l Hl IH Hy]; simpl.
  - rewrite filter_cons, filter_nil. by destruct (decide _).
  - destruct (dltb (key x) (key y)) eqn:E.
    + rewrite (filter_cons _ x). destruct (decide (deq (key x) d)) as [Hx|Hx];
        [|by rewrite app_nil_r].
      assert (Hnil : filter (λ y0, deq (key y0) d) (y :: l) = []); [|by rewrite Hnil].
      assert (Hall : Forall (λ z, dle (key y) (key z)) (y :: l))
        by (constructor; [apply dle_refl|done]).
      clear -E Hx Hall. induction Hall as [|z l' Hz _ IH]; [done|].
      rewrite filter_cons, decide_False; [done|]. intros Hzd.
      destruct (key x), (key y), (key z), d; simpl in *; try done.
      apply Qltb_lt in E. lra.
    + rewrite !(filter_cons _ y). destruct (decide (deq (key y) d)); rewrite IH; done.
Qed.

(** The arrangement is stable: elements with the same key keep their order. *)
Lemma ordenar_estable {A} (key : A → ext) l d :
  filter (λ y, deq (key y) d) (ordenar key l) = filter (λ y, deq (key y) d) l.
Proof.
  unfold ordenar.
  cut (∀ acc, creciente key acc →
         filter (λ y, deq (key y) d) (fold_left (λ acc x, insertar key x acc) l acc)
         = filter (λ y, deq (key y) d) acc ++ filter (λ y, deq (key y) d) l).
  { intros Hc. rewrite Hc by constructor. done. }
  induction l as [|x l IH]; intros acc Hacc; simpl.
  - by rewrite filter_nil, app_nil_r.
  - rewrite IH by by apply insertar_creciente.
    rewrite insertar_estable by done. rewrite filter_cons, <- app_assoc.
    by destruct (decide _).
Qed.

Lemma creciente_take {A} (key : A → ext) k l :
  creciente key l → creciente key (take k l).
Proof.
  unfold creciente. intros Hl. revert k.
  induction Hl as [|y l Hl IH Hy]; intros [|k]; simpl; try constructor.
  - apply IH.
  - eapply Forall_take in Hy. exact Hy.
Qed.

Lemma elem_of_drop_l {A} (x : A) k l : x ∈ drop k l → x ∈ l.
Proof. intros Hx. rewrite <- (take_drop k l). apply elem_of_app. by right. Qed.

Lemma elem_of_take_l {A} (x : A) k l : x ∈ take k l → x ∈ l.
Proof. intros Hx. rewrite <- (take_drop k l). apply elem_of_app. by left. Qed.

Lemma creciente_take_drop {A} (key : A → ext) k l a b :
  creciente key l → a ∈ take k l → b ∈ drop k l → dle (key a) (key b).
Proof.
  unfold creciente. intros Hl. revert k.
  induction Hl as [|y l Hl IH Hy]; intros [|k]; simpl.
  - by intros ?%elem_of_nil.
  - by intros ?%elem_of_nil.
  - by intros ?%elem_of_nil.
  - intros [->|Ha]%elem_of_cons Hb.
    + rewrite Forall_forall in Hy. apply Hy. by eapply elem_of_drop_l.
    + by eapply IH.
Qed.

Lemma hasta_take {A} (n : Z) (l : list A) :
  ∃ k, hasta n l = take k l ∧ ((0 <= n)%Z → k = Z.to_nat n).
Proof.
  unfold hasta. destruct (0 <=? n)%Z eqn:E.
  - by eexists.
  - eexists. split; [done|]. apply Z.leb_gt in E. lia.
Qed.

Section ServiciosCercanos.
Context `{Libm}.

Lemma examinar_servicio_spec fuel s o acc sv acc' :
  examinar_servicio fuel s o acc sv = Ok acc' →
  (acc' = acc ∧ ∀ r, obtener_ruta fuel s o (nodo_de sv) ≠ Ok (Some r)) ∨
  (∃ r, obtener_ruta fuel s o (nodo_de sv) = Ok (Some r) ∧
        acc' = acc ++ [entrada sv r]).
Proof.
  unfold examinar_servicio. fold (nodo_de sv).
  destruct (fw s) as [m|] eqn:Efw; [|done].
  destruct (nodo_a_indice m !! nodo_de sv) as [j|] eqn:Ej.
  - destruct (obtener_ruta fuel s o (nodo_de sv)) as [[r|]| |]; simpl; try done.
    + intros [= <-]. right. by exists r.
    + intros [= <-]. left. by split.
  - intros [= <-]. left. split; [done|]. intros r. unfold obtener_ruta.
    destruct (negb (fw_preparado s)); [done|]. rewrite Efw, Ej.
    by destruct (nodo_a_indice m !! o).
Qed.

(** The list the service loop builds: the entries of the services that have
    a route, in catalog order. *)
Definition recogidos (fuel : nat) (s : Sistema) (o : string)
    (l : list ServicioEmergencia) (acc : list Resultado) : Prop :=
  Forall (λ e, r_servicio e ∈ l ∧
               ∃ r, obtener_ruta fuel s o (nodo_de (r_servicio e)) = Ok (Some r) ∧
                    e = entrada (r_servicio e) r) acc ∧
  ∀ sv r, sv ∈ l → obtener_ruta fuel s o (nodo_de sv) = Ok (Some r) →
          entrada sv r ∈ acc.

Lemma recogidos_fold fuel s o servicios todos :
  foldM (examinar_servicio fuel s o) servicios [] = Ok todos →
  recogidos fuel s o servicios todos.
Proof.
  apply (foldM_prefix_inv (recogidos fuel s o)).
  - split; [constructor|]. intros sv r Hsv. by apply elem_of_nil in Hsv.
  - intros l1 sv acc acc' _ [Ha Hb] Hstep.
    assert (Hmono : Forall (λ e, r_servicio e ∈ l1 ++ [sv] ∧
               ∃ r, obtener_ruta fuel s o (nodo_de (r_servicio e)) = Ok (Some r) ∧
                    e = entrada (r_servicio e) r) acc).
    { eapply Forall_impl; [exact Ha|]. intros e [He Hr]. split; [|done].
      apply elem_of_app. by left. }
    apply examinar_servicio_spec in Hstep as [[-> Hno]|(r & Hr & ->)].
    + split; [done|].
      intros sv' r [Hin|Hin%list_elem_of_singleton]%elem_of_app Hr.
      * by apply Hb.
      * subst sv'. by destruct (Hno r).
    + split.
      * apply Forall_app. split; [done|]. repeat constructor.
        -- simpl. apply elem_of_app. right. by left.
        -- by exists r.
      * intros sv' r' [Hin|Hin%list_elem_of_singleton]%elem_of_app Hr'.
        -- apply elem_of_app. left. by apply Hb.
        -- subst sv'. apply elem_of_app. right.
           assert (r' = r) as -> by congruence. by left.
Qed.

(** The stages of [encontrar_servicios_cercanos]: a guard answers the empty
    list, or the collected entries are sorted and cut. *)
Lemma encontrar_servicios_cercanos_spec fuel s coords tipo max l :
  encontrar_servicios_cercanos fuel s coords tipo max = Ok l →
  (l = [] ∧ sin_busqueda s coords tipo) ∨
  ∃ servicios o todos k,
    dict_get tipo (servicios_emergencia s) = Some servicios ∧
    _encontrar_nodo_mas_cercano (red_vial s) coords = Some o ∧
    o ≠ ""%string ∧
    recogidos fuel s o servicios todos ∧
    l = take k (ordenar r_distancia_km todos) ∧
    ((0 <= max)%Z → k = Z.to_nat max).
Proof.
  unfold encontrar_servicios_cercanos, sin_busqueda.
  destruct (fw_preparado s); simpl; [|intros [= <-]; left; auto].
  destruct (dict_get tipo (servicios_emergencia s)) as [servicios|];
    [|intros [= <-]; left; auto].
  destruct (_encontrar_nodo_mas_cercano (red_vial s) coords) as [o|];
    [|intros [= <-]; left; auto].
  destruct (decide (o = ""%string)) as [->|Hne]; [intros [= <-]; left; auto 6|].
  destruct (foldM _ servicios []) as [todos| |] eqn:Ef; simpl; try done.
  intros [= <-]. right.
  destruct (hasta_take max (ordenar r_distancia_km todos)) as (k & Ek & Hk).
  exists servicios, o, todos, k. repeat split; try done.
  - by apply recogidos_fold.
  - by apply recogidos_fold.
Qed.

End ServiciosCercanos.

(** X19. A list returned by the nearest-services query is in ascending
    order of distance; with a limit of at least 0 it has at most that many
    entries; and each entry is a service of the requested category together
    with the distance, time, nodes and coordinates of the route the route
    query returns from the node of the nearest-node scan to the service's
    node. *)
Theorem nearest_services_sorted_and_sound `{Libm} (fuel : nat) (s : Sistema)
    (coords : Coord) (tipo : string) (max : Z) (l : list Resultado) :
  encontrar_servicios_cercanos fuel s coords tipo max = Ok l →
  creciente r_distancia_km l ∧
  ((0 <= max)%Z → length l ≤ Z.to_nat max) ∧
  Forall (λ e, ∃ servicios o r,
            dict_get tipo (servicios_emergencia s) = Some servicios ∧
            r_servicio e ∈ servicios ∧
            _encontrar_nodo_mas_cercano (red_vial s) coords = Some o ∧
            obtener_ruta fuel s o (nodo_de (r_servicio e)) = Ok (Some r) ∧
            e = entrada (r_servicio e) r) l.
Proof.
  intros [[-> _]|(servicios & o & todos & k & Hs & Ho & _ & [Ha _] & -> & Hk)]
    %encontrar_servicios_cercanos_spec.
  { split; [constructor|]. split; [simpl; lia|constructor]. }
  split; [apply creciente_take, ordenar_creciente|]. split.
  - intros Hmax. rewrite length_take, (Hk Hmax). lia.
  - apply Forall_forall. intros e He%elem_of_take_l.
    rewrite ordenar_perm in He. rewrite Forall_forall in Ha.
    destruct (Ha e He) as (Hin & r & Hr & Ee).
    by exists servicios, o, r.
Qed.

(** X20. When the nearest-services query returns a list, a service of the
    requested category that has a route from the origin node either is in the
    list with that route, or is at least as far as every listed entry, the
    list then being as long as a limit of at least 0 allows. *)
Theorem nearest_services_are_nearest `{Libm} (fuel : nat) (s : Sistema)
    (coords : Coord) (tipo : string) (max : Z) (l : list Resultado)
    (servicios : list ServicioEmergencia) (o : string)
    (sv : ServicioEmergencia) (r : Ruta) :
  encontrar_servicios_cercanos fuel s coords tipo max = Ok l →
  dict_get tipo (servicios_emergencia s) = Some servicios →
  _encontrar_nodo_mas_cercano (red_vial s) coords = Some o →
  o ≠ ""%string →
  sv ∈ servicios →
  obtener_ruta fuel s o (nodo_de sv) = Ok (Some r) →
  entrada sv r ∈ l ∨
  (Forall (λ e, dle (r_distancia_km e) (distancia_km r)) l ∧
   ((0 <= max)%Z → length l = Z.to_nat max)).
Proof.
  intros Hl Hs Ho Hne Hsv Hr.
  apply encontrar_servicios_cercanos_spec in Hl
    as [[_ Hg]|(servicios' & o' & todos & k & Hs' & Ho' & _ & [_ Hb] & -> & Hk)].
  { exfalso. destruct Hg as [Hp|[Hn|[Hn|Hn]]]; try congruence.
    revert Hr. unfold obtener_ruta. by rewrite Hp. }
  assert (servicios' = servicios) as -> by congruence.
  assert (o' = o) as -> by congruence.
  pose proof (Hb sv r Hsv Hr) as Hin.
  rewrite <- (ordenar_perm r_distancia_km) in Hin.
  rewrite <- (take_drop k (ordenar r_distancia_km todos)) in Hin.
  apply elem_of_app in Hin as [Hin|Hin]; [by left|right]. split.
  - apply Forall_forall. intros e He.
    apply (creciente_take_drop r_distancia_km k _ e (entrada sv r)
             (ordenar_creciente _ _) He Hin).
  - intros Hmax. rewrite length_take, (Hk Hmax).
    assert (Z.to_nat max < length (ordenar r_distancia_km todos)); [|lia].
    rewrite <- (Hk Hmax). destruct (decide (k < length (ordenar r_distancia_km todos)));
      [done|]. rewrite drop_ge in Hin by lia. by apply elem_of_nil in Hin.
Qed.

(** X21. With a positive limit, the list the nearest-services query
    returns is empty exactly when a guard fired (not prepared, unknown
    category, no origin node) or no service of the category has a route from
    the origin node. *)
Theorem nearest_services_empty_iff `{Libm} (fuel : nat) (s : Sistema)
    (coords : Coord) (tipo : string) (max : Z) (l : list Resultado) :
  encontrar_servicios_cercanos fuel s coords tipo max = Ok l →
  (0 < max)%Z →
  l = [] ↔
  sin_busqueda s coords tipo ∨
  ∃ servicios o,
    dict_get tipo (servicios_emergencia s) = Some servicios ∧
    _encontrar_nodo_mas_cercano (red_vial s) coords = Some o ∧
    ∀ sv r, sv ∈ servicios → obtener_ruta fuel s o (nodo_de sv) ≠ Ok (Some r).
Proof.
  intros Hl Hmax.
  apply encontrar_servicios_cercanos_spec in Hl
    as [[-> Hg]|(servicios & o & todos & k & Hs & Ho & Hne & [Ha Hb] & -> & Hk)].
  { split; [by left|done]. }
  rewrite (Hk ltac:(lia)). split.
  - intros Hnil. right. exists servicios, o. split; [done|]. split; [done|].
    intros sv r Hsv Hr. pose proof (Hb sv r Hsv Hr) as Hin.
    rewrite <- (ordenar_perm r_distancia_km) in Hin.
    destruct (ordenar r_distancia_km todos) as [|e rest]; [by apply elem_of_nil in Hin|].
    destruct (Z.to_nat max) eqn:E; [lia|]. by simpl in Hnil.
  - intros [Hg|(servicios' & o' & Hs' & Ho' & Hno)].
    + destruct Hg as [Hp|[Hn|[Hn|Hn]]]; try congruence.
      destruct todos as [|e rest]; [apply take_nil|].
      apply Forall_cons in Ha as [(_ & r & Hr & _) _].
      revert Hr. unfold obtener_ruta. by rewrite Hp.
    + assert (servicios' = servicios) as -> by congruence.
      assert (o' = o) as -> by congruence.
      destruct todos as [|e rest]; [apply take_nil|].
      apply Forall_cons in Ha as [(Hin & r & Hr & _) _].
      by destruct (Hno (r_servicio e) r).
Qed.

(** X22. On the system prepared from its loaded graph, with positive
    weights and one unit of fuel per node, the nearest-services query returns
    a list for every coordinate, category and limit. *)
Theorem nearest_services_never_raise `{Libm} (fuel : nat) (s : Sistema) (g : Grafo)
    (coords : Coord) (tipo : string) (max : Z) :
  red_vial s = Some g →
  pesos_positivos g →
  length (nodos g) ≤ fuel →
  ∃ l, encontrar_servicios_cercanos fuel (preparar_floyd_warshall s).1
         coords tipo max = Ok l.
Proof.
  intros Hrv Hg Hfuel. unfold preparar_floyd_warshall. rewrite Hrv. cbn [fst].
  match goal with |- context [encontrar_servicios_cercanos _ ?s' _ _ _] =>
    set (s1 := s') end.
  unfold encontrar_servicios_cercanos.
  destruct (negb (fw_preparado s1)); [by eexists|].
  destruct (dict_get tipo (servicios_emergencia s1)) as [servicios|]; [|by eexists].
  destruct (_encontrar_nodo_mas_cercano (red_vial s1) coords) as [o|]; [|by eexists].
  destruct (decide (o = ""%string)); [by eexists|].
  destruct (foldM_total (λ _, True) (examinar_servicio fuel s1 o) servicios)
    with (b := @nil Resultado) as (todos & -> & _); [|done|by eexists].
  intros acc sv _ _. unfold examinar_servicio. simpl.
  destruct (mk_nodo_a_indice (dict_keys (nodos g)) !! _); [|by eexists].
  destruct (obtener_ruta_total g Hg s1 fuel o
              ("servicio_" +:+ replace_space (nombre sv)) eq_refl eq_refl eq_refl)
    as [[r|] ->]; [unfold dict_keys; by rewrite length_fmap|by eexists..].
Qed.

(** Index dictionaries *)

Lemma dict_set_NoDup {V} k (v : V) d :
  NoDup (dict_keys d) → NoDup (dict_keys (dict_set k v d)).
Proof.
  intros Hd. destruct (dict_keys_set k v d) as [->|[Hk ->]]; [done|].
  apply NoDup_app. split; [done|]. split.
  - intros x Hx ->%list_elem_of_singleton. done.
  - apply NoDup_singleton.
Qed.

Lemma mk_nodo_a_indice_NoDup l u i :
  NoDup l → l !! i = Some u → mk_nodo_a_indice l !! u = Some i.
Proof.
  intros Hl Hi.
  destruct (mk_nodo_a_indice_is_Some l u) as [i' Hi'];
    [by eapply list_elem_of_lookup_2|].
  pose proof (mk_nodo_a_indice_lookup l u i' Hi') as Hl'.
  by rewrite (NoDup_lookup l i i' u Hl Hi Hl').
Qed.

Lemma mk_indice_a_nodo_lookup_inv (m : gmap string nat) u i :
  mk_indice_a_nodo m !! i = Some u → m !! u = Some i.
Proof.
  unfold mk_indice_a_nodo. revert u i.
  apply (map_fold_weak_ind (λ (r : gmap nat string) (m : gmap string nat),
    ∀ u i, r !! i = Some u → m !! u = Some i)).
  - intros u i. by rewrite lookup_empty.
  - intros k x m0 r Hk IH u i.
    destruct (decide (x = i)) as [->|Hxi].
    + rewrite lookup_insert_eq. intros [= <-]. apply lookup_insert_eq.
    + rewrite lookup_insert_ne by done. intros Hu%IH.
      rewrite lookup_insert_ne; [done|]. intros ->. congruence.
Qed.

(** X24. After preparation, on a node table with distinct ids, a node has
    index i exactly when it is the i-th id of the node table, and the inverse
    dictionary maps i to a node exactly in that case. *)
Theorem index_dictionaries_are_inverse (s : Sistema) (g : Grafo) (u : string)
    (i : nat) :
  red_vial s = Some g →
  NoDup (dict_keys (nodos g)) →
  ∃ m, fw (preparar_floyd_warshall s).1 = Some m ∧
    (nodo_a_indice m !! u = Some i ↔ dict_keys (nodos g) !! i = Some u) ∧
    (indice_a_nodo m !! i = Some u ↔ dict_keys (nodos g) !! i = Some u).
Proof.
  intros Hrv Hnd. unfold preparar_floyd_warshall. rewrite Hrv. simpl.
  exists (preparar_grafo g). split; [done|]. simpl.
  assert (Hiff : mk_nodo_a_indice (dict_keys (nodos g)) !! u = Some i ↔
                 dict_keys (nodos g) !! i = Some u).
  { split; [apply mk_nodo_a_indice_lookup|by apply mk_nodo_a_indice_NoDup]. }
  split; [done|]. rewrite <- Hiff. split.
  - apply mk_indice_a_nodo_lookup_inv.
  - apply (indice_idx g).
Qed.

Section SinRepetidos.
Context `{Libm}.

Lemma procesar_red_osm_NoDup elements g :
  procesar_red_osm elements = Ok g → NoDup (dict_keys (nodos g)).
Proof.
  unfold procesar_red_osm.
  destruct (foldM _ _ _) as [[t ars]| |] eqn:E; simpl; try done.
  intros [= <-]. simpl.
  assert (Ht : tabla_bien (t, ars).1).
  { eapply (foldM_inv (λ st : Tablas * list Arista, tabla_bien st.1)); [| |exact E].
    - intros b x b'. apply procesar_elemento_bien.
    - apply tabla_vacia_bien. }
  destruct Ht as (Hk & _). simpl in Hk. rewrite Hk.
  apply NoDup_fmap_2; [|apply NoDup_seq]. intros c c'. apply id_nodo_inj.
Qed.

Lemma split_NoDup g p pre g' r :
  NoDup (dict_keys (nodos g)) →
  _split_edge_and_connect_point g p pre = Ok (g', r) →
  NoDup (dict_keys (nodos g')).
Proof.
  intros Hg [[_ ->]|(q & nuevas & _ & -> & _)]%split_spec; [done|].
  by apply dict_set_NoDup.
Qed.

Lemma alcanzable_NoDup g : alcanzable g → NoDup (dict_keys (nodos g)).
Proof.
  induction 1 as [els g Hp|g s _ IH|g nom c _ IH|g p g' r _ IH Hs
                 |g s g' _ IH Hs|g ref g' _ IH Hs].
  - by eapply procesar_red_osm_NoDup.
  - simpl. by apply dict_set_NoDup.
  - simpl. by apply dict_set_NoDup.
  - by eapply split_NoDup.
  - revert Hs. unfold integrar_servicio.
    destruct (_split_edge_and_connect_point _ _ _) as [[g2 r]| |] eqn:E; simpl; try done.
    apply split_NoDup in E; [|simpl; by apply dict_set_NoDup].
    destruct r as [[new_node d_conn]|]; [|by intros [= <-]].
    destruct (bool_decide _); by intros [= <-].
  - revert Hs. unfold integrar_referencia. destruct ref as [nom coords].
    destruct (_split_edge_and_connect_point _ _ _) as [[g2 r]| |] eqn:E; simpl; try done.
    apply split_NoDup in E; [|simpl; by apply dict_set_NoDup].
    destruct r as [[new_node d_conn]|]; [|by intros [= <-]].
    destruct (_ && _); by intros [= <-].
Qed.

End SinRepetidos.

(** Invariants of every loaded graph *)

Lemma sin_bucles_app ars nuevas :
  sin_bucles ars → sin_bucles nuevas → sin_bucles (ars ++ nuevas).
Proof.
  intros H1 H2 u v x [Hin|Hin]%elem_of_app; [by eapply H1|by eapply H2].
Qed.

Lemma sin_bucles_par (a b : string) (x y : Q) :
  a ≠ b → sin_bucles [(a, b, x); (b, a, y)].
Proof.
  intros Hab u v z [E|E%list_elem_of_singleton]%elem_of_cons; simplify_eq; done.
Qed.

Section SinBucles.
Context `{Libm}.
Local Open Scope Q_scope.

Lemma emitir_arista_sin_bucles mode nds ars p ars' :
  sin_bucles ars → emitir_arista mode nds ars p = Ok ars' → sin_bucles ars'.
Proof.
  destruct p as [n1 n2]. unfold emitir_arista. intros Hs.
  destruct (decide (n1 = n2)) as [|Hne]; [by intros [= <-]|].
  destruct (dict_item n1 nds) as [c1| |]; simpl; try done.
  destruct (dict_item n2 nds) as [c2| |]; simpl; try done.
  assert (H1 : ∀ d, sin_bucles [(n1, n2, d)]).
  { intros d u v x E%list_elem_of_singleton. by simplify_eq. }
  assert (H2 : ∀ d, sin_bucles [(n2, n1, d)]).
  { intros d u v x E%list_elem_of_singleton. simplify_eq. done. }
  intros [= <-]. destruct mode; repeat apply sin_bucles_app; auto.
Qed.

Lemma procesar_red_osm_sin_bucles elements g :
  procesar_red_osm elements = Ok g → sin_bucles (aristas g).
Proof.
  unfold procesar_red_osm.
  destruct (foldM _ _ _) as [[t ars]| |] eqn:E; simpl; try done.
  intros [= <-]. simpl. change ars with (t, ars).2.
  eapply (foldM_inv (λ st : Tablas * list Arista, sin_bucles st.2)); [| |exact E].
  - intros [t0 ars0] el [t1 ars1]. simpl. intros Hs. unfold procesar_elemento.
    destruct (negb (es_way el)); [intros ?; by simplify_eq|].
    destruct (crear_nodos _ _ t0) as [t' wn].
    destruct (foldM (emitir_arista _ _) _ _) as [ars'| |] eqn:Ef; simpl; try done.
    intros ?. simplify_eq.
    eapply (foldM_inv sin_bucles); [|exact Hs|exact Ef].
    intros b x b'. apply emitir_arista_sin_bucles.
  - intros u v x Hin. by apply elem_of_nil in Hin.
Qed.

Lemma split_sin_bucles g p pre g' r :
  cerrado (nodos g) (aristas g) →
  pre +:+ "_" +:+ pretty (length (nodos g)) ∉ dict_keys (nodos g) →
  sin_bucles (aristas g) →
  _split_edge_and_connect_point g p pre = Ok (g', r) →
  sin_bucles (aristas g').
Proof.
  intros Hc Hfresh Hs. unfold _split_edge_and_connect_point.
  destruct (_nearest_edge_projection (Some g) p) as [[proj|]| |] eqn:En;
    simpl; try done.
  2:{ by intros [= <- <-]. }
  apply nearest_edge_projection_mejor in En.
  destruct proj as [[[[[u v] t] q_lat] q_lon] d0].
  destruct En as ([x Huv] & _).
  destruct (Hc u v x Huv) as [Hu Hv].
  set (new_id := pre +:+ "_" +:+ pretty (length (nodos g))) in *.
  assert (u ≠ new_id) as Hun by (intros ->; done).
  assert (v ≠ new_id) as Hvn by (intros ->; done).
  destruct (dict_item u _) as [cu| |]; simpl; try done.
  destruct (dict_item v _) as [cv| |]; simpl; try done.
  intros [= <- <-]. cbn [aristas].
  assert (H2 : ∀ a b x1 x2, a ≠ new_id → b ≠ new_id →
             sin_bucles [(a, new_id, x1); (new_id, b, x2)]).
  { intros a b x1 x2 Ha Hb u0 v0 z [E|E%list_elem_of_singleton]%elem_of_cons;
      simplify_eq; [done|]. by apply not_eq_sym. }
  destruct (bool_decide _); destruct (bool_decide _);
    repeat apply sin_bucles_app; auto.
Qed.

Lemma split_snap_id g p g' id d :
  _split_edge_and_connect_point g p "snap" = Ok (g', Some (id, d)) →
  id = "snap_" +:+ pretty (length (nodos g)).
Proof.
  intros [[? _]|(q & nuevas & E & _)]%split_spec; [done|]. by simplify_eq.
Qed.

Lemma alcanzable_sin_bucles g : alcanzable g → sin_bucles (aristas g).
Proof.
  assert (Hsplit : ∀ g p g' r, alcanzable g → sin_bucles (aristas g) →
            _split_edge_and_connect_point g p "snap" = Ok (g', r) →
            sin_bucles (aristas g')).
  { intros g0 p g' r Hg Hs. apply split_sin_bucles; [by apply alcanzable_cerrado| |done].
    apply dict_get_None_keys. change ("snap" +:+ "_" +:+ pretty (length (nodos g0)))
      with ("snap_" +:+ pretty (length (nodos g0))).
    by apply snap_fresh, alcanzable_snap_ok. }
  induction 1 as [els g Hp|g s _ IH|g nom c _ IH|g p g' r Hg IH Hs
                 |g s g' Hg IH Hs|g ref g' Hg IH Hs].
  - by eapply procesar_red_osm_sin_bucles.
  - done.
  - done.
  - by eapply Hsplit.
  - revert Hs. unfold integrar_servicio.
    destruct (_split_edge_and_connect_point _ _ _) as [[g2 r]| |] eqn:E; simpl; try done.
    pose proof (Hsplit _ _ _ _ (alc_nodo_servicio g s Hg) IH E) as H2.
    destruct r as [[new_node d_conn]|]; [|by intros [= <-]].
    apply split_snap_id in E as ->.
    destruct (bool_decide _); intros [= <-]; [|done].
    simpl. apply sin_bucles_app; [done|]. by apply sin_bucles_par.
  - revert Hs. unfold integrar_referencia. destruct ref as [nom coords].
    destruct (_split_edge_and_connect_point _ _ _) as [[g2 r]| |] eqn:E; simpl; try done.
    pose proof (Hsplit _ _ _ _ (alc_nodo_referencia g nom coords Hg) IH E) as H2.
    destruct r as [[new_node d_conn]|]; [|by intros [= <-]].
    apply split_snap_id in E as ->.
    destruct (_ && _); intros [= <-]; [|done].
    simpl. apply sin_bucles_app; [done|]. by apply sin_bucles_par.
Qed.

End SinBucles.

(** X25. Building and integrating return a graph for every catalog and
    every list of elements (no lookup raises); in that graph every edge joins
    two nodes of the node table, no edge joins a node to itself, and the ids
    of the node table are pairwise different. *)
Theorem loaded_graph_invariants `{Libm}
    (servicios : list (string * list ServicioEmergencia))
    (referencias : list (string * Coord)) (elements : list Elemento) :
  ∃ g, cargar_red_vial servicios referencias elements = Ok (Some g) ∧
       cerrado (nodos g) (aristas g) ∧
       sin_bucles (aristas g) ∧
       NoDup (dict_keys (nodos g)).
Proof.
  destruct (cargar_red_vial_total servicios referencias elements) as (g & Hg & Ha).
  exists g. split; [done|]. split; [by apply alcanzable_cerrado|].
  split; [by apply alcanzable_sin_bucles|by apply alcanzable_NoDup].
Qed.

Lemma piso_positivos g : Forall piso (aristas g) → pesos_positivos g.
Proof.
  intros Hg. eapply Forall_impl; [exact Hg|]. intros e He. unfold piso in He. lra.
Qed.

Section Minimo.
Variable g : Grafo.
Hypothesis Hg : Forall piso (aristas g).

Let claves := dict_keys (nodos g).
Let n := length claves.
Let idx := mk_nodo_a_indice claves.
Let w := matrices_iniciales n idx (aristas g).

Lemma peso_camino_no_negativo cur camino :
  cur < n → saltos_ok n w cur camino → dle (Fin 0) (peso_camino w cur camino).
Proof.
  revert cur. induction camino as [|s c IH]; intros cur Hc Hok; simpl; [lra|].
  destruct Hok as (Hne & Hs & [x Hx] & Hok). rewrite Hx.
  pose proof (w_positivo g (piso_positivos g Hg) cur s x Hc Hs Hne Hx) as Hpos.
  specialize (IH s Hs Hok).
  destruct (peso_camino w s c) as [z|]; simpl in *; [lra|done].
Qed.

Lemma peso_camino_piso cur camino :
  cur < n → saltos_ok n w cur camino → camino ≠ [] →
  dle (Fin 0.01) (peso_camino w cur camino).
Proof.
  destruct camino as [|s c]; [done|]. intros Hc (Hne & Hs & [x Hx] & Hok) _.
  simpl. rewrite Hx.
  destruct (w_fuera_diag g (pesos_positivos_no_negativos g (piso_positivos g Hg))
              cur s Hc Hs Hne) as [[E _]|(x' & u & v & E & _ & Hin & _)];
    fold claves n idx w in E; [congruence|].
  rewrite Hx in E. injection E as <-.
  pose proof (proj1 (Forall_forall _ _) Hg _ Hin) as Hp. unfold piso in Hp.
  simpl in Hp.
  pose proof (peso_camino_no_negativo s c Hs Hok) as H0.
  destruct (peso_camino w s c) as [z|]; simpl in *; [lra|done].
Qed.

End Minimo.

(** X26. On the system prepared from a graph whose edges weigh at least
    0.01 km, a route returned for two different ids has at least two nodes and
    a distance of at least 0.01 km. *)
Theorem distinct_nodes_route_at_least_floor (s : Sistema) (g : Grafo)
    (origen destino : string) (fuel : nat) (r : Ruta) :
  red_vial s = Some g →
  Forall piso (aristas g) →
  origen ≠ destino →
  obtener_ruta fuel (preparar_floyd_warshall s).1 origen destino = Ok (Some r) →
  dle (Fin 0.01) (distancia_km r) ∧ 2 ≤ length (ruta_nodos r).
Proof.
  intros Hrv Hg Hne. unfold preparar_floyd_warshall. rewrite Hrv. cbn [fst].
  intros Hr.
  match type of Hr with obtener_ruta _ ?s' _ _ = _ =>
    pose proof (obtener_ruta_preparado g (piso_positivos g Hg) s' fuel
                  origen destino eq_refl eq_refl) as Hspec end.
  rewrite Hr in Hspec.
  destruct Hspec as (i & j & camino & Hi & Hj & _ & Hf & Hlast & Hok & Hpeso
                     & _ & Hdk).
  pose proof (idx_lt g _ _ Hi) as Hin.
  assert (i ≠ j) as Hij.
  { intros ->. apply Hne. by eapply mk_nodo_a_indice_inj. }
  assert (camino ≠ []) as Hc.
  { intros ->. simpl in Hlast. congruence. }
  split.
  - pose proof (peso_camino_piso g Hg i camino Hin Hok Hc) as Hp.
    rewrite Hdk.
    match goal with |- dle _ ?d => destruct d as [z|] eqn:Ed; [|done] end.
    match type of Hpeso with deq ?a _ => destruct a as [y|]; [|done] end.
    simpl in *. lra.
  - apply Forall2_length in Hf. rewrite <- Hf. destruct camino; [done|]. simpl. lia.
Qed.

(** The further properties on small networks *)

Lemma grafo_integrado_cerrado : cerrado (nodos grafo_integrado) (aristas grafo_integrado).
Proof.
  apply (alcanzable_cerrado (H := libm_ejemplo)), grafo_integrado_alcanzable.
Qed.

Lemma grafo_servicios_alcanzable : alcanzable (H := libm_ejemplo) grafo_servicios.
Proof.
  apply (cargar_red_vial_alcanzable servicios_ejemplo [] elementos_doble_via).
  by vm_compute.
Qed.

Lemma grafo_servicios_positivo : pesos_positivos grafo_servicios.
Proof.
  apply (alcanzable_positivos (H := libm_ejemplo)), grafo_servicios_alcanzable.
Qed.

Lemma elementos_doble_via_modo el :
  el ∈ elementos_doble_via → es_way el = true → dir_mode el = Both.
Proof.
  intros Hel _. unfold elementos_doble_via in Hel.
  repeat (apply elem_of_cons in Hel as [->|Hel]; [by vm_compute|]).
  by apply elem_of_nil in Hel.
Qed.

Lemma grafo_servicios_simetrico : simetrico (aristas grafo_servicios).
Proof.
  apply (cargar_red_vial_simetrico (H := libm_ejemplo) servicios_ejemplo []
           elementos_doble_via).
  - apply elementos_doble_via_modo.
  - by vm_compute.
Qed.

Lemma route_query_never_raises_witness :
  ∃ o, obtener_ruta 7 (preparar_floyd_warshall sistema_ejemplo).1
         "node_3" "ref_A_B" = Ok o.
Proof.
  apply (route_query_never_raises sistema_ejemplo grafo_integrado).
  - reflexivity.
  - apply grafo_integrado_positivo.
  - vm_compute. lia.
Defined.

Lemma route_exists_iff_walk_witness :
  (∃ r, obtener_ruta 7 (preparar_floyd_warshall sistema_ejemplo).1
          "node_3" "ref_A_B" = Ok (Some r))
  ↔ (∃ t, recorrido (aristas grafo_integrado) "node_3" "ref_A_B" t).
Proof.
  apply (route_exists_iff_walk sistema_ejemplo grafo_integrado).
  - reflexivity.
  - apply grafo_integrado_positivo.
  - apply grafo_integrado_cerrado.
  - apply (bool_decide_unpack _). by vm_compute.
  - vm_compute. lia.
Defined.

Lemma route_to_itself_witness :
  obtener_ruta 0 (preparar_floyd_warshall sistema_ejemplo).1 "node_1" "node_1"
  = Ok (Some {| ruta_nodos := ["node_1"%string];
                ruta_coordenadas := [(1, 0)%Q];
                distancia_km := Fin 0;
                tiempo_min := Fin (0 / 25 * 60) |}).
Proof.
  apply (route_to_itself sistema_ejemplo grafo_integrado "node_1" 0 1 0).
  - reflexivity.
  - apply pesos_positivos_no_negativos, grafo_integrado_positivo.
  - by vm_compute.
Defined.

Lemma route_record_format_witness :
  ∃ r,
    obtener_ruta 7 (preparar_floyd_warshall sistema_ejemplo).1 "ref_A_B" "node_3"
      = Ok (Some r) ∧
    tiempo_min r = tiempo (distancia_km r) ∧
    ruta_nodos r ≠ [] ∧
    ∃ g, red_vial (preparar_floyd_warshall sistema_ejemplo).1 = Some g ∧
      Forall2 (λ nodo (c : Q * Q), dict_get nodo (nodos g) = Some (c.2, c.1))
              (ruta_nodos r) (ruta_coordenadas r) ∧
      Forall2 (λ nodo c, dict_get nodo (nodos g) = Some c)
              (ruta_nodos r) (coords_line (ruta_coordenadas r)).
Proof.
  assert (HE : ∃ r,
            obtener_ruta 7 (preparar_floyd_warshall sistema_ejemplo).1
              "ref_A_B" "node_3"
            = Ok (Some r))
    by (vm_compute; by repeat eexists).
  destruct HE as [r E].
  exists r. split; [exact E|].
  apply (route_record_format _ "ref_A_B" "node_3" 7 r E).
Defined.

Lemma symmetric_graph_symmetric_distances_witness :
  ∃ m i j d d',
    fw (preparar_floyd_warshall sistema_servicios).1 = Some m ∧
    nodo_a_indice m !! "node_0"%string = Some i ∧
    nodo_a_indice m !! "servicio_H_Sur"%string = Some j ∧
    mitem (matriz_distancias m) i j = Ok d ∧
    mitem (matriz_distancias m) j i = Ok d' ∧
    deq d d'.
Proof.
  apply (symmetric_graph_symmetric_distances sistema_servicios grafo_servicios).
  - reflexivity.
  - apply pesos_positivos_no_negativos, grafo_servicios_positivo.
  - apply grafo_servicios_simetrico.
  - apply (bool_decide_unpack _). by vm_compute.
  - apply (bool_decide_unpack _). by vm_compute.
Defined.

Lemma equal_keys_share_a_node_witness :
  tabla_bien (H := libm_ejemplo)
    (crear_nodos (H := libm_ejemplo) 1 [(0, 0); (0, 1); (0, 0)]%Q tabla_vacia).1 ∧
  ("node_0"%string = "node_0"%string ↔
   coord_key (H := libm_ejemplo) (0, 0)%Q = coord_key (H := libm_ejemplo) (0, 0)%Q) ∧
  ∃ p0, dict_get "node_0"
          (t_nodos (crear_nodos (H := libm_ejemplo) 1
                      [(0, 0); (0, 1); (0, 0)]%Q tabla_vacia).1) = Some p0 ∧
        coord_key (H := libm_ejemplo) p0 = coord_key (H := libm_ejemplo) (0, 0)%Q.
Proof.
  apply (equal_keys_share_a_node (H := libm_ejemplo) 1 [(0, 0); (0, 1); (0, 0)]%Q
           tabla_vacia 0 2 (0, (0, 0)%Q) (2, (0, 0)%Q) "node_0" "node_0").
  - apply tabla_vacia_bien.
  - reflexivity.
  - reflexivity.
  - by vm_compute.
  - by vm_compute.
Defined.

Lemma two_way_network_is_symmetric_witness :
  ∃ g, cargar_red_vial (H := libm_ejemplo) servicios_ejemplo []
         elementos_doble_via = Ok (Some g) ∧
       simetrico (aristas g).
Proof.
  apply (two_way_network_is_symmetric (H := libm_ejemplo)).
  intros el Hel _. unfold elementos_doble_via in Hel.
  repeat (apply elem_of_cons in Hel as [->|Hel]; [by vm_compute|]).
  by apply elem_of_nil in Hel.
Defined.

Lemma nearest_edge_projection_is_nearest_witness :
  ∃ r, _nearest_edge_projection (H := libm_ejemplo) (Some grafo_ejemplo)
         (1 # 2, 1 # 2)%Q = Ok r ∧
    match r with
    | None => Some grafo_ejemplo = None ∨
              ∃ g, Some grafo_ejemplo = Some g ∧ aristas g = []
    | Some (u, v, t, _, _, d) =>
        ∃ g, Some grafo_ejemplo = Some g ∧
          (∃ x, (u, v, x) ∈ aristas g) ∧ (0 <= t)%Q ∧ (t <= 1)%Q ∧
          ∀ e pr, e ∈ aristas g →
            proyectar_arista (H := libm_ejemplo) (1 # 2, 1 # 2)%Q (nodos g)
              (_latlon_to_xy (H := libm_ejemplo) (1 # 2) (1 # 2) (1 # 2)).1
              (_latlon_to_xy (H := libm_ejemplo) (1 # 2) (1 # 2) (1 # 2)).2 None e
            = Ok (Some pr) →
            (d <= pr.2)%Q
    end.
Proof.
  assert (HE : ∃ r,
            _nearest_edge_projection (H := libm_ejemplo) (Some grafo_ejemplo)
              (1 # 2, 1 # 2)%Q
            = Ok r)
    by (vm_compute; by repeat eexists).
  destruct HE as [r E].
  exists r. split; [exact E|].
  apply (nearest_edge_projection_is_nearest (H := libm_ejemplo)
           (Some grafo_ejemplo) (1 # 2, 1 # 2)%Q r E).
Defined.

Lemma snapper_preserves_direction_witness :
  ∃ g' new_id d,
    _split_edge_and_connect_point (H := libm_ejemplo) grafo_ejemplo
      (1 # 2, 1 # 2)%Q "snap" = Ok (g', Some (new_id, d)) ∧
    ∃ u v d_uq d_qv,
      (∃ x, (u, v, x) ∈ aristas grafo_ejemplo) ∧
      (((∃ x, (v, u, x) ∈ aristas grafo_ejemplo) ∧
        aristas g' = aristas grafo_ejemplo ++
                     [(u, new_id, d_uq); (new_id, v, d_qv);
                      (v, new_id, d_qv); (new_id, u, d_uq)]) ∨
       ((∀ x, (v, u, x) ∉ aristas grafo_ejemplo) ∧
        aristas g' = aristas grafo_ejemplo ++
                     [(u, new_id, d_uq); (new_id, v, d_qv)])).
Proof.
  assert (HE : ∃ g' new_id d,
            _split_edge_and_connect_point (H := libm_ejemplo) grafo_ejemplo
              (1 # 2, 1 # 2)%Q "snap"
            = Ok (g', Some (new_id, d)))
    by (vm_compute; by repeat eexists).
  destruct HE as [g' [new_id [d E]]].
  exists g', new_id, d. split; [exact E|].
  apply (snapper_preserves_direction (H := libm_ejemplo) grafo_ejemplo
           (1 # 2, 1 # 2)%Q "snap" g' new_id d E).
Defined.

Lemma catalog_entries_are_linked_witness :
  ∃ g',
    _integrar_servicios_en_red (H := libm_ejemplo) servicios_ejemplo
      [("A B"%string, (1 # 2, 1 # 2)%Q)] (Some grafo_ejemplo) = Ok (Some g') ∧
    crece grafo_ejemplo g' ∧
    (∀ ks sv, ks ∈ servicios_ejemplo → sv ∈ ks.2 →
       enlazado ("servicio_" +:+ replace_space (nombre sv))
                (λ d, (0.01 <= d)%Q) g') ∧
    (∀ ref, ref ∈ [("A B"%string, (1 # 2, 1 # 2)%Q)] →
       enlazado ("ref_" +:+ replace_space ref.1)
                (λ d, (0.01 <= d)%Q ∧ (d <= 0.5)%Q) g').
Proof.
  assert (HE : ∃ g',
            _integrar_servicios_en_red (H := libm_ejemplo) servicios_ejemplo
              [("A B"%string, (1 # 2, 1 # 2)%Q)] (Some grafo_ejemplo)
            = Ok (Some g'))
    by (vm_compute; by repeat eexists).
  destruct HE as [g' E].
  exists g'. split; [exact E|].
  apply (catalog_entries_are_linked (H := libm_ejemplo) _ _ _ _ E).
Defined.

Lemma no_edges_no_route_witness :
  obtener_ruta 0 (preparar_floyd_warshall sistema_sin_aristas).1 "a" "b" = Ok None.
Proof.
  apply (no_edges_no_route sistema_sin_aristas
           {| nodos := [("a"%string, (0, 0)%Q); ("b"%string, (1, 1)%Q)];
              aristas := [] |}).
  - reflexivity.
  - reflexivity.
  - done.
Defined.

Lemma location_search_exact_first_witness :
  buscar_ubicacion (H := unicode_ejemplo) sistema_inicial "  fiec espol "
    = Some (-2.144503, -79.968048)%Q.
Proof.
  apply (location_search_exact_first (H := unicode_ejemplo) sistema_inicial
           "  fiec espol " 2 "FIEC ESPOL").
  - reflexivity.
  - reflexivity.
  - intros [|[|j]] n' c' Hj; [| |lia]; intros [= <- <-]; by vm_compute.
Defined.

Lemma blank_search_returns_first_entry_witness :
  buscar_ubicacion (H := unicode_ejemplo) sistema_inicial "   "
    = Some (-2.1448, -79.9663)%Q.
Proof.
  eapply (blank_search_returns_first_entry (H := unicode_ejemplo)
            sistema_inicial "   " "ESPOL").
  - reflexivity.
  - reflexivity.
  - reflexivity.
  - intros nombre c Hin. simpl in Hin.
    repeat (apply elem_of_cons in Hin as [Hin|Hin]; [by simplify_eq|]).
    by apply elem_of_nil in Hin.
Defined.

Lemma nearest_services_sorted_and_sound_witness :
  ∃ l,
    encontrar_servicios_cercanos (H := libm_ejemplo) 6
      (preparar_floyd_warshall sistema_servicios).1 (0, 0)%Q "Hospital" 3 = Ok l ∧
    creciente r_distancia_km l ∧
    ((0 <= 3)%Z → length l ≤ Z.to_nat 3) ∧
    Forall (λ e, ∃ servicios o r,
              dict_get "Hospital" (servicios_emergencia
                (preparar_floyd_warshall sistema_servicios).1) = Some servicios ∧
              r_servicio e ∈ servicios ∧
              _encontrar_nodo_mas_cercano (H := libm_ejemplo)
                (red_vial (preparar_floyd_warshall sistema_servicios).1) (0, 0)%Q
              = Some o ∧
              obtener_ruta 6 (preparar_floyd_warshall sistema_servicios).1 o
                (nodo_de (r_servicio e)) = Ok (Some r) ∧
              e = entrada (r_servicio e) r) l.
Proof.
  assert (HE : ∃ l,
            encontrar_servicios_cercanos (H := libm_ejemplo) 6
              (preparar_floyd_warshall sistema_servicios).1 (0, 0)%Q "Hospital" 3
            = Ok l)
    by (vm_compute; by repeat eexists).
  destruct HE as [l E].
  exists l. split; [exact E|].
  apply (nearest_services_sorted_and_sound (H := libm_ejemplo) _ _ _ _ _ _ E).
Defined.

Lemma nearest_services_empty_iff_witness :
  @nil Resultado = [] ↔
  sin_busqueda (H := libm_ejemplo) sistema_inicial (0, 0)%Q "Hospital" ∨
  ∃ servicios o,
    dict_get "Hospital" (servicios_emergencia sistema_inicial) = Some servicios ∧
    _encontrar_nodo_mas_cercano (H := libm_ejemplo) (red_vial sistema_inicial)
      (0, 0)%Q = Some o ∧
    ∀ sv r, sv ∈ servicios →
      obtener_ruta 0 sistema_inicial o (nodo_de sv) ≠ Ok (Some r).
Proof.
  apply (nearest_services_empty_iff (H := libm_ejemplo) 0 sistema_inicial
           (0, 0)%Q "Hospital" 3 []).
  - reflexivity.
  - lia.
Defined.

Lemma nearest_services_never_raise_witness :
  ∃ l, encontrar_servicios_cercanos (H := libm_ejemplo) 6
         (preparar_floyd_warshall sistema_servicios).1 (0, 0)%Q "Hospital" 1 = Ok l.
Proof.
  apply (nearest_services_never_raise (H := libm_ejemplo) 6 sistema_servicios
           grafo_servicios).
  - reflexivity.
  - apply grafo_servicios_positivo.
  - vm_compute. lia.
Defined.

Lemma index_dictionaries_are_inverse_witness :
  ∃ m, fw (preparar_floyd_warshall sistema_ejemplo).1 = Some m ∧
    (nodo_a_indice m !! "node_1"%string = Some 1 ↔
     dict_keys (nodos grafo_integrado) !! 1 = Some "node_1"%string) ∧
    (indice_a_nodo m !! 1 = Some "node_1"%string ↔
     dict_keys (nodos grafo_integrado) !! 1 = Some "node_1"%string).
Proof.
  apply (index_dictionaries_are_inverse sistema_ejemplo grafo_integrado).
  - reflexivity.
  - apply (alcanzable_NoDup (H := libm_ejemplo)), grafo_integrado_alcanzable.
Defined.

Lemma nearest_services_are_nearest_witness :
  ∃ l r,
    encontrar_servicios_cercanos (H := libm_ejemplo) 6
      (preparar_floyd_warshall sistema_servicios).1 (0, 0)%Q "Hospital" 1 = Ok l ∧
    obtener_ruta 6 (preparar_floyd_warshall sistema_servicios).1 "node_0"
      (nodo_de hospital_norte) = Ok (Some r) ∧
    (entrada hospital_norte r ∈ l ∨
     (Forall (λ e, dle (r_distancia_km e) (distancia_km r)) l ∧
      ((0 <= 1)%Z → length l = Z.to_nat 1))).
Proof.
  assert (HE : ∃ l,
            encontrar_servicios_cercanos (H := libm_ejemplo) 6
              (preparar_floyd_warshall sistema_servicios).1 (0, 0)%Q "Hospital" 1
            = Ok l)
    by (vm_compute; by repeat eexists).
  destruct HE as [l E].
  assert (HEr : ∃ r,
            obtener_ruta 6 (preparar_floyd_warshall sistema_servicios).1 "node_0"
              (nodo_de hospital_norte)
            = Ok (Some r))
    by (vm_compute; by repeat eexists).
  destruct HEr as [r Er].
  exists l, r. split; [exact E|]. split; [exact Er|].
  apply (nearest_services_are_nearest (H := libm_ejemplo) 6
           (preparar_floyd_warshall sistema_servicios).1 (0, 0)%Q "Hospital" 1 l
           [hospital_norte; hospital_sur] "node_0" hospital_norte r E).
  - reflexivity.
  - by vm_compute.
  - done.
  - left.
  - exact Er.
Defined.

Lemma distinct_nodes_route_at_least_floor_witness :
  ∃ r,
    obtener_ruta 7 (preparar_floyd_warshall sistema_ejemplo).1 "ref_A_B" "node_3"
      = Ok (Some r) ∧
    dle (Fin 0.01) (distancia_km r) ∧ 2 ≤ length (ruta_nodos r).
Proof.
  assert (HE : ∃ r,
            obtener_ruta 7 (preparar_floyd_warshall sistema_ejemplo).1
              "ref_A_B" "node_3"
            = Ok (Some r))
    by (vm_compute; by repeat eexists).
  destruct HE as [r E].
  exists r. split; [exact E|].
  apply (distinct_nodes_route_at_least_floor sistema_ejemplo grafo_integrado
           "ref_A_B" "node_3" 7 r).
  - reflexivity.
  - apply (alcanzable_piso (H := libm_ejemplo)), grafo_integrado_alcanzable.
  - done.
  - exact E.
Defined.
